(** * StochasticMapper: a shallow embedding of
    [qiskit/transpiler/passes/mapping/stochastic_mapper.py]

    The pass walks the serial layers of a program graph, and for every
    two-qubit operation whose physical resources are not at distance 1 in
    the coupling graph it inserts a chain of swaps along one shortest
    path, updating the current layout afterwards.

    The pass itself ([StochasticMapper.__init__], [StochasticMapper.run])
    is embedded from the source, statement by statement, in a monad of
    computations over a store of layout objects that may raise.  The
    collaborators it calls ([Layout], [Coupling], [DAGCircuit],
    [SwapGate]) live in other modules of the package; they are modelled
    from the contracts the specification gives them (sections 3 and 6).

    The run builds each swap with [self.swap_gate], an attribute that
    [__init__] does not set: on the pass object as [__init__] builds it
    the read raises [AttributeError], and the run inserts swaps only
    once a caller has assigned the attribute.  The pass object of the
    embedding has the attribute as an optional field, absent after
    [__init__].

    The file has two parts: the definitions, then the proofs, which end
    with the properties of the specification. *)

From stdpp Require Import base option list gmap strings fin_maps.

Set Default Proof Using "Type".

(** ** Registers, qubits, operations *)

(** A quantum register: a name and a size.  A logical qubit is the pair
    [(qreg, index)] the source builds at line 79. *)
Record QuantumRegister := QReg { reg_name : string; reg_size : nat }.

Global Instance QuantumRegister_eq_dec : EqDecision QuantumRegister.
Proof. solve_decision. Defined.

Global Instance QuantumRegister_countable : Countable QuantumRegister.
Proof.
  refine (inj_countable' (λ r, (reg_name r, reg_size r))
                         (λ p, QReg p.1 p.2) _).
  by intros [].
Defined.

Abbreviation qubit := (QuantumRegister * nat)%type.

(** An operation node of the program graph, as the dictionary the source
    reads with [a_cx['qargs']]. *)
Record Node := mkNode {
  name : string;
  qargs : list qubit;
  cargs : list (string * nat)
}.

Global Instance Node_eq_dec : EqDecision Node.
Proof. solve_decision. Defined.

(** The exceptions a run can end with. *)
Inductive Error :=
| KeyError        (* a lookup in a Layout failed *)
| LayoutError     (* rename map between layouts of different support *)
| CouplingError   (* unknown physical resource, or no path *)
| IndexError      (* a list was indexed out of range *)
| TypeError       (* an attribute does not hold the expected object *)
| AttributeError. (* the object has no such attribute *)

Global Instance Error_eq_dec : EqDecision Error.
Proof. solve_decision. Defined.

Abbreviation result A := (Error + A)%type.

Definition from_option {A} (e : Error) (o : option A) : result A :=
  match o with Some x => inr x | None => inl e end.

(** ** Layout *)

Module Layout.

(** Modelled from the spec: the class [Layout] of [qiskit.mapper], which
    the source imports at line 20.  A layout maps logical resources to
    physical resources and back ("get(logical)", "get(physical)"); the
    keys of the two kinds never collide, so it is kept as two finite
    maps. *)
Record t := mk {
  v2p : gmap qubit nat;
  p2v : gmap nat qubit
}.

Definition empty : t := mk ∅ ∅.

(** Modelled from the spec: [layout[(qreg, index)]], "get(logical) ->
    physical"; the lookup of an unknown resource fails. *)
Definition get_virtual (l : t) (v : qubit) : result nat :=
  from_option KeyError (v2p l !! v).

(** Modelled from the spec: [layout[physical]], "get(physical) ->
    logical"; the lookup of an unknown resource fails. *)
Definition get_physical (l : t) (p : nat) : result qubit :=
  from_option KeyError (p2v l !! p).

(** Modelled from the spec: [layout[virtual] = physical], the
    assignment of the initial-layout construction; both directions are
    recorded. *)
Definition setitem (l : t) (v : qubit) (p : nat) : t :=
  mk (<[v := p]> (v2p l)) (<[p := v]> (p2v l)).

(** Modelled from the spec: [layout.swap(left, right)] on two physical
    resources, "exchange(physicalA, physicalB)": the logical resources
    occupying them are exchanged. *)
Definition swap (l : t) (left right : nat) : result t :=
  match p2v l !! left, p2v l !! right with
  | Some x, Some y => inr (setitem (setitem l y left) x right)
  | _, _ => inl KeyError
  end.

(** Modelled from the spec: [self.combine_into_edge_map(another)],
    "renameMapRelativeTo(otherLayout)": the rename map sending each
    logical resource of [self] to the logical resource that [another]
    places on the same physical resource; both layouts are over the same
    resources. *)
Definition combine_into_edge_map (self another : t)
  : result (gmap qubit qubit) :=
  if decide (map_Forall (λ _ p, is_Some (p2v another !! p)) (v2p self))
  then inr (omap (λ p, p2v another !! p) (v2p self))
  else inl LayoutError.

(** The two directions of a layout agree: it is a bijection between
    the logical and the physical resources it mentions. *)
Definition consistent (l : t) : Prop :=
  ∀ v p, v2p l !! v = Some p ↔ p2v l !! p = Some v.

End Layout.

(** ** Coupling graph *)

Module Coupling.

(** Modelled from the spec: the class [Coupling] of [qiskit.mapper],
    of which the source calls [distance] and
    [shortest_undirected_path]; it is taken as a parameter of the pass,
    through its two queries.  Both fail on resources the graph does not
    know or cannot connect. *)
Record t := mk {
  distance : nat → nat → result nat;
  shortest_undirected_path : nat → nat → result (list nat)
}.

(** Modelled from the spec: the contract of the two queries.  A path
    runs from its source to its target, inclusive of both, without
    repeating a resource, and its consecutive resources are directly
    connected (at distance 1). *)
Record contract (c : t) : Prop := {
  path_head : ∀ p q path,
    shortest_undirected_path c p q = inr path → head path = Some p;
  path_last : ∀ p q path,
    shortest_undirected_path c p q = inr path → last path = Some q;
  path_NoDup : ∀ p q path,
    shortest_undirected_path c p q = inr path → NoDup path;
  path_adjacent : ∀ p q path i a b,
    shortest_undirected_path c p q = inr path →
    path !! i = Some a → path !! S i = Some b →
    distance c a b = inr 1
}.

End Coupling.

(** ** Program graph *)

Module DAGCircuit.

(** Modelled from the spec: the class [DAGCircuit] of
    [qiskit.dagcircuit].  A program graph holds its declared registers,
    in declaration order, and its operations, in an order consistent
    with the graph's partial order. *)
Record t := mk {
  qregs : list QuantumRegister;
  nodes : list Node
}.

(** Modelled from the spec: [DAGCircuit()], the empty graph. *)
Definition empty : t := mk [] [].

(** Modelled from the spec: [add_qreg(qreg)] declares a register. *)
Definition add_qreg (d : t) (r : QuantumRegister) : t :=
  mk (qregs d ++ [r]) (nodes d).

(** Modelled from the spec: [apply_operation_back(op, qargs)] appends
    one operation. *)
Definition apply_operation_back (d : t) (n : Node) : t :=
  mk (qregs d) (nodes d ++ [n]).

(** Modelled from the spec: a wire under a rename map; a wire outside
    the map keeps its name. *)
Definition rename_wire (edge_map : gmap qubit qubit) (q : qubit) : qubit :=
  default q (edge_map !! q).

(** Modelled from the spec: an operation under a rename map. *)
Definition rename (edge_map : gmap qubit qubit) (n : Node) : Node :=
  mkNode (name n) (rename_wire edge_map <$> qargs n) (cargs n).

(** Modelled from the spec: [compose_back(sub, edge_map)],
    "composeAppend(subGraph, renameMap)", appends the operations of
    [sub] under the rename map, in the order [sub] has them. *)
Definition compose_back (d sub : t) (edge_map : gmap qubit qubit) : t :=
  mk (qregs d) (nodes d ++ (rename edge_map <$> nodes sub)).

(** Modelled from the spec: [extend_back(sub, edge_map)], the same
    append, used for the layers of the program. *)
Definition extend_back (d sub : t) (edge_map : gmap qubit qubit) : t :=
  compose_back d sub edge_map.

(** Modelled from the spec: [serial_layers()], the serial decomposition:
    one sub-graph per operation, in an order consistent with the graph;
    composing them in order gives the graph back. *)
Definition serial_layers (d : t) : list t :=
  (λ n, mk (qregs d) [n]) <$> nodes d.

(** Modelled from the spec: [get_cnot_nodes()],
    "twoResourceOperations()": the two-qubit operations of a (layer)
    graph, in the order the graph has them. *)
Definition get_cnot_nodes (d : t) : list Node :=
  filter (λ n, length (qargs n) = 2) (nodes d).

End DAGCircuit.

(** Modelled from the spec: a swap operation on two wires, as a node
    of a program graph. *)
Definition swap_node (qubit_1 qubit_2 : qubit) : Node :=
  mkNode "swap" [qubit_1; qubit_2] [].

(** Modelled from the spec: the gate class [SwapGate] of
    [qiskit.extensions.standard], which the source imports at line 21
    and does not use.  It is the value a caller gives the [swap_gate]
    attribute of a pass object, when the caller sets it. *)
Inductive GateClass := SwapGate.

(** Modelled from the spec: [gate(qubit_1, qubit_2)] applied with
    [qargs=[qubit_1, qubit_2]] (lines 109 and 110): the operation that
    [apply_operation_back] appends. *)
Definition call (gate : GateClass) (qubit_1 qubit_2 : qubit) : Node :=
  match gate with SwapGate => swap_node qubit_1 qubit_2 end.

(** ** The pass object and the store *)

(** Layout objects are shared between the caller, the pass object and
    the run, and are mutated in place: they live in a heap and are named
    by their location. *)
Abbreviation loc := nat.

Module StochasticMapper.

(** The attributes of a pass object.  [__init__] sets the first four
    (lines 57 to 60).  [run] also reads [swap_gate] (line 109), which
    neither [__init__] nor the class body sets: the object has it only
    when a caller has assigned it. *)
Record t := mk {
  coupling_map : Coupling.t;
  initial_layout : option loc;
  trials : nat;
  seed : option nat;
  swap_gate : option GateClass
}.

(** [StochasticMapper(coupling_map, initial_layout=None, trials=20,
    seed=None)]: the object has no [swap_gate] attribute. *)
Definition init (coupling_map : Coupling.t) (initial_layout : option loc)
    (trials : option nat) (seed : option nat) : t :=
  mk coupling_map initial_layout (default 20 trials) seed None.

Definition set_initial_layout (self : t) (l : option loc) : t :=
  mk (coupling_map self) l (trials self) (seed self) (swap_gate self).

(** [mapper.swap_gate = gate], by a caller. *)
Definition set_swap_gate (self : t) (gate : GateClass) : t :=
  mk (coupling_map self) (initial_layout self) (trials self) (seed self)
     (Some gate).

End StochasticMapper.

Record State := mkState {
  self : StochasticMapper.t;
  heap : list Layout.t
}.

(** The store after a caller's assignment [mapper.swap_gate = SwapGate]. *)
Definition with_swap_gate (s : State) : State :=
  mkState (StochasticMapper.set_swap_gate (self s) SwapGate) (heap s).

(** Computations that read and write the store and may raise. *)
Definition M (A : Type) : Type := State → result A * State.

Global Instance M_ret : MRet M := λ A x s, (inr x, s).
Global Instance M_bind : MBind M := λ A B f m s,
  match m s with
  | (inr x, s') => f x s'
  | (inl e, s') => (inl e, s')
  end.

Definition lift {A} (r : result A) : M A := λ s, (r, s).

Definition get_self : M StochasticMapper.t := λ s, (inr (self s), s).

Definition set_self_initial_layout (l : loc) : M unit := λ s,
  (inr (), mkState (StochasticMapper.set_initial_layout (self s) (Some l))
                   (heap s)).

(** A new layout object holding [v]. *)
Definition alloc (v : Layout.t) : M loc := λ s,
  (inr (length (heap s)), mkState (self s) (heap s ++ [v])).

Definition load (l : loc) : M Layout.t := λ s,
  (from_option TypeError (heap s !! l), s).

Definition store (l : loc) (v : Layout.t) : M unit := λ s,
  (inr (), mkState (self s) (<[l := v]> (heap s))).

(** [for x in xs: acc = body(acc, x)] *)
Fixpoint for_each {A B} (xs : list A) (acc : B) (body : B → A → M B) : M B :=
  match xs with
  | [] => mret acc
  | x :: xs' => acc' ← body acc x; for_each xs' acc' body
  end.

(** [xs[i]] *)
Definition index {A} (xs : list A) (i : nat) : M A :=
  lift (from_option IndexError (xs !! i)).

(** Layout operations on the object at a location. *)
Definition layout_setitem (l : loc) (v : qubit) (p : nat) : M unit :=
  L ← load l; store l (Layout.setitem L v p).

Definition layout_get_virtual (l : loc) (v : qubit) : M nat :=
  L ← load l; lift (Layout.get_virtual L v).

Definition layout_get_physical (l : loc) (p : nat) : M qubit :=
  L ← load l; lift (Layout.get_physical L p).

Definition layout_swap (l : loc) (left right : nat) : M unit :=
  L ← load l; L' ← lift (Layout.swap L left right); store l L'.

Definition layout_combine_into_edge_map (l another : loc)
  : M (gmap qubit qubit) :=
  L ← load l; L' ← load another; lift (Layout.combine_into_edge_map L L').

(** [copy(layout)]: a new object with the same entries. *)
Definition copy (l : loc) : M loc :=
  L ← load l; alloc L.

(** ** [StochasticMapper.run] *)

(** Lines 75 to 80: the one-to-one layout over the declared registers. *)
Definition create_one_to_one_layout (dag : DAGCircuit.t) : M unit :=
  l ← alloc Layout.empty;
  set_self_initial_layout l;;
  for_each (DAGCircuit.qregs dag) 0 (λ physical_qubit qreg,
    for_each (seq 0 (reg_size qreg)) physical_qubit (λ physical_qubit index,
      layout_setitem l (qreg, index) physical_qubit;;
      mret (physical_qubit + 1)));;
  mret ().

(** [self.initial_layout], once it is set. *)
Definition self_initial_layout : M loc :=
  this ← get_self;
  lift (from_option TypeError (StochasticMapper.initial_layout this)).

(** [self.swap_gate]: the attribute is read where line 109 calls it, and
    the read raises when the object does not have it. *)
Definition self_swap_gate : M GateClass :=
  this ← get_self;
  lift (from_option AttributeError (StochasticMapper.swap_gate this)).

(** Lines 91 to 110: the layer holding the swaps along [path].  The
    basis declaration of line 108 adds no operation to the layer. *)
Definition build_swap_layer (current_layout : loc) (path : list nat)
  : M DAGCircuit.t :=
  for_each (seq 0 (length path - 2)) DAGCircuit.empty (λ swap_layer swap,
    connected_wire_1 ← index path swap;
    connected_wire_2 ← index path (swap + 1);
    qubit_1 ← layout_get_physical current_layout connected_wire_1;
    qubit_2 ← layout_get_physical current_layout connected_wire_2;
    let swap_layer :=
      if decide (qubit_1.1 ∈ DAGCircuit.qregs swap_layer) then swap_layer
      else DAGCircuit.add_qreg swap_layer qubit_1.1 in
    let swap_layer :=
      if decide (qubit_2.1 ∈ DAGCircuit.qregs swap_layer) then swap_layer
      else DAGCircuit.add_qreg swap_layer qubit_2.1 in
    swap_gate ← self_swap_gate;
    mret (DAGCircuit.apply_operation_back swap_layer
            (call swap_gate qubit_1 qubit_2))).

(** Lines 117 and 118: the swaps of [path] applied to the layout. *)
Definition update_current_layout (current_layout : loc) (path : list nat)
  : M unit :=
  for_each (seq 0 (length path - 2)) () (λ _ swap,
    left ← index path swap;
    right ← index path (swap + 1);
    layout_swap current_layout left right).

(** Lines 87 to 118: one two-qubit operation of a layer. *)
Definition route_cx (current_layout : loc) (new_dag : DAGCircuit.t)
    (a_cx : Node) : M DAGCircuit.t :=
  qarg_0 ← index (qargs a_cx) 0;
  physical_q0 ← layout_get_virtual current_layout qarg_0;
  qarg_1 ← index (qargs a_cx) 1;
  physical_q1 ← layout_get_virtual current_layout qarg_1;
  this ← get_self;
  d ← lift (Coupling.distance (StochasticMapper.coupling_map this)
              physical_q0 physical_q1);
  if decide (d ≠ 1) then
    path ← lift (Coupling.shortest_undirected_path
                   (StochasticMapper.coupling_map this)
                   physical_q0 physical_q1);
    swap_layer ← build_swap_layer current_layout path;
    initial ← self_initial_layout;
    edge_map ← layout_combine_into_edge_map current_layout initial;
    let new_dag := DAGCircuit.compose_back new_dag swap_layer edge_map in
    update_current_layout current_layout path;;
    mret new_dag
  else mret new_dag.

(** Lines 84 to 121: one layer. *)
Definition route_layer (current_layout : loc) (new_dag : DAGCircuit.t)
    (subdag : DAGCircuit.t) : M DAGCircuit.t :=
  new_dag ← for_each (DAGCircuit.get_cnot_nodes subdag) new_dag
              (route_cx current_layout);
  initial ← self_initial_layout;
  edge_map ← layout_combine_into_edge_map current_layout initial;
  mret (DAGCircuit.extend_back new_dag subdag edge_map).

(** [run(self, dag)] *)
Definition run (dag : DAGCircuit.t) : M DAGCircuit.t :=
  let new_dag := DAGCircuit.empty in
  this ← get_self;
  (if StochasticMapper.initial_layout this is None
   then create_one_to_one_layout dag
   else mret ());;
  initial ← self_initial_layout;
  current_layout ← copy initial;
  new_dag ← for_each (DAGCircuit.serial_layers dag) new_dag
              (route_layer current_layout);
  mret new_dag.

(** ** A coupling graph given by its edges *)

Module Graph.

(** Modelled from the spec: a coupling graph over the physical
    resources named by a list of edges, read without direction, as the
    tests build them.  The distance is the number of edges of a
    shortest path. *)
Definition physical_qubits (g : list (nat * nat)) : list nat :=
  remove_dups (g.*1 ++ g.*2).

(** Modelled from the spec: "isAdjacent(p, q)", insensitive to the
    direction of the edge. *)
Definition adjacent (g : list (nat * nat)) (a b : nat) : Prop :=
  (a, b) ∈ g ∨ (b, a) ∈ g.

Global Instance adjacent_dec g a b : Decision (adjacent g a b).
Proof. unfold adjacent. apply _. Defined.

(** The resources directly connected to [a]. *)
Definition neighbors (g : list (nat * nat)) (a : nat) : list nat :=
  filter (adjacent g a) (physical_qubits g).

(** The resources within [k] edges of [p]. *)
Fixpoint ball (g : list (nat * nat)) (p : nat) (k : nat) : list nat :=
  match k with
  | 0 => [p]
  | S k' => remove_dups (ball g p k' ++ (ball g p k' ≫= neighbors g))
  end.

(** The least [k] with [q] within [k] edges of [p]. *)
Definition level (g : list (nat * nat)) (p q : nat) : option nat :=
  snd <$> list_find (λ k, q ∈ ball g p k)
                    (seq 0 (S (length (physical_qubits g)))).

(** A shortest path from [p] to [v], for [v] at level [k]: it reaches a
    neighbour of [v] one level below, then steps to [v]. *)
Fixpoint path_to (g : list (nat * nat)) (p : nat) (k : nat) (v : nat)
  : list nat :=
  match k with
  | 0 => [v]
  | S k' =>
      match list_find (λ u, adjacent g u v ∧ level g p u = Some k')
                      (physical_qubits g) with
      | Some (_, u) => path_to g p k' u ++ [v]
      | None => [v]
      end
  end.

(** Both resources belong to the graph. *)
Definition known (g : list (nat * nat)) (p q : nat) : Prop :=
  p ∈ physical_qubits g ∧ q ∈ physical_qubits g.

(** Modelled from the spec: [distance], the undirected distance; it
    fails on a resource the graph does not know and on a pair it does
    not connect. *)
Definition distance (g : list (nat * nat)) (p q : nat) : result nat :=
  if decide (known g p q)
  then from_option CouplingError (level g p q)
  else inl CouplingError.

(** Modelled from the spec: [shortest_undirected_path],
    "shortestPath(p, q)": one shortest path, both ends included; it
    fails when there is none. *)
Definition shortest_undirected_path (g : list (nat * nat)) (p q : nat)
  : result (list nat) :=
  if decide (known g p q)
  then from_option CouplingError ((λ k, path_to g p k q) <$> level g p q)
  else inl CouplingError.

Definition coupling (g : list (nat * nat)) : Coupling.t :=
  Coupling.mk (distance g) (shortest_undirected_path g).

End Graph.

(** ** A functional reading of the run

    The run reads and writes only two layout objects: the initial layout
    and its copy.  Its result is the value of a function of the initial
    layout and of the operations of the program. *)

Global Instance result_ret : MRet (sum Error) := λ A x, inr x.
Global Instance result_bind : MBind (sum Error) := λ A B f m,
  match m with inr x => f x | inl e => inl e end.
Global Instance result_fmap : FMap (sum Error) := λ A B f r,
  match r with inr x => inr (f x) | inl e => inl e end.

Module Pure.

(** The pairs of consecutive resources of a path, its last pair
    excluded. *)
Fixpoint chain (path : list nat) : list (nat * nat) :=
  match path with
  | a :: tl =>
      match tl with
      | b :: _ :: _ => (a, b) :: chain tl
      | _ => []
      end
  | [] => []
  end.

(** The swap operations for a list of pairs, named through [cur] and
    built by the gate class [sg] of the pass object, if it has one. *)
Fixpoint swap_nodes (sg : option GateClass) (cur : Layout.t)
    (ps : list (nat * nat)) : result (list Node) :=
  match ps with
  | [] => inr []
  | (a, b) :: ps' =>
      x ← Layout.get_physical cur a;
      y ← Layout.get_physical cur b;
      swap_gate ← from_option AttributeError sg;
      rest ← swap_nodes sg cur ps';
      inr (call swap_gate x y :: rest)
  end.

(** The exchanges of a list of pairs, applied in order. *)
Fixpoint apply_chain (cur : Layout.t) (ps : list (nat * nat))
  : result Layout.t :=
  match ps with
  | [] => inr cur
  | (a, b) :: ps' => cur' ← Layout.swap cur a b; apply_chain cur' ps'
  end.

Definition route_cx (sg : option GateClass) (cm : Coupling.t)
    (init : Layout.t) (st : Layout.t * list Node) (a_cx : Node)
  : result (Layout.t * list Node) :=
  qarg_0 ← from_option IndexError (qargs a_cx !! 0);
  physical_q0 ← Layout.get_virtual st.1 qarg_0;
  qarg_1 ← from_option IndexError (qargs a_cx !! 1);
  physical_q1 ← Layout.get_virtual st.1 qarg_1;
  d ← Coupling.distance cm physical_q0 physical_q1;
  if decide (d ≠ 1) then
    path ← Coupling.shortest_undirected_path cm physical_q0 physical_q1;
    swaps ← swap_nodes sg st.1 (chain path);
    edge_map ← Layout.combine_into_edge_map st.1 init;
    cur' ← apply_chain st.1 (chain path);
    inr (cur', st.2 ++ (DAGCircuit.rename edge_map <$> swaps))
  else inr st.

Fixpoint route_cxs (sg : option GateClass) (cm : Coupling.t)
    (init : Layout.t) (st : Layout.t * list Node) (cxs : list Node)
  : result (Layout.t * list Node) :=
  match cxs with
  | [] => inr st
  | a_cx :: cxs' =>
      st' ← route_cx sg cm init st a_cx; route_cxs sg cm init st' cxs'
  end.

Definition route_layer (sg : option GateClass) (cm : Coupling.t)
    (init : Layout.t) (st : Layout.t * list Node) (subdag : DAGCircuit.t)
  : result (Layout.t * list Node) :=
  st' ← route_cxs sg cm init st (DAGCircuit.get_cnot_nodes subdag);
  edge_map ← Layout.combine_into_edge_map st'.1 init;
  inr (st'.1, st'.2 ++ (DAGCircuit.rename edge_map <$> DAGCircuit.nodes subdag)).

Fixpoint route_layers (sg : option GateClass) (cm : Coupling.t)
    (init : Layout.t) (st : Layout.t * list Node) (layers : list DAGCircuit.t)
  : result (Layout.t * list Node) :=
  match layers with
  | [] => inr st
  | layer :: layers' =>
      st' ← route_layer sg cm init st layer;
      route_layers sg cm init st' layers'
  end.

(** The declared logical resources, in declaration order. *)
Definition declared (regs : list QuantumRegister) : list qubit :=
  regs ≫= (λ r, (λ i, (r, i)) <$> seq 0 (reg_size r)).

(** The layout assigning [k], [k+1], ... to a list of resources. *)
Fixpoint assign (l : Layout.t) (k : nat) (vs : list qubit) : Layout.t :=
  match vs with
  | [] => l
  | v :: vs' => assign (Layout.setitem l v k) (S k) vs'
  end.

Definition one_to_one (regs : list QuantumRegister) : Layout.t :=
  assign Layout.empty 0 (declared regs).

(** The accumulated layout: the current layout when the layer of the
    operation of index [k] has been routed and is appended. *)
Definition layout_after (sg : option GateClass) (cm : Coupling.t)
    (init : Layout.t) (dag : DAGCircuit.t) (k : nat) : result Layout.t :=
  fst <$> route_layers sg cm init (init, [])
            (DAGCircuit.serial_layers
               (DAGCircuit.mk (DAGCircuit.qregs dag)
                  (take (S k) (DAGCircuit.nodes dag)))).

End Pure.

(** The layout a run starts from: the one the pass object holds, or the
    one-to-one layout over the declared registers. *)
Definition starting_layout (dag : DAGCircuit.t) (s : State)
  : option Layout.t :=
  match StochasticMapper.initial_layout (self s) with
  | Some l0 => heap s !! l0
  | None => Some (Pure.one_to_one (DAGCircuit.qregs dag))
  end.

(** The store a run ends with, when it started from [init] and left
    [cur] in its working copy. *)
Definition final_state (s : State) (init cur : Layout.t) : State :=
  match StochasticMapper.initial_layout (self s) with
  | Some _ => mkState (self s) (heap s ++ [cur])
  | None =>
      mkState (StochasticMapper.set_initial_layout (self s)
                 (Some (length (heap s))))
              (heap s ++ [init; cur])
  end.

(** ** Reading the returned graph: swaps as relabellings *)

(** The wires a swap operation exchanges. *)
Definition swap_wires (n : Node) : option (qubit * qubit) :=
  if decide (name n = "swap") then
    match qargs n with
    | [a; b] => Some (a, b)
    | _ => None
    end
  else None.

(** The logical value [w] carries under the relabelling [W]. *)
Definition carried (W : gmap qubit qubit) (w : qubit) : qubit :=
  default w (W !! w).

Definition exchange (W : gmap qubit qubit) (a b : qubit) : gmap qubit qubit :=
  <[a := carried W b]> (<[b := carried W a]> W).

(** The operations of a graph once every swap is read as an exchange of
    the values its two wires carry: each other operation is placed on
    the values that reach it. *)
Fixpoint unroute_from (W : gmap qubit qubit) (ns : list Node) : list Node :=
  match ns with
  | [] => []
  | n :: ns' =>
      match swap_wires n with
      | Some (a, b) => unroute_from (exchange W a b) ns'
      | None =>
          mkNode (name n) (carried W <$> qargs n) (cargs n)
            :: unroute_from W ns'
      end
  end.

Definition unroute (ns : list Node) : list Node := unroute_from ∅ ns.

(** The operations met by the value that starts on wire [v]. *)
Definition worldline (v : qubit) (ns : list Node) : list Node :=
  filter (λ n, v ∈ qargs n) (unroute ns).

(** A two-qubit operation whose wires the layout [l] places on directly
    connected physical resources. *)
Definition adjacent_under (cm : Coupling.t) (l : Layout.t) (n : Node) : Prop :=
  ∀ a b, qargs n = [a; b] →
    ∃ pa pb, Layout.v2p l !! a = Some pa ∧ Layout.v2p l !! b = Some pb ∧
             Coupling.distance cm pa pb = inr 1.

(** ** The store of a run, related to its functional reading *)

(** The pass object holds the initial layout at [l0]; the working copy
    is a different object, at [lc]. *)
Definition related (l0 lc : loc) (init cur : Layout.t) (s : State) : Prop :=
  StochasticMapper.initial_layout (self s) = Some l0 ∧
  heap s !! l0 = Some init ∧ heap s !! lc = Some cur ∧ l0 ≠ lc.

Definition with_current (lc : loc) (cur : Layout.t) (s : State) : State :=
  mkState (self s) (<[lc := cur]> (heap s)).

(** The outcome [out] of a computation started from store [s] is what
    [p] describes: its result, and the layout it leaves in the working
    copy; nothing else changes. *)
Definition refines {A} (lc : loc) (out : result A * State) (s : State)
    (p : result (A * Layout.t)) : Prop :=
  ∃ cur'', out.2 = with_current lc cur'' s ∧
    match p with
    | inr (x, cur') => out.1 = inr x ∧ cur'' = cur'
    | inl e => out.1 = inl e
    end.

(** The swap layer, registers included, as a function of the frozen
    layout. *)
Fixpoint swap_layer_of (sg : option GateClass) (cur : Layout.t)
    (ps : list (nat * nat)) (swap_layer : DAGCircuit.t)
  : result DAGCircuit.t :=
  match ps with
  | [] => inr swap_layer
  | ab :: ps' =>
      qubit_1 ← Layout.get_physical cur ab.1;
      qubit_2 ← Layout.get_physical cur ab.2;
      let swap_layer :=
        if decide (qubit_1.1 ∈ DAGCircuit.qregs swap_layer) then swap_layer
        else DAGCircuit.add_qreg swap_layer qubit_1.1 in
      let swap_layer :=
        if decide (qubit_2.1 ∈ DAGCircuit.qregs swap_layer) then swap_layer
        else DAGCircuit.add_qreg swap_layer qubit_2.1 in
      swap_gate ← from_option AttributeError sg;
      swap_layer_of sg cur ps'
        (DAGCircuit.apply_operation_back swap_layer
           (call swap_gate qubit_1 qubit_2))
  end.

(** The layouts a run goes through: bijections over the support of the
    initial layout. *)
Record inv (init cur : Layout.t) : Prop := {
  inv_init : Layout.consistent init;
  inv_cur : Layout.consistent cur;
  inv_p : ∀ p, is_Some (Layout.p2v cur !! p) ↔ is_Some (Layout.p2v init !! p);
  inv_v : ∀ v, is_Some (Layout.v2p cur !! v) ↔ is_Some (Layout.v2p init !! v)
}.

(** The wire of the output graph that stands for the resource [v]
    currently occupies. *)
Definition output_wire (cur init : Layout.t) (v : qubit) : qubit :=
  default v (Layout.v2p cur !! v ≫= λ p, Layout.p2v init !! p).

(** The swaps of a chain, once renamed, sit on the wires that stand for
    the physical resources of the chain. *)
Definition swap_on (init : Layout.t) (ab : nat * nat) (n : Node) : Prop :=
  ∃ wa wb, Layout.p2v init !! ab.1 = Some wa ∧
           Layout.p2v init !! ab.2 = Some wb ∧ n = swap_node wa wb.

(** A two-qubit operation for which the run builds no swap: its two
    qubits sit on resources at distance 1, or the path between them has
    at most two resources. *)
Definition needs_no_swap (cm : Coupling.t) (l : Layout.t) (n : Node) : Prop :=
  ∀ a b, qargs n = [a; b] →
    ∃ pa pb d, Layout.v2p l !! a = Some pa ∧ Layout.v2p l !! b = Some pb ∧
      Coupling.distance cm pa pb = inr d ∧
      (d = 1 ∨ ∃ path, Coupling.shortest_undirected_path cm pa pb = inr path ∧
                       length path ≤ 2).

(** The swaps of the chain of [path], each named by the logical
    resources the layout [cur] places on the two resources of its
    pair. *)
Definition named_through (cur : Layout.t) (path : list nat)
    (swaps : list Node) : Prop :=
  ∀ i n, swaps !! i = Some n ↔
    ∃ a b x y, i < length path - 2 ∧
      path !! i = Some a ∧ path !! S i = Some b ∧
      Layout.p2v cur !! a = Some x ∧ Layout.p2v cur !! b = Some y ∧
      n = swap_node x y.

(** What a run asks of its caller: a supplied initial layout is a
    bijection; without one, the declared registers are distinct. *)
Definition layout_precondition (dag : DAGCircuit.t) (s : State) : Prop :=
  match StochasticMapper.initial_layout (self s) with
  | Some l0 => ∃ init, heap s !! l0 = Some init ∧ Layout.consistent init
  | None => NoDup (DAGCircuit.qregs dag)
  end.

(** ** Examples from the test suite *)

Module Examples.

Definition qr4 : QuantumRegister := QReg "q" 4.
Definition q (i : nat) : qubit := (qr4, i).

Definition cx (a b : qubit) : Node := mkNode "cx" [a; b] [].
Definition h (a : qubit) : Node := mkNode "h" [a] [].

(** Coupling map: [0]--[1]--[2]--[3] *)
Definition linear4 : Coupling.t := Graph.coupling [(0, 1); (1, 2); (2, 3)].

(** The store of a test: the pass object as
    [StochasticMapper(coupling, trials=20, seed=13)] builds it, and no
    layout object. *)
Definition fresh (cm : Coupling.t) : State :=
  mkState (StochasticMapper.init cm None (Some 20) (Some 13)) [].

(** The same store, once a caller has set the [swap_gate] attribute of
    the pass object. *)
Definition equipped (cm : Coupling.t) : State := with_swap_gate (fresh cm).

(** The circuit of [test_permute_wires_4]. *)
Definition permute_wires_4 : DAGCircuit.t :=
  DAGCircuit.mk [qr4] [h (q 3); cx (q 3) (q 0)].

Definition qr3 : QuantumRegister := QReg "q" 3.

(** Coupling map: [1]--[0]--[2] *)
Definition star3 : Coupling.t := Graph.coupling [(0, 1); (0, 2)].

(** The circuit of [test_trivial_case]. *)
Definition trivial_case : DAGCircuit.t :=
  DAGCircuit.mk [qr3]
    [cx (qr3, 0) (qr3, 1); h (qr3, 0); cx (qr3, 0) (qr3, 2)].

(** The circuit of [test_permute_wires_1]. *)
Definition permute_wires_1 : DAGCircuit.t :=
  DAGCircuit.mk [qr3] [cx (qr3, 1) (qr3, 2)].

(** The circuit of [test_trivial_in_same_layer]. *)
Definition trivial_in_same_layer : DAGCircuit.t :=
  DAGCircuit.mk [qr4] [cx (q 2) (q 3); cx (q 0) (q 1)].

(** Coupling map: [0]--[1] *)
Definition linear2 : Coupling.t := Graph.coupling [(0, 1)].

(** Four logical resources, two physical ones. *)
Definition four_on_two : DAGCircuit.t :=
  DAGCircuit.mk [qr4] [h (q 3); cx (q 0) (q 1)].

Definition qr2 (nm : string) : QuantumRegister := QReg nm 2.

Definition cx_on (nm : string) : DAGCircuit.t :=
  DAGCircuit.mk [qr2 nm] [cx (qr2 nm, 0) (qr2 nm, 1)].

(** One two-qubit operation between the resources on the two ends. *)
Definition endpoints : DAGCircuit.t :=
  DAGCircuit.mk [qr4] [cx (q 0) (q 3)].

(** A store in which the pass object holds the one-to-one layout of
    four qubits at location 0, with an untouched working copy at
    location 1. *)
Definition routing_store (cm : Coupling.t) : State :=
  mkState (StochasticMapper.init cm (Some 0) (Some 20) (Some 13))
          [Pure.one_to_one [qr4]; Pure.one_to_one [qr4]].

(** The same store, once a caller has set the [swap_gate] attribute of
    the pass object. *)
Definition equipped_routing_store (cm : Coupling.t) : State :=
  with_swap_gate (routing_store cm).

(** A store in which the caller has supplied the one-to-one layout of
    four qubits. *)
Definition supplied_store (cm : Coupling.t) : State :=
  mkState (StochasticMapper.init cm (Some 0) (Some 20) (Some 13))
          [Pure.one_to_one [qr4]].

End Examples.

(** ** Notions for the further properties of the run *)

(** The layout reached from [cur] when the swaps of a graph are read
    back as exchanges: a swap on two wires exchanges the physical
    resources the starting layout [init] gives to these wires; any
    other operation leaves the layout as it is. *)
Definition replay_swap (init cur : Layout.t) (n : Node) : result Layout.t :=
  match swap_wires n with
  | Some (wa, wb) =>
      pa ← Layout.get_virtual init wa;
      pb ← Layout.get_virtual init wb;
      Layout.swap cur pa pb
  | None => inr cur
  end.

Fixpoint replay (init cur : Layout.t) (ns : list Node) : result Layout.t :=
  match ns with
  | [] => inr cur
  | n :: ns' => cur' ← replay_swap init cur n; replay init cur' ns'
  end.

(** The number of qubits a list of registers declares. *)
Definition offset (regs : list QuantumRegister) : nat :=
  sum_list (reg_size <$> regs).

(** The store after a run that had no layout supplied, whatever the
    layout [cur] it leaves in its working copy. *)
Definition default_store (dag : DAGCircuit.t) (s : State) (cur : Layout.t)
  : State :=
  mkState (StochasticMapper.set_initial_layout (self s)
             (Some (length (heap s))))
          (heap s ++ [Pure.one_to_one (DAGCircuit.qregs dag); cur]).

(** The registers a graph declares are, each once, the registers of the
    qubits its operations name. *)
Definition declares_its_registers (d : DAGCircuit.t) : Prop :=
  NoDup (DAGCircuit.qregs d) ∧
  ∀ r, r ∈ DAGCircuit.qregs d ↔
       ∃ n v, n ∈ DAGCircuit.nodes d ∧ v ∈ qargs n ∧ v.1 = r.

(** The coupling graph connects the resources the layout occupies, by
    paths through occupied resources. *)
Definition connects_occupied (cm : Coupling.t) (init : Layout.t) : Prop :=
  ∀ p q, is_Some (Layout.p2v init !! p) → is_Some (Layout.p2v init !! q) →
    ∃ d path, Coupling.distance cm p q = inr d ∧
      Coupling.shortest_undirected_path cm p q = inr path ∧
      ∀ x, x ∈ path → is_Some (Layout.p2v init !! x).

Module MoreExamples.

(** Two registers: [a] of size 2, then [b] of size 3. *)
Definition ra : QuantumRegister := QReg "a" 2.
Definition rb : QuantumRegister := QReg "b" 3.

(** An operation between the two registers, on the graph
    [0]--[1]--[2]--[3]: [b[1]] sits on resource 3, [a[0]] on 0. *)
Definition two_registers : DAGCircuit.t :=
  DAGCircuit.mk [ra; rb]
    [Examples.h (rb, 2); Examples.cx (rb, 1) (ra, 0)].

(** Coupling map: [0]--[1]--[2]--[3]--[4] *)
Definition linear5 : Coupling.t :=
  Graph.coupling [(0, 1); (1, 2); (2, 3); (3, 4)].

(** Two routed operations in a row. *)
Definition back_and_forth : DAGCircuit.t :=
  DAGCircuit.mk [Examples.qr4]
    [Examples.cx (Examples.q 0) (Examples.q 3);
     Examples.h (Examples.q 1);
     Examples.cx (Examples.q 0) (Examples.q 1)].

(** A layout that places two qubits on the two ends of the graph
    [0]--[1]--[2] and nothing on resource 1, with its working copy. *)
Definition ends_only : Layout.t :=
  Layout.setitem
    (Layout.setitem Layout.empty (Examples.qr2 "q", 0) 0)
    (Examples.qr2 "q", 1) 2.

Definition linear3 : Coupling.t := Graph.coupling [(0, 1); (1, 2)].

Definition ends_only_store : State :=
  mkState (StochasticMapper.init linear3 (Some 0) None None)
          [ends_only; ends_only].

End MoreExamples.

(** * Proofs *)

Import Examples.

(** ** The store monad *)

Lemma bind_eq {A B} (m : M A) (f : A → M B) (s : State) :
  (m ≫= f) s =
  match m s with
  | (inr x, s') => f x s'
  | (inl e, s') => (inl e, s')
  end.
Proof. reflexivity. Qed.

Lemma for_each_cons {A B} (x : A) (xs : list A) (acc : B) (f : B → A → M B) s :
  for_each (x :: xs) acc f s =
  match f acc x s with
  | (inr acc', s') => for_each xs acc' f s'
  | (inl e, s') => (inl e, s')
  end.
Proof. reflexivity. Qed.

Lemma for_each_ext {A B} (xs : list A) (acc : B) (f g : B → A → M B) s :
  (∀ acc x s, x ∈ xs → f acc x s = g acc x s) →
  for_each xs acc f s = for_each xs acc g s.
Proof.
  revert acc s. induction xs as [|x xs IH]; intros acc s Hfg; [done|].
  cbn [for_each]. rewrite !bind_eq, Hfg by left.
  destruct (g acc x s) as [[e|acc'] s']; [done|].
  apply IH. intros. apply Hfg. by right.
Qed.

Lemma for_each_fmap {A B C} (h : C → A) (xs : list C) (acc : B)
    (f : B → A → M B) s :
  for_each (h <$> xs) acc f s = for_each xs acc (λ acc x, f acc (h x)) s.
Proof.
  revert acc s. induction xs as [|x xs IH]; intros acc s; [done|].
  cbn [for_each fmap list_fmap]. rewrite !bind_eq.
  destruct (f acc (h x) s) as [[e|acc'] s']; [done|]. apply IH.
Qed.

Lemma bind_lift {A B} (r : result A) (f : A → M B) (s : State) :
  (lift r ≫= f) s = match r with inr x => f x s | inl e => (inl e, s) end.
Proof. rewrite bind_eq. unfold lift. by destruct r. Qed.

Lemma bind_index {A B} (xs : list A) (i : nat) (f : A → M B) (s : State) :
  (index xs i ≫= f) s =
  match xs !! i with Some x => f x s | None => (inl IndexError, s) end.
Proof. unfold index. rewrite bind_lift. by destruct (xs !! i). Qed.

(** The two loops over [range(len(path) - 2)] visit the pairs of
    [Pure.chain], in order. *)
Lemma for_each_range_chain {B} (path : list nat) (acc : B)
    (f : B → nat → nat → M B) s :
  for_each (seq 0 (length path - 2)) acc
    (λ acc swap, a ← index path swap; b ← index path (swap + 1); f acc a b) s
  = for_each (Pure.chain path) acc (λ acc ab, f acc ab.1 ab.2) s.
Proof.
  revert acc s. induction path as [|a tl IH]; intros acc s; [done|].
  destruct tl as [|b [|c rest]]; [reflexivity..|].
  change (Pure.chain (a :: b :: c :: rest))
    with ((a, b) :: Pure.chain (b :: c :: rest)).
  cbn [length Nat.sub seq]. rewrite !for_each_cons.
  rewrite bind_index. cbn [lookup list_lookup Nat.add].
  rewrite bind_index. cbn [lookup list_lookup fst snd].
  destruct (f acc a b s) as [[e|acc'] s']; [done|].
  rewrite <- fmap_S_seq, for_each_fmap.
  specialize (IH acc' s'). cbn [length Nat.sub] in IH.
  rewrite Nat.sub_0_r in IH. rewrite <- IH.
  apply for_each_ext. intros; reflexivity.
Qed.

Lemma chain_length path : length (Pure.chain path) = length path - 2.
Proof.
  induction path as [|a [|b [|c rest]] IH]; [done..|].
  change (Pure.chain (a :: b :: c :: rest))
    with ((a, b) :: Pure.chain (b :: c :: rest)).
  cbn [length] in *. lia.
Qed.

Lemma chain_lookup path i :
  Pure.chain path !! i =
  if decide (i < length path - 2)
  then a ← path !! i; b ← path !! S i; Some (a, b)
  else None.
Proof.
  revert i. induction path as [|a [|b [|c rest]] IH]; intros i;
    [by (case_decide; [cbn in *; lia|])..|].
  change (Pure.chain (a :: b :: c :: rest))
    with ((a, b) :: Pure.chain (b :: c :: rest)).
  destruct i as [|i]; [by (case_decide; [|cbn in *; lia])|]. cbn [lookup list_lookup]. rewrite IH.
  cbn [length]. repeat case_decide; try lia; done.
Qed.

Tactic Notation "pure_step" :=
  cbn [from_option mbind result_bind fmap result_fmap].
Tactic Notation "pure_step" "in" hyp(H) :=
  cbn [from_option mbind result_bind fmap result_fmap] in H.

(** ** The run against its functional reading *)

Section refinement.
Variables (l0 lc : loc) (init : Layout.t).

Lemma related_with_current cur cur' s :
  related l0 lc init cur s → related l0 lc init cur' (with_current lc cur' s).
Proof.
  intros (? & ? & Hc & ?). unfold related, with_current. cbn.
  split_and!; [done| |  |done].
  - by rewrite list_lookup_insert_ne.
  - apply list_lookup_insert_eq. by eapply lookup_lt_Some.
Qed.

Lemma with_current_id cur s : related l0 lc init cur s → with_current lc cur s = s.
Proof.
  intros (? & ? & Hc & ?). destruct s as [sf hp]. unfold with_current.
  cbn in *. f_equal. by apply list_insert_id.
Qed.

Lemma with_current_twice c1 c2 s :
  with_current lc c2 (with_current lc c1 s) = with_current lc c2 s.
Proof. unfold with_current. cbn. f_equal. apply list_insert_insert_eq. Qed.

Lemma bind_load {B} l L (f : Layout.t → M B) s :
  heap s !! l = Some L → (load l ≫= f) s = f L s.
Proof. intros H. rewrite bind_eq. unfold load. by rewrite H. Qed.

Lemma bind_get_virtual {B} cur v (f : nat → M B) s :
  related l0 lc init cur s →
  (layout_get_virtual lc v ≫= f) s =
  match Layout.get_virtual cur v with
  | inr p => f p s
  | inl e => (inl e, s)
  end.
Proof.
  intros (? & ? & Hc & ?). unfold layout_get_virtual.
  rewrite bind_eq, (bind_load _ cur) by done. unfold lift.
  by destruct (Layout.get_virtual cur v).
Qed.

Lemma bind_get_physical {B} cur p (f : qubit → M B) s :
  related l0 lc init cur s →
  (layout_get_physical lc p ≫= f) s =
  match Layout.get_physical cur p with
  | inr v => f v s
  | inl e => (inl e, s)
  end.
Proof.
  intros (? & ? & Hc & ?). unfold layout_get_physical.
  rewrite bind_eq, (bind_load _ cur) by done. unfold lift.
  by destruct (Layout.get_physical cur p).
Qed.

Lemma bind_combine {B} (cur : Layout.t) (f : gmap qubit qubit → M B) s :
  related l0 lc init cur s →
  (initial ← self_initial_layout;
   edge_map ← layout_combine_into_edge_map lc initial; f edge_map) s =
  match Layout.combine_into_edge_map cur init with
  | inr em => f em s
  | inl e => (inl e, s)
  end.
Proof.
  intros (Hi & ? & Hc & ?). unfold self_initial_layout.
  rewrite bind_eq. unfold get_self at 1. rewrite bind_eq.
  unfold get_self, lift. rewrite Hi. cbn [from_option].
  unfold layout_combine_into_edge_map.
  rewrite bind_eq, (bind_load _ cur) by done.
  rewrite (bind_load _ init) by done. unfold lift.
  by destruct (Layout.combine_into_edge_map cur init).
Qed.

Lemma layout_swap_eq cur a b s :
  related l0 lc init cur s →
  layout_swap lc a b s =
  match Layout.swap cur a b with
  | inr cur' => (inr (), with_current lc cur' s)
  | inl e => (inl e, s)
  end.
Proof.
  intros (? & ? & Hc & ?). unfold layout_swap.
  rewrite (bind_load _ cur) by done. rewrite bind_lift.
  by destruct (Layout.swap cur a b).
Qed.

Lemma swap_layer_of_nodes sg cur ps acc :
  DAGCircuit.nodes <$> swap_layer_of sg cur ps acc =
  (λ ns, DAGCircuit.nodes acc ++ ns) <$> Pure.swap_nodes sg cur ps.
Proof.
  revert acc. induction ps as [|[a b] ps IH]; intros acc.
  { cbn. by rewrite app_nil_r. }
  cbn [swap_layer_of Pure.swap_nodes fst snd].
  destruct (Layout.get_physical cur a) as [e|x]; [done|].
  destruct (Layout.get_physical cur b) as [e|y]; [done|].
  cbn [mbind result_bind].
  destruct sg as [swap_gate|]; [|done].
  cbn [from_option mbind result_bind]. rewrite IH.
  destruct (Pure.swap_nodes (Some swap_gate) cur ps) as [e|ns]; [done|].
  cbn. f_equal. repeat case_decide; cbn; by rewrite <- app_assoc.
Qed.

Lemma bind_self_swap_gate {B} (f : GateClass → M B) s :
  (self_swap_gate ≫= f) s =
  match StochasticMapper.swap_gate (self s) with
  | Some swap_gate => f swap_gate s
  | None => (inl AttributeError, s)
  end.
Proof.
  unfold self_swap_gate, mbind, M_bind, get_self, lift.
  by destruct (StochasticMapper.swap_gate (self s)).
Qed.

Lemma build_swap_layer_eq sg cur path s :
  related l0 lc init cur s → StochasticMapper.swap_gate (self s) = sg →
  build_swap_layer lc path s =
  (swap_layer_of sg cur (Pure.chain path) DAGCircuit.empty, s).
Proof.
  intros Hrel Hsg. unfold build_swap_layer.
  rewrite (for_each_range_chain path DAGCircuit.empty
    (λ swap_layer connected_wire_1 connected_wire_2,
      qubit_1 ← layout_get_physical lc connected_wire_1;
      qubit_2 ← layout_get_physical lc connected_wire_2;
      let swap_layer :=
        if decide (qubit_1.1 ∈ DAGCircuit.qregs swap_layer) then swap_layer
        else DAGCircuit.add_qreg swap_layer qubit_1.1 in
      let swap_layer :=
        if decide (qubit_2.1 ∈ DAGCircuit.qregs swap_layer) then swap_layer
        else DAGCircuit.add_qreg swap_layer qubit_2.1 in
      swap_gate ← self_swap_gate;
      mret (DAGCircuit.apply_operation_back swap_layer
              (call swap_gate qubit_1 qubit_2)))).
  generalize DAGCircuit.empty.
  induction (Pure.chain path) as [|[a b] ps IH]; intros acc; [done|].
  rewrite for_each_cons. cbn [fst snd swap_layer_of].
  rewrite (bind_get_physical cur) by done.
  destruct (Layout.get_physical cur a) as [e|x]; [done|].
  rewrite (bind_get_physical cur) by done.
  destruct (Layout.get_physical cur b) as [e|y]; [done|].
  cbn [mbind result_bind]. cbv zeta.
  rewrite bind_self_swap_gate, Hsg.
  destruct sg as [swap_gate|]; [|done].
  cbn [from_option mbind result_bind]. unfold mret at 1, M_ret at 1.
  apply IH.
Qed.

Lemma update_current_layout_refines cur path s :
  related l0 lc init cur s →
  refines lc (update_current_layout lc path s) s
    ((λ cur', ((), cur')) <$> Pure.apply_chain cur (Pure.chain path)).
Proof.
  intros Hrel. unfold refines, update_current_layout.
  rewrite (for_each_range_chain path ()
    (λ _ left right, layout_swap lc left right)).
  revert cur s Hrel.
  induction (Pure.chain path) as [|[a b] ps IH]; intros cur s Hrel.
  { exists cur. by rewrite with_current_id. }
  rewrite for_each_cons. cbn [fst snd Pure.apply_chain].
  rewrite (layout_swap_eq cur) by done.
  destruct (Layout.swap cur a b) as [e|cur1].
  { exists cur. by rewrite with_current_id. }
  cbn [mbind result_bind].
  destruct (IH cur1 (with_current lc cur1 s)) as (cur'' & Hs & Hr).
  { by eapply related_with_current. }
  exists cur''. split; [|done].
  by rewrite Hs, with_current_twice.
Qed.

Lemma refines_fail {A} cur s e (p : result (A * Layout.t)) :
  related l0 lc init cur s → p = inl e → refines lc (inl e, s) s p.
Proof.
  intros Hrel ->. exists cur. by rewrite with_current_id.
Qed.

Lemma route_cx_refines sg cm cur nd a_cx s :
  related l0 lc init cur s →
  StochasticMapper.swap_gate (self s) = sg →
  StochasticMapper.coupling_map (self s) = cm →
  refines lc (route_cx lc nd a_cx s) s
    ((λ st', (DAGCircuit.mk (DAGCircuit.qregs nd) st'.2, st'.1))
       <$> Pure.route_cx sg cm init (cur, DAGCircuit.nodes nd) a_cx).
Proof.
  intros Hrel Hsg Hcm. unfold route_cx, Pure.route_cx. cbn [fst snd].
  rewrite bind_index.
  destruct (qargs a_cx !! 0) as [qarg_0|]; pure_step;
    [|by eapply refines_fail].
  rewrite (bind_get_virtual cur) by done.
  destruct (Layout.get_virtual cur qarg_0) as [e|physical_q0]; pure_step;
    [by eapply refines_fail|].
  rewrite bind_index.
  destruct (qargs a_cx !! 1) as [qarg_1|]; pure_step;
    [|by eapply refines_fail].
  rewrite (bind_get_virtual cur) by done.
  destruct (Layout.get_virtual cur qarg_1) as [e|physical_q1]; pure_step;
    [by eapply refines_fail|].
  rewrite bind_eq. unfold get_self at 1. rewrite Hcm, bind_lift.
  destruct (Coupling.distance cm physical_q0 physical_q1) as [e|d];
    pure_step; [by eapply refines_fail|].
  case_decide as Hd.
  2:{ exists cur. rewrite with_current_id by done.
      split; [done|]. cbn. by destruct nd. }
  rewrite bind_lift.
  destruct (Coupling.shortest_undirected_path cm physical_q0 physical_q1)
    as [e|path]; pure_step; [by eapply refines_fail|].
  rewrite bind_eq, (build_swap_layer_eq sg cur) by done.
  pose proof (swap_layer_of_nodes sg cur (Pure.chain path) DAGCircuit.empty)
    as Hnodes.
  destruct (swap_layer_of sg cur (Pure.chain path) DAGCircuit.empty)
    as [e|swap_layer];
    destruct (Pure.swap_nodes _ cur (Pure.chain path)) as [e'|swaps];
    try discriminate Hnodes; pure_step.
  { injection Hnodes as ->. by eapply refines_fail. }
  injection Hnodes as Hnodes.
  cbn [app DAGCircuit.nodes DAGCircuit.empty] in Hnodes.
  rewrite (bind_combine cur) by done.
  destruct (Layout.combine_into_edge_map cur init) as [e|edge_map];
    pure_step; [by eapply refines_fail|].
  rewrite bind_eq.
  destruct (update_current_layout_refines cur path s Hrel)
    as (cur'' & Hs & Hr).
  destruct (update_current_layout lc path s) as [r s']. cbn [fst snd] in *.
  exists cur''.
  destruct (Pure.apply_chain cur (Pure.chain path)) as [e|cur'];
    pure_step; cbn in Hr.
  { by subst r. }
  destruct Hr as [-> ->]. split; [done|]. split; [|done].
  unfold mret, M_ret, DAGCircuit.compose_back. cbn. by rewrite Hnodes.
Qed.

Lemma route_cxs_refines sg cm cur nd cxs s :
  related l0 lc init cur s →
  StochasticMapper.swap_gate (self s) = sg →
  StochasticMapper.coupling_map (self s) = cm →
  refines lc (for_each cxs nd (route_cx lc) s) s
    ((λ st', (DAGCircuit.mk (DAGCircuit.qregs nd) st'.2, st'.1))
       <$> Pure.route_cxs sg cm init (cur, DAGCircuit.nodes nd) cxs).
Proof.
  revert cur nd s.
  induction cxs as [|a_cx cxs IH]; intros cur nd s Hrel Hsg Hcm.
  { exists cur. rewrite with_current_id by done. cbn. by destruct nd. }
  rewrite for_each_cons. cbn [Pure.route_cxs].
  destruct (route_cx_refines sg cm cur nd a_cx s Hrel Hsg Hcm)
    as (cur1 & Hs & Hr).
  destruct (route_cx lc nd a_cx s) as [r s1]. cbn [fst snd] in Hs, Hr.
  destruct (Pure.route_cx sg cm init (cur, DAGCircuit.nodes nd) a_cx)
    as [e|[cur' out']]; cbn in Hr.
  { subst r. by exists cur1. }
  destruct Hr as [-> ->]. cbn [mbind result_bind].
  destruct (IH cur' (DAGCircuit.mk (DAGCircuit.qregs nd) out') s1)
    as (cur2 & Hs2 & Hr2).
  { subst s1. by eapply related_with_current. }
  { by subst s1. }
  { by subst s1. }
  exists cur2. split; [|done].
  by rewrite Hs2, Hs, with_current_twice.
Qed.

Lemma route_layer_refines sg cm cur nd subdag s :
  related l0 lc init cur s →
  StochasticMapper.swap_gate (self s) = sg →
  StochasticMapper.coupling_map (self s) = cm →
  refines lc (route_layer lc nd subdag s) s
    ((λ st', (DAGCircuit.mk (DAGCircuit.qregs nd) st'.2, st'.1))
       <$> Pure.route_layer sg cm init (cur, DAGCircuit.nodes nd) subdag).
Proof.
  intros Hrel Hsg Hcm. unfold route_layer, Pure.route_layer. rewrite bind_eq.
  destruct (route_cxs_refines sg cm cur nd (DAGCircuit.get_cnot_nodes subdag)
              s Hrel Hsg Hcm) as (cur1 & Hs & Hr).
  destruct (for_each _ nd (route_cx lc) s) as [r s1].
  cbn [fst snd] in Hs, Hr.
  destruct (Pure.route_cxs sg cm init (cur, DAGCircuit.nodes nd) _)
    as [e|[cur' out']]; cbn in Hr.
  { subst r. by exists cur1. }
  destruct Hr as [-> ->]. cbn [mbind result_bind fst snd].
  assert (related l0 lc init cur' s1) as Hrel1.
  { subst s1. by eapply related_with_current. }
  rewrite (bind_combine cur') by done.
  exists cur'. split.
  { by destruct (Layout.combine_into_edge_map cur' init). }
  by destruct (Layout.combine_into_edge_map cur' init).
Qed.

Lemma route_layers_refines sg cm cur nd layers s :
  related l0 lc init cur s →
  StochasticMapper.swap_gate (self s) = sg →
  StochasticMapper.coupling_map (self s) = cm →
  refines lc (for_each layers nd (route_layer lc) s) s
    ((λ st', (DAGCircuit.mk (DAGCircuit.qregs nd) st'.2, st'.1))
       <$> Pure.route_layers sg cm init (cur, DAGCircuit.nodes nd) layers).
Proof.
  revert cur nd s. induction layers as [|layer layers IH];
    intros cur nd s Hrel Hsg Hcm.
  { exists cur. rewrite with_current_id by done. cbn. by destruct nd. }
  rewrite for_each_cons. cbn [Pure.route_layers].
  destruct (route_layer_refines sg cm cur nd layer s Hrel Hsg Hcm)
    as (cur1 & Hs & Hr).
  destruct (route_layer lc nd layer s) as [r s1]. cbn [fst snd] in Hs, Hr.
  destruct (Pure.route_layer sg cm init (cur, DAGCircuit.nodes nd) layer)
    as [e|[cur' out']]; cbn in Hr.
  { subst r. by exists cur1. }
  destruct Hr as [-> ->]. cbn [mbind result_bind].
  destruct (IH cur' (DAGCircuit.mk (DAGCircuit.qregs nd) out') s1)
    as (cur2 & Hs2 & Hr2).
  { subst s1. by eapply related_with_current. }
  { by subst s1. }
  { by subst s1. }
  exists cur2. split; [|done].
  by rewrite Hs2, Hs, with_current_twice.
Qed.

End refinement.

(** ** The one-to-one layout *)

Lemma assign_app l k vs ws :
  Pure.assign l k (vs ++ ws) =
  Pure.assign (Pure.assign l k vs) (k + length vs) ws.
Proof.
  revert l k. induction vs as [|v vs IH]; intros l k; cbn.
  - by rewrite Nat.add_0_r.
  - rewrite IH. f_equal. lia.
Qed.

Lemma assign_register_loop l qreg idxs k L s :
  heap s !! l = Some L →
  for_each idxs k (λ physical_qubit index,
    layout_setitem l (qreg, index) physical_qubit;;
    mret (physical_qubit + 1)) s
  = (inr (k + length idxs),
     mkState (self s)
       (<[l := Pure.assign L k ((λ i, (qreg, i)) <$> idxs)]> (heap s))).
Proof.
  revert k L s. induction idxs as [|i idxs IH]; intros k L s HL.
  { cbn. rewrite Nat.add_0_r, list_insert_id by done. by destruct s. }
  rewrite for_each_cons, bind_eq. unfold layout_setitem.
  rewrite (bind_load l L) by done. unfold store, mret, M_ret.
  rewrite (IH _ (Layout.setitem L (qreg, i) k)).
  2:{ cbn. apply list_lookup_insert_eq. by eapply lookup_lt_Some. }
  cbn. rewrite list_insert_insert_eq, !Nat.add_1_r, Nat.add_succ_r. done.
Qed.

Lemma assign_registers_loop l regs k L s :
  heap s !! l = Some L →
  for_each regs k (λ physical_qubit qreg,
    for_each (seq 0 (reg_size qreg)) physical_qubit
      (λ physical_qubit index,
        layout_setitem l (qreg, index) physical_qubit;;
        mret (physical_qubit + 1))) s
  = (inr (k + length (Pure.declared regs)),
     mkState (self s)
       (<[l := Pure.assign L k (Pure.declared regs)]> (heap s))).
Proof.
  revert k L s. induction regs as [|qreg regs IH]; intros k L s HL.
  { cbn. rewrite Nat.add_0_r, list_insert_id by done. by destruct s. }
  rewrite for_each_cons, (assign_register_loop l qreg _ k L) by done.
  unfold Pure.declared. cbn [mbind list_bind].
  fold (Pure.declared regs).
  rewrite (IH _ (Pure.assign L k ((λ i, (qreg, i)) <$> seq 0 (reg_size qreg)))).
  2:{ cbn. apply list_lookup_insert_eq. by eapply lookup_lt_Some. }
  cbn [self heap]. rewrite list_insert_insert_eq, assign_app.
  rewrite length_app, length_fmap, length_seq, Nat.add_assoc. done.
Qed.

Lemma create_one_to_one_layout_eq dag s :
  create_one_to_one_layout dag s =
  (inr (),
   mkState (StochasticMapper.set_initial_layout (self s)
              (Some (length (heap s))))
           (heap s ++ [Pure.one_to_one (DAGCircuit.qregs dag)])).
Proof.
  unfold create_one_to_one_layout. rewrite bind_eq. unfold alloc at 1.
  rewrite bind_eq. unfold set_self_initial_layout at 1. cbn [self heap].
  rewrite bind_eq, (assign_registers_loop _ _ _ Layout.empty).
  2:{ cbn. by rewrite lookup_app_r, Nat.sub_diag by lia. }
  cbn [self heap]. unfold mret, M_ret. do 2 f_equal.
  rewrite insert_app_r_alt, Nat.sub_diag by lia. done.
Qed.

(** The run, from any store: it fails at once when the pass object holds
    no layout object, and otherwise computes [Pure.route_layers] from the
    starting layout, leaving every layout object it was given as it
    was. *)
Lemma run_spec dag s :
  match starting_layout dag s with
  | Some init =>
      ∃ cur'', (run dag s).2 = final_state s init cur'' ∧
        match Pure.route_layers (StochasticMapper.swap_gate (self s))
                (StochasticMapper.coupling_map (self s))
                init (init, []) (DAGCircuit.serial_layers dag) with
        | inr (cur', out) =>
            (run dag s).1 = inr (DAGCircuit.mk [] out) ∧ cur'' = cur'
        | inl e => (run dag s).1 = inl e
        end
  | None => run dag s = (inl TypeError, s)
  end.
Proof.
  unfold starting_layout, final_state.
  remember (run dag s) as out eqn:Hout.
  unfold run in Hout. rewrite bind_eq in Hout. unfold get_self at 1 in Hout.
  destruct (StochasticMapper.initial_layout (self s)) as [l0|] eqn:Hil.
  - rewrite bind_eq in Hout. unfold mret at 1, M_ret at 1 in Hout.
    rewrite bind_eq in Hout. unfold self_initial_layout at 1 in Hout.
    rewrite bind_eq in Hout. unfold get_self at 1, lift at 1 in Hout.
    rewrite Hil in Hout. cbn [from_option] in Hout.
    rewrite bind_eq in Hout. unfold copy in Hout. rewrite bind_eq in Hout.
    unfold load at 1 in Hout.
    destruct (heap s !! l0) as [init|] eqn:Hl0; cbn [from_option] in Hout;
      [|done].
    unfold alloc at 1 in Hout.
    set (s1 := mkState (self s) (heap s ++ [init])) in Hout.
    assert (related l0 (length (heap s)) init init s1) as Hrel.
    { unfold related, s1. cbn. split_and!; [done| | |].
      - by apply lookup_app_l_Some.
      - by rewrite lookup_app_r, Nat.sub_diag by lia.
      - apply lookup_lt_Some in Hl0. lia. }
    destruct (route_layers_refines l0 (length (heap s)) init
                (StochasticMapper.swap_gate (self s))
                (StochasticMapper.coupling_map (self s)) init
                DAGCircuit.empty (DAGCircuit.serial_layers dag) s1 Hrel
                eq_refl eq_refl)
      as (cur'' & Hs & Hr).
    rewrite bind_eq in Hout.
    cbn [DAGCircuit.empty DAGCircuit.nodes DAGCircuit.qregs] in Hr.
    destruct (for_each _ DAGCircuit.empty _ s1) as [r s2].
    cbn [fst snd] in Hs, Hr.
    exists cur''. split.
    + subst out s2. unfold with_current, s1. destruct r; cbn;
        by rewrite insert_app_r_alt, Nat.sub_diag by lia.
    + destruct (Pure.route_layers _ _ init (init, []) _) as [e|[cur' out']];
        cbn in Hr; [by subst r out|]. destruct Hr as [-> ->]. by subst out.
  - rewrite bind_eq, create_one_to_one_layout_eq in Hout.
    rewrite bind_eq in Hout. unfold self_initial_layout at 1 in Hout.
    rewrite bind_eq in Hout. unfold get_self at 1, lift at 1 in Hout.
    cbn [self StochasticMapper.initial_layout
      StochasticMapper.set_initial_layout from_option] in Hout.
    set (init := Pure.one_to_one (DAGCircuit.qregs dag)) in *.
    rewrite bind_eq in Hout. unfold copy in Hout. rewrite bind_eq in Hout.
    unfold load at 1 in Hout. cbn [heap] in Hout.
    rewrite lookup_app_r, Nat.sub_diag in Hout by lia.
    cbn [from_option lookup list_lookup] in Hout.
    unfold alloc at 1 in Hout. cbn [heap self] in Hout.
    set (s1 := mkState _ ((heap s ++ [init]) ++ [init])) in Hout.
    assert (related (length (heap s)) (length (heap s ++ [init])) init init s1)
      as Hrel.
    { unfold related, s1. cbn. rewrite length_app. cbn.
      split_and!; [done| | |lia].
      - rewrite lookup_app_l by (rewrite length_app; cbn; lia).
        by rewrite lookup_app_r, Nat.sub_diag by lia.
      - rewrite lookup_app_r by (rewrite length_app; cbn; lia).
        by rewrite length_app, Nat.sub_diag. }
    destruct (route_layers_refines _ _ init
                (StochasticMapper.swap_gate (self s))
                (StochasticMapper.coupling_map (self s)) init
                DAGCircuit.empty (DAGCircuit.serial_layers dag) s1 Hrel
                eq_refl eq_refl)
      as (cur'' & Hs & Hr).
    rewrite bind_eq in Hout.
    cbn [DAGCircuit.empty DAGCircuit.nodes DAGCircuit.qregs] in Hr.
    destruct (for_each _ DAGCircuit.empty _ s1) as [r s2].
    cbn [fst snd] in Hs, Hr.
    exists cur''. split.
    + subst out s2. unfold with_current, s1. destruct r; cbn;
        rewrite insert_app_r_alt, Nat.sub_diag by lia; cbn;
        by rewrite <- app_assoc.
    + destruct (Pure.route_layers _ _ init (init, []) _) as [e|[cur' out']];
        cbn in Hr; [by subst r out|]. destruct Hr as [-> ->]. by subst out.
Qed.

(** ** Layouts under exchange *)

Section layout_facts.
Import Layout.

Lemma consistent_inj_p l v p p' :
  consistent l → v2p l !! v = Some p → v2p l !! v = Some p' → p = p'.
Proof. congruence. Qed.

Lemma consistent_inj_v l v v' p :
  consistent l → v2p l !! v = Some p → v2p l !! v' = Some p → v = v'.
Proof. intros Hl H1%Hl H2%Hl. congruence. Qed.

Lemma swap_inr l a b l' :
  swap l a b = inr l' →
  ∃ x y, p2v l !! a = Some x ∧ p2v l !! b = Some y ∧
    p2v l' = <[b := x]> (<[a := y]> (p2v l)) ∧
    v2p l' = <[x := b]> (<[y := a]> (v2p l)).
Proof.
  unfold swap. destruct (p2v l !! a) as [x|], (p2v l !! b) as [y|];
    intros [= <-]. by exists x, y.
Qed.

Lemma swap_consistent l a b l' :
  consistent l → swap l a b = inr l' → consistent l'.
Proof.
  intros Hl (x & y & Ha & Hb & Hp & Hv)%swap_inr v p.
  rewrite Hp, Hv, !lookup_insert.
  pose proof (proj2 (Hl x a) Ha) as Hxa.
  pose proof (proj2 (Hl y b) Hb) as Hyb.
  pose proof (Hl v p) as Hvp. clear Hl.
  repeat case_decide; simplify_eq; intuition congruence.
Qed.

Lemma swap_is_Some_p l a b l' p :
  swap l a b = inr l' → is_Some (p2v l' !! p) ↔ is_Some (p2v l !! p).
Proof.
  intros (x & y & Ha & Hb & Hp & Hv)%swap_inr.
  rewrite Hp, !lookup_insert. repeat case_decide; simplify_eq; naive_solver.
Qed.

Lemma swap_is_Some_v l a b l' v :
  consistent l →
  swap l a b = inr l' → is_Some (v2p l' !! v) ↔ is_Some (v2p l !! v).
Proof.
  intros Hl (x & y & Ha & Hb & Hp & Hv)%swap_inr.
  apply Hl in Ha, Hb.
  rewrite Hv, !lookup_insert. repeat case_decide; simplify_eq; naive_solver.
Qed.

Lemma inv_refl init : consistent init → inv init init.
Proof. by split. Qed.

Lemma swap_inv init cur a b cur' :
  inv init cur → swap cur a b = inr cur' → inv init cur'.
Proof.
  intros [] Hs. split; [done|by eapply swap_consistent|..].
  - intros p. by rewrite (swap_is_Some_p _ _ _ _ _ Hs).
  - intros v. by rewrite (swap_is_Some_v _ _ _ _ _ inv_cur0 Hs).
Qed.

Lemma apply_chain_inv init cur ps cur' :
  inv init cur → Pure.apply_chain cur ps = inr cur' → inv init cur'.
Proof.
  revert cur. induction ps as [|[a b] ps IH]; intros cur Hinv; cbn.
  { by intros [= <-]. }
  destruct (swap cur a b) as [e|cur1] eqn:Hs; [done|]. pure_step.
  apply IH. by eapply swap_inv.
Qed.

End layout_facts.

(** ** The swap chain of a path *)

(** After the chain of a path without repetition, every resource of the
    path but the last two holds what its successor held, the last but
    one holds what the first held, and every resource outside the chain
    holds what it held. *)
Lemma apply_chain_p2v path cur cur' :
  NoDup path → 2 ≤ length path →
  Pure.apply_chain cur (Pure.chain path) = inr cur' →
  (∀ i a b, i < length path - 2 → path !! i = Some a → path !! S i = Some b →
     Layout.p2v cur' !! a = Layout.p2v cur !! b) ∧
  (∀ a z, path !! 0 = Some a → path !! (length path - 2) = Some z →
     Layout.p2v cur' !! z = Layout.p2v cur !! a) ∧
  (∀ p, p ∉ take (length path - 1) path →
     Layout.p2v cur' !! p = Layout.p2v cur !! p).
Proof.
  revert cur. induction path as [|a tl IH]; intros cur Hnd Hlen Hch;
    [cbn in Hlen; lia|].
  destruct tl as [|b [|c rest]]; [cbn in Hlen; lia|..].
  { injection Hch as <-. split_and!.
    - intros i ? ? Hi. cbn in Hi. lia.
    - intros ? ? [= <-] [= <-]. done.
    - done. }
  change (Pure.chain (a :: b :: c :: rest))
    with ((a, b) :: Pure.chain (b :: c :: rest)) in Hch.
  cbn [Pure.apply_chain] in Hch.
  destruct (Layout.swap cur a b) as [e|cur1] eqn:Hs; [done|].
  pure_step in Hch.
  apply swap_inr in Hs as (x & y & Ha & Hb & Hp & _).
  apply NoDup_cons in Hnd as [Ha_tl Hnd].
  destruct (IH cur1 Hnd ltac:(cbn; lia) Hch) as (IH1 & IH2 & IH3).
  assert (a ≠ b) as Hab by (intros ->; apply Ha_tl; left).
  assert (∀ p, p ≠ a → p ≠ b → Layout.p2v cur1 !! p = Layout.p2v cur !! p)
    as Hother.
  { intros p ? ?. by rewrite Hp, !lookup_insert_ne. }
  assert (b ∈ take (length (b :: c :: rest) - 1) (b :: c :: rest)) as Hb_in
    by (cbn; left).
  split_and!.
  - intros [|i] a' b' Hi Ha' Hb'.
    + injection Ha' as <-. injection Hb' as <-.
      rewrite IH3; [by rewrite Hp, lookup_insert_ne, lookup_insert_eq|].
      intros Hin%elem_of_take. destruct Hin as (j & Hj & _).
      apply Ha_tl. by eapply list_elem_of_lookup_2.
    + assert ((b :: c :: rest) !! i = Some a') as Ha2 by exact Ha'.
      assert ((b :: c :: rest) !! S i = Some b') as Hb2 by exact Hb'.
      rewrite (IH1 i a' b') by (done || cbn in *; lia).
      apply Hother.
      * intros ->. apply Ha_tl. by eapply list_elem_of_lookup_2.
      * intros ->.
        by pose proof (NoDup_lookup _ (S i) 0 b Hnd Hb2 eq_refl).
  - intros a' z [= <-] Hz.
    replace (length (a :: b :: c :: rest) - 2)
      with (S (length (b :: c :: rest) - 2)) in Hz by (cbn; lia).
    cbn [lookup list_lookup] in Hz.
    rewrite (IH2 b z) by done.
    by rewrite Hp, lookup_insert_eq.
  - intros p Hp_out.
    replace (length (a :: b :: c :: rest) - 1)
      with (S (length (b :: c :: rest) - 1)) in Hp_out by (cbn; lia).
    rewrite firstn_cons in Hp_out. apply not_elem_of_cons in Hp_out as [? ?].
    rewrite IH3 by done. apply Hother; [done|].
    intros ->. done.
Qed.

(** ** The rename map between the current and the initial layout *)

Section edge_map.
Import Layout.
Context (init cur : Layout.t) (Hinv : inv init cur).

Lemma combine_inr :
  ∃ em, combine_into_edge_map cur init = inr em ∧
    ∀ v, DAGCircuit.rename_wire em v = output_wire cur init v.
Proof using Hinv.
  unfold combine_into_edge_map. case_decide as Hall.
  - eexists. split; [done|]. intros v.
    unfold DAGCircuit.rename_wire, output_wire. by rewrite lookup_omap.
  - destruct Hall. intros v p Hv. apply (inv_p _ _ Hinv).
    apply (inv_cur _ _ Hinv) in Hv. by eexists.
Qed.

Lemma output_wire_Some v p :
  v2p cur !! v = Some p →
  p2v init !! p = Some (output_wire cur init v) ∧
  v2p init !! output_wire cur init v = Some p.
Proof using Hinv.
  intros Hv. unfold output_wire. rewrite Hv. cbn.
  assert (is_Some (p2v init !! p)) as [w Hw].
  { apply (inv_p _ _ Hinv). apply (inv_cur _ _ Hinv) in Hv. by eexists. }
  rewrite Hw. cbn. split; [done|]. by apply (inv_init _ _ Hinv).
Qed.

Lemma output_wire_None v :
  v2p cur !! v = None → output_wire cur init v = v.
Proof. intros Hv. unfold output_wire. by rewrite Hv. Qed.

Lemma output_wire_p2v p v :
  p2v cur !! p = Some v → p2v init !! p = Some (output_wire cur init v).
Proof using Hinv.
  intros Hp. apply (inv_cur _ _ Hinv) in Hp. by apply output_wire_Some.
Qed.

End edge_map.

Lemma swap_nodes_renamed sg init cur ps swaps em :
  inv init cur →
  Pure.swap_nodes sg cur ps = inr swaps →
  (∀ v, DAGCircuit.rename_wire em v = output_wire cur init v) →
  Forall2 (swap_on init) ps (DAGCircuit.rename em <$> swaps).
Proof.
  intros Hinv Hsw Hem. revert swaps Hsw.
  induction ps as [|[a b] ps IH]; intros swaps Hsw; cbn in Hsw.
  { injection Hsw as <-. constructor. }
  unfold Layout.get_physical in Hsw.
  destruct (Layout.p2v cur !! a) as [x|] eqn:Hx; [|done].
  destruct (Layout.p2v cur !! b) as [y|] eqn:Hy; [|done].
  pure_step in Hsw. destruct sg as [[]|]; [|done]. pure_step in Hsw.
  cbn [call] in Hsw.
  destruct (Pure.swap_nodes _ cur ps) as [e|rest]; [done|].
  injection Hsw as <-. cbn [fmap list_fmap]. constructor; [|by apply IH].
  exists (output_wire cur init x), (output_wire cur init y). cbn.
  split_and!; [by eapply output_wire_p2v..|].
  unfold DAGCircuit.rename, swap_node. cbn. by rewrite !Hem.
Qed.

Lemma chain_adjacent cm p q path a b :
  Coupling.contract cm →
  Coupling.shortest_undirected_path cm p q = inr path →
  (a, b) ∈ Pure.chain path →
  Coupling.distance cm a b = inr 1.
Proof.
  intros Hcm Hpath (i & Hi)%list_elem_of_lookup_1.
  rewrite chain_lookup in Hi. case_decide; [|done].
  destruct (path !! i) as [a'|] eqn:Ha; [|done].
  destruct (path !! S i) as [b'|] eqn:Hb; [|done].
  injection Hi as -> ->. by eapply Coupling.path_adjacent.
Qed.

Lemma last_lookup_pred {A} (l : list A) x :
  last l = Some x → l !! (length l - 1) = Some x.
Proof. rewrite last_lookup. by rewrite Nat.sub_1_r. Qed.

(** After the chain of a path from the resource of [a] to the resource
    of [b], [a] sits on the last but one resource of the path and [b]
    still sits on the last. *)
Lemma apply_chain_endpoints init cur cur' path a b pa pb :
  inv init cur →
  NoDup path → head path = Some pa → last path = Some pb →
  Layout.v2p cur !! a = Some pa → Layout.v2p cur !! b = Some pb →
  a ≠ b →
  Pure.apply_chain cur (Pure.chain path) = inr cur' →
  ∃ z, path !! (length path - 2) = Some z ∧
       path !! S (length path - 2) = Some pb ∧
       Layout.v2p cur' !! a = Some z ∧ Layout.v2p cur' !! b = Some pb.
Proof.
  intros Hinv Hnd Hhd Hlast Ha Hb Hab Hch.
  assert (inv init cur') as Hinv' by by eapply apply_chain_inv.
  apply last_lookup_pred in Hlast. rewrite head_lookup in Hhd.
  assert (2 ≤ length path) as Hlen.
  { destruct path as [|x [|y rest]]; cbn in *; [done| |lia].
    simplify_eq. destruct Hab.
    eapply consistent_inj_v; [by eapply inv_cur|done..]. }
  destruct (apply_chain_p2v path cur cur' Hnd Hlen Hch) as (_ & H2 & H3).
  assert (is_Some (path !! (length path - 2))) as [z Hz]
    by (apply lookup_lt_is_Some; lia).
  exists z. replace (S (length path - 2)) with (length path - 1) by lia.
  split_and!; [done..| |].
  - apply (inv_cur _ _ Hinv'). rewrite (H2 pa z) by done.
    by apply (inv_cur _ _ Hinv).
  - apply (inv_cur _ _ Hinv'). rewrite H3.
    { by apply (inv_cur _ _ Hinv). }
    intros (j & Hj & Hlt)%elem_of_take.
    pose proof (NoDup_lookup _ _ _ _ Hnd Hj Hlast). lia.
Qed.

(** ** One operation, one layer *)

(** What a successful [route_cx] did. *)
Lemma route_cx_inr sg cm init cur out a_cx cur' out' :
  inv init cur →
  Pure.route_cx sg cm init (cur, out) a_cx = inr (cur', out') →
  ∃ a b pa pb d,
    qargs a_cx !! 0 = Some a ∧ qargs a_cx !! 1 = Some b ∧
    Layout.v2p cur !! a = Some pa ∧ Layout.v2p cur !! b = Some pb ∧
    Coupling.distance cm pa pb = inr d ∧
    ((d = 1 ∧ cur' = cur ∧ out' = out) ∨
     (d ≠ 1 ∧ ∃ path swaps,
        Coupling.shortest_undirected_path cm pa pb = inr path ∧
        Pure.apply_chain cur (Pure.chain path) = inr cur' ∧
        out' = out ++ swaps ∧
        Forall2 (swap_on init) (Pure.chain path) swaps)).
Proof.
  intros Hinv. unfold Pure.route_cx, Layout.get_virtual. cbn [fst snd].
  destruct (qargs a_cx !! 0) as [a|] eqn:Ha; [|done]. pure_step.
  destruct (Layout.v2p cur !! a) as [pa|] eqn:Hpa; [|done]. pure_step.
  destruct (qargs a_cx !! 1) as [b|] eqn:Hb; [|done]. pure_step.
  destruct (Layout.v2p cur !! b) as [pb|] eqn:Hpb; [|done]. pure_step.
  destruct (Coupling.distance cm pa pb) as [e|d] eqn:Hdist; [done|]. pure_step.
  intros Hr. exists a, b, pa, pb, d. split_and!; [done..|].
  case_decide as Hd.
  2:{ left. injection Hr as <- <-. split; [|done].
      destruct (decide (d = 1)); [done|by destruct Hd]. }
  right. split; [done|].
  destruct (Coupling.shortest_undirected_path cm pa pb) as [e|path]; [done|].
  pure_step in Hr.
  destruct (Pure.swap_nodes _ cur (Pure.chain path)) as [e|swaps] eqn:Hsw;
    [done|].
  pure_step in Hr.
  destruct (combine_inr init cur Hinv) as (em & Hem & Hwire).
  rewrite Hem in Hr. pure_step in Hr.
  destruct (Pure.apply_chain cur (Pure.chain path)) as [e|cur1] eqn:Hch;
    [done|].
  pure_step in Hr. injection Hr as <- <-.
  exists path, (DAGCircuit.rename em <$> swaps). split_and!; [done..|].
  by eapply swap_nodes_renamed.
Qed.

Lemma route_cx_inv sg cm init cur out a_cx cur' out' :
  inv init cur →
  Pure.route_cx sg cm init (cur, out) a_cx = inr (cur', out') →
  inv init cur'.
Proof.
  intros Hinv Hr.
  destruct (route_cx_inr _ _ _ _ _ _ _ _ Hinv Hr)
    as (a & b & pa & pb & d & _ & _ & _ & _ & _ & [(_ & -> & _)|(_ & Hsw)]);
    [done|].
  destruct Hsw as (path & swaps & _ & Hch & _). by eapply apply_chain_inv.
Qed.

(** A serial layer holds one operation; it is routed when it has two
    qubit arguments, and appended under the rename map of the layout
    the routing leaves. *)
Lemma route_serial_layer_inr sg cm init cur out regs n cur' out' :
  inv init cur →
  Pure.route_layer sg cm init (cur, out) (DAGCircuit.mk regs [n])
    = inr (cur', out') →
  ∃ mid,
    (if decide (length (qargs n) = 2)
     then Pure.route_cx sg cm init (cur, out) n = inr (cur', mid)
     else cur' = cur ∧ mid = out) ∧
    inv init cur' ∧
    out' = mid ++ [mkNode (name n) (output_wire cur' init <$> qargs n)
                     (cargs n)].
Proof.
  intros Hinv. unfold Pure.route_layer, DAGCircuit.get_cnot_nodes.
  cbn [DAGCircuit.nodes]. rewrite filter_cons, filter_nil.
  assert (∀ st', inv init st'.1 →
    (edge_map ← Layout.combine_into_edge_map st'.1 init;
     inr (st'.1, st'.2 ++ (DAGCircuit.rename edge_map <$> [n])))
    = inr (cur', out') →
    st'.1 = cur' ∧
    out' = st'.2 ++ [mkNode (name n) (output_wire cur' init <$> qargs n)
                       (cargs n)]) as Hlast.
  { intros [c o] Hc. cbn [fst snd].
    destruct (combine_inr init c Hc) as (em & -> & Hwire). pure_step.
    intros [= <- <-]. split; [done|]. do 2 f_equal.
    unfold DAGCircuit.rename. f_equal. apply list_fmap_ext.
    intros ? ? _. apply Hwire. }
  case_decide as Hlen.
  - cbn [Pure.route_cxs].
    destruct (Pure.route_cx sg cm init (cur, out) n) as [e|[c o]] eqn:Hcx; [done|].
    pure_step. intros Hr.
    assert (inv init c) as Hc by by eapply route_cx_inv.
    apply (Hlast (c, o) Hc) in Hr as [<- ->]. by exists o.
  - cbn [Pure.route_cxs]. pure_step. intros Hr.
    apply (Hlast (cur, out) Hinv) in Hr as [<- ->]. by exists out.
Qed.

(** The serial layers of a graph are routed one operation at a time. *)
Lemma route_layers_serial_cons sg cm init st regs n ns :
  Pure.route_layers sg cm init st
    (DAGCircuit.serial_layers (DAGCircuit.mk regs (n :: ns)))
  = st' ← Pure.route_layer sg cm init st (DAGCircuit.mk regs [n]);
    Pure.route_layers sg cm init st'
      (DAGCircuit.serial_layers (DAGCircuit.mk regs ns)).
Proof. reflexivity. Qed.

(** ** Adjacency of the routed operations *)

Lemma renamed_adjacent cm init cur n a b pa pb :
  inv init cur → qargs n = [a; b] →
  Layout.v2p cur !! a = Some pa → Layout.v2p cur !! b = Some pb →
  Coupling.distance cm pa pb = inr 1 →
  adjacent_under cm init
    (mkNode (name n) (output_wire cur init <$> qargs n) (cargs n)).
Proof.
  intros Hinv Hq Ha Hb Hd a' b'. rewrite Hq. cbn. intros [= <- <-].
  exists pa, pb. split_and!; [by eapply output_wire_Some..|done].
Qed.

Lemma swaps_adjacent cm init p q path swaps :
  Coupling.contract cm → Layout.consistent init →
  Coupling.shortest_undirected_path cm p q = inr path →
  Forall2 (swap_on init) (Pure.chain path) swaps →
  Forall (adjacent_under cm init) swaps.
Proof.
  intros Hcm Hinit Hpath Hsw.
  assert (∀ ab, ab ∈ Pure.chain path →
            Coupling.distance cm ab.1 ab.2 = inr 1) as Hadj.
  { intros [a b] ?. by eapply chain_adjacent. }
  induction Hsw as [|[a b] n ps ns (wa & wb & Ha & Hb & ->) _ IH];
    constructor.
  - intros a' b' [= <- <-]. exists a, b. cbn in Ha, Hb.
    split_and!; [by apply Hinit..|]. apply (Hadj (a, b)). left.
  - apply IH. intros ab ?. apply Hadj. by right.
Qed.

Lemma two_qargs n a b :
  length (qargs n) = 2 → qargs n !! 0 = Some a → qargs n !! 1 = Some b →
  qargs n = [a; b].
Proof.
  destruct (qargs n) as [|? [|? [|]]]; cbn; try done. by intros _ [= ->] [= ->].
Qed.

Lemma route_layers_adjacent sg cm init regs ns cur out cur' out' :
  Coupling.contract cm → inv init cur →
  (∀ n, n ∈ ns → NoDup (qargs n)) →
  Forall (adjacent_under cm init) out →
  Pure.route_layers sg cm init (cur, out)
    (DAGCircuit.serial_layers (DAGCircuit.mk regs ns)) = inr (cur', out') →
  Forall (adjacent_under cm init) out'.
Proof.
  intros Hcm. revert cur out.
  induction ns as [|n ns IH]; intros cur out Hinv Hwf Hout.
  { by intros [= <- <-]. }
  rewrite route_layers_serial_cons.
  destruct (Pure.route_layer sg cm init (cur, out) (DAGCircuit.mk regs [n]))
    as [e|[cur1 out1]] eqn:Hl; [done|].
  pure_step.
  apply route_serial_layer_inr in Hl as (mid & Hmid & Hinv1 & ->); [|done].
  apply IH; [done|by intros; apply Hwf; right|].
  assert (NoDup (qargs n)) as Hnd by (apply Hwf; left).
  apply Forall_app. case_decide as Hlen.
  - destruct (route_cx_inr _ _ _ _ _ _ _ _ Hinv Hmid)
      as (a & b & pa & pb & d & Ha & Hb & Hpa & Hpb & Hd & Hcase).
    pose proof (two_qargs n a b Hlen Ha Hb) as Hq.
    assert (a ≠ b) as Hab.
    { rewrite Hq in Hnd. apply NoDup_cons in Hnd as [Hnd _].
      intros ->. apply Hnd. left. }
    destruct Hcase as [(-> & -> & ->)|(_ & path & swaps & Hpath & Hch & -> & Hsw)].
    + split; [done|]. constructor; [|done]. by eapply renamed_adjacent.
    + split.
      * apply Forall_app. split; [done|].
        eapply swaps_adjacent; [done|by apply Hinv|done..].
      * constructor; [|done].
        destruct (apply_chain_endpoints init cur cur1 path a b pa pb)
          as (z & Hz & Hz' & Hza & Hzb); try done.
        { by eapply Coupling.path_NoDup. }
        { by eapply Coupling.path_head. }
        { by eapply Coupling.path_last. }
        eapply renamed_adjacent; [done..|].
        by eapply Coupling.path_adjacent.
  - destruct Hmid as [-> ->]. split; [done|]. constructor; [|done].
    intros a b Hq. cbn in Hq. apply (f_equal length) in Hq.
    rewrite length_fmap in Hq. done.
Qed.

Lemma route_layers_app sg cm init st l1 l2 :
  Pure.route_layers sg cm init st (l1 ++ l2)
  = st' ← Pure.route_layers sg cm init st l1; Pure.route_layers sg cm init st' l2.
Proof.
  revert st. induction l1 as [|l l1 IH]; intros st; [done|].
  cbn [app Pure.route_layers].
  destruct (Pure.route_layer sg cm init st l) as [e|st1]; [done|].
  pure_step. apply IH.
Qed.

Lemma route_layers_inv sg cm init regs ns cur out cur' out' :
  inv init cur →
  Pure.route_layers sg cm init (cur, out)
    (DAGCircuit.serial_layers (DAGCircuit.mk regs ns)) = inr (cur', out') →
  inv init cur'.
Proof.
  revert cur out. induction ns as [|n ns IH]; intros cur out Hinv.
  { by intros [= <- <-]. }
  rewrite route_layers_serial_cons.
  destruct (Pure.route_layer sg cm init (cur, out) (DAGCircuit.mk regs [n]))
    as [e|[cur1 out1]] eqn:Hl; [done|].
  pure_step.
  apply route_serial_layer_inr in Hl as (mid & _ & Hinv1 & _); [|done].
  by apply IH.
Qed.

(** When the layer of a two-qubit operation is appended, the current
    layout places its two qubits on directly connected resources. *)
Lemma route_serial_layer_places sg cm init cur out regs n a b cur' out' :
  Coupling.contract cm → inv init cur →
  qargs n = [a; b] → a ≠ b →
  Pure.route_layer sg cm init (cur, out) (DAGCircuit.mk regs [n])
    = inr (cur', out') →
  ∃ pa pb, Layout.v2p cur' !! a = Some pa ∧ Layout.v2p cur' !! b = Some pb ∧
           Coupling.distance cm pa pb = inr 1.
Proof.
  intros Hcm Hinv Hq Hab Hl.
  apply route_serial_layer_inr in Hl as (mid & Hmid & Hinv1 & ->); [|done].
  rewrite decide_True in Hmid by (by rewrite Hq).
  destruct (route_cx_inr _ _ _ _ _ _ _ _ Hinv Hmid)
    as (a' & b' & pa & pb & d & Ha & Hb & Hpa & Hpb & Hd & Hcase).
  rewrite Hq in Ha, Hb. cbn in Ha, Hb. simplify_eq.
  destruct Hcase as [(-> & -> & ->)|(_ & path & swaps & Hpath & Hch & -> & _)].
  { by exists pa, pb. }
  destruct (apply_chain_endpoints init cur cur' path a' b' pa pb)
    as (z & Hz & Hz' & Hza & Hzb); try done.
  { by eapply Coupling.path_NoDup. }
  { by eapply Coupling.path_head. }
  { by eapply Coupling.path_last. }
  exists z, pb. split_and!; [done..|]. by eapply Coupling.path_adjacent.
Qed.

Lemma serial_layers_app regs ns1 ns2 :
  DAGCircuit.serial_layers (DAGCircuit.mk regs (ns1 ++ ns2))
  = DAGCircuit.serial_layers (DAGCircuit.mk regs ns1)
    ++ DAGCircuit.serial_layers (DAGCircuit.mk regs ns2).
Proof. unfold DAGCircuit.serial_layers. cbn. apply fmap_app. Qed.

(** The accumulated layout of a successful routing, at every two-qubit
    operation of the program. *)
Lemma layout_after_places sg cm init dag cur' out' k n a b :
  Coupling.contract cm → Layout.consistent init →
  Pure.route_layers sg cm init (init, []) (DAGCircuit.serial_layers dag)
    = inr (cur', out') →
  DAGCircuit.nodes dag !! k = Some n → qargs n = [a; b] → a ≠ b →
  ∃ cur pa pb, Pure.layout_after sg cm init dag k = inr cur ∧
    Layout.v2p cur !! a = Some pa ∧ Layout.v2p cur !! b = Some pb ∧
    Coupling.distance cm pa pb = inr 1.
Proof.
  intros Hcm Hinit Hr Hk Hq Hab. destruct dag as [regs nodes]. cbn in Hk.
  unfold Pure.layout_after. cbn [DAGCircuit.qregs DAGCircuit.nodes].
  rewrite <- (take_drop (S k) nodes) in Hr.
  rewrite serial_layers_app, route_layers_app in Hr.
  rewrite (take_S_r _ _ _ Hk) in Hr |- *.
  rewrite serial_layers_app, route_layers_app in Hr |- *.
  destruct (Pure.route_layers sg cm init (init, [])
              (DAGCircuit.serial_layers (DAGCircuit.mk regs (take k nodes))))
    as [e|[cur0 out0]] eqn:H0; [done|].
  pure_step in Hr. pure_step.
  assert (inv init cur0) as Hinv0.
  { eapply route_layers_inv; [|done]. by apply inv_refl. }
  change (DAGCircuit.serial_layers (DAGCircuit.mk regs [n]))
    with [DAGCircuit.mk regs [n]] in *.
  cbn [Pure.route_layers] in Hr |- *.
  destruct (Pure.route_layer sg cm init (cur0, out0) (DAGCircuit.mk regs [n]))
    as [e|[cur1 out1]] eqn:H1; [done|].
  pure_step.
  destruct (route_serial_layer_places _ _ _ _ _ _ _ _ _ _ _ Hcm Hinv0 Hq Hab H1)
    as (pa & pb & ? & ? & ?).
  by exists cur1, pa, pb.
Qed.

(** ** The one-to-one layout is a bijection *)

Lemma assign_v2p l k vs v p :
  NoDup vs →
  Layout.v2p (Pure.assign l k vs) !! v = Some p ↔
  (∃ i, vs !! i = Some v ∧ p = k + i) ∨
  ((v ∉ vs) ∧ Layout.v2p l !! v = Some p).
Proof.
  revert l k. induction vs as [|v0 vs IH]; intros l k Hnd; cbn.
  { split; [intros ?; right; split; [apply not_elem_of_nil|done]|].
    by intros [(i & ? & _)|[_ ?]]. }
  apply NoDup_cons in Hnd as [Hv0 Hnd]. rewrite IH by done. cbn.
  rewrite lookup_insert. split.
  - intros [(i & Hi & ->)|[Hv Hl]].
    + left. exists (S i). split; [done|lia].
    + case_decide; simplify_eq.
      * left. exists 0. split; [done|lia].
      * right. split; [|done]. by apply not_elem_of_cons.
  - intros [([|i] & Hi & ->)|[[? ?]%not_elem_of_cons Hl]].
    + cbn in Hi. simplify_eq. right. split; [done|].
      rewrite decide_True by done. f_equal. lia.
    + left. exists i. split; [done|lia].
    + right. split; [done|]. by rewrite decide_False.
Qed.

Lemma assign_p2v l k vs v p :
  Layout.p2v (Pure.assign l k vs) !! p = Some v ↔
  (∃ i, vs !! i = Some v ∧ p = k + i) ∨
  ((p < k ∨ k + length vs ≤ p) ∧ Layout.p2v l !! p = Some v).
Proof.
  revert l k. induction vs as [|v0 vs IH]; intros l k; cbn.
  { split; [intros ?; right; split; [lia|done]|].
    by intros [(i & ? & _)|[_ ?]]. }
  rewrite IH. cbn. rewrite lookup_insert. split.
  - intros [(i & Hi & ->)|[Hp Hl]].
    + left. exists (S i). split; [done|lia].
    + case_decide; simplify_eq.
      * left. exists 0. split; [done|lia].
      * right. split; [lia|done].
  - intros [([|i] & Hi & ->)|[Hp Hl]].
    + cbn in Hi. simplify_eq. right. split; [lia|].
      rewrite decide_True by lia. done.
    + left. exists i. split; [done|lia].
    + right. split; [lia|]. by rewrite decide_False by lia.
Qed.

Lemma declared_NoDup regs : NoDup regs → NoDup (Pure.declared regs).
Proof.
  intros Hnd. unfold Pure.declared. apply NoDup_bind; [| |done].
  - intros r1 r2 [r i] _ _ (? & [= -> _] & _)%list_elem_of_fmap
      (? & [= -> _] & _)%list_elem_of_fmap. done.
  - intros r _. apply NoDup_fmap_2; [|apply NoDup_seq].
    by intros ? ? [= ->].
Qed.

Lemma one_to_one_lookup regs v p :
  NoDup regs →
  Layout.v2p (Pure.one_to_one regs) !! v = Some p ↔
  Pure.declared regs !! p = Some v.
Proof.
  intros Hnd. unfold Pure.one_to_one.
  rewrite assign_v2p by (by apply declared_NoDup). cbn.
  split; [|intros ?; left; by exists p].
  by intros [(i & ? & ->)|[_ ?]].
Qed.

Lemma one_to_one_consistent regs :
  NoDup regs → Layout.consistent (Pure.one_to_one regs).
Proof.
  intros Hnd v p. rewrite one_to_one_lookup by done.
  unfold Pure.one_to_one. rewrite assign_p2v. cbn.
  split; [intros ?; left; by exists p|].
  by intros [(i & ? & ->)|[_ ?]].
Qed.

(** ** The coupling graph given by edges meets the contract *)

Module GraphFacts.
Import Graph.

Section graph.
Variable g : list (nat * nat).

Lemma adjacent_known a b : adjacent g a b → known g a b.
Proof.
  unfold known, physical_qubits. rewrite !elem_of_remove_dups, !elem_of_app.
  intros [H|H]; split.
  - left. by apply (list_elem_of_fmap_2 fst) in H.
  - right. by apply (list_elem_of_fmap_2 snd) in H.
  - right. by apply (list_elem_of_fmap_2 snd) in H.
  - left. by apply (list_elem_of_fmap_2 fst) in H.
Qed.

Lemma ball_S p k v :
  v ∈ ball g p (S k) ↔
  v ∈ ball g p k ∨ ∃ u, u ∈ ball g p k ∧ adjacent g u v
                        ∧ v ∈ physical_qubits g.
Proof.
  cbn [ball]. rewrite elem_of_remove_dups, elem_of_app, list_elem_of_bind.
  unfold neighbors. setoid_rewrite list_elem_of_filter. firstorder.
Qed.

Lemma ball_mono p j k v : j ≤ k → v ∈ ball g p j → v ∈ ball g p k.
Proof.
  induction 1 as [|k _ IH]; [done|]. intros ?. apply ball_S. left. auto.
Qed.

Lemma level_Some p v k :
  level g p v = Some k ↔
  k ≤ length (physical_qubits g) ∧ v ∈ ball g p k ∧
  ∀ j, j < k → v ∉ ball g p j.
Proof.
  unfold level. split.
  - destruct (list_find _ _) as [[i k']|] eqn:Hf; [|done].
    intros [= <-]. apply list_find_Some in Hf as (Hi & HP & Hmin).
    apply lookup_seq in Hi as [Hk' Hi]. cbn [Nat.add] in Hk'. subst k'.
    split_and!; [lia|done|]. intros j Hj. apply (Hmin j j); [|done].
    apply lookup_seq. split; [done|lia].
  - intros (Hk & HP & Hmin).
    assert (list_find (λ k, v ∈ ball g p k)
              (seq 0 (S (length (physical_qubits g)))) = Some (k, k))
      as ->; [|done].
    apply list_find_Some. split_and!; [|done|].
    + apply lookup_seq. split; [done|lia].
    + intros j y [-> _]%lookup_seq Hj. by apply Hmin.
Qed.

Lemma level_exists p v k :
  k ≤ length (physical_qubits g) → v ∈ ball g p k →
  ∃ j, level g p v = Some j ∧ j ≤ k.
Proof.
  intros Hk Hv.
  destruct (list_find_elem_of (λ k, v ∈ ball g p k)
              (seq 0 (S (length (physical_qubits g)))) k)
    as [[i j] Hf]; [apply elem_of_seq; lia|done|].
  exists j. unfold level. rewrite Hf. split; [done|].
  apply list_find_Some in Hf as (Hi & HP & Hmin).
  apply lookup_seq in Hi as [Hj' Hi]. cbn [Nat.add] in Hj'. subst j.
  destruct (decide (i ≤ k)) as [|Hlt]; [done|].
  destruct (Hmin k k); [apply lookup_seq; split; [done|lia]|lia|done].
Qed.

(** A resource at level [S k] has a neighbour at level [k]. *)
Lemma level_predecessor p v k :
  level g p v = Some (S k) →
  ∃ u, u ∈ physical_qubits g ∧ adjacent g u v ∧ level g p u = Some k.
Proof.
  intros (Hk & Hv & Hmin)%level_Some.
  apply ball_S in Hv as [Hv|(u & Hu & Hadj & _)].
  { destruct (Hmin k); [lia|done]. }
  exists u. split_and!; [by apply adjacent_known in Hadj as []|done|].
  destruct (level_exists p u k) as (j & Hj & Hjk); [lia|done|].
  destruct (decide (j = k)) as [->|]; [done|].
  destruct (Hmin (S j)); [lia|].
  apply level_Some in Hj as (_ & Hj & _). apply ball_S. right.
  exists u. split_and!; [done..|]. by apply adjacent_known in Hadj as [].
Qed.

Lemma path_to_spec p k v :
  level g p v = Some k →
  length (path_to g p k v) = S k ∧
  head (path_to g p k v) = Some p ∧
  last (path_to g p k v) = Some v ∧
  (∀ i x, path_to g p k v !! i = Some x → level g p x = Some i) ∧
  (∀ i a b, path_to g p k v !! i = Some a →
            path_to g p k v !! S i = Some b → adjacent g a b).
Proof.
  revert v. induction k as [|k IH]; intros v Hv.
  { cbn. apply level_Some in Hv as Hv'. destruct Hv' as (_ & Hp & _).
    cbn in Hp. apply list_elem_of_singleton in Hp as ->.
    split_and!; [done..| |].
    - by intros [|i] x [= <-].
    - by intros [|i] a b. }
  cbn [path_to].
  destruct (level_predecessor p v k Hv) as (u0 & Hu0 & Hadj0 & Hl0).
  destruct (list_find_elem_of
              (λ u, adjacent g u v ∧ level g p u = Some k)
              (physical_qubits g) u0) as [[i u] Hf]; [done..|].
  rewrite Hf. apply list_find_Some in Hf as (_ & [Hadj Hu] & _).
  destruct (IH u Hu) as (Hlen & Hhd & Hlast & Hlev & Hstep).
  split_and!.
  - rewrite length_app, Hlen. cbn. lia.
  - rewrite head_app, Hhd. done.
  - apply last_snoc.
  - intros j x Hj. apply lookup_app_Some in Hj as [Hj|[Hge Hj]];
      [by apply Hlev|].
    rewrite Hlen in Hge, Hj. apply list_lookup_singleton_Some in Hj as [? ->].
    by replace j with (S k) by lia.
  - intros j a b Ha Hb.
    apply lookup_app_Some in Hb as [Hb|[Hge Hb]].
    + rewrite lookup_app_l in Ha by (apply lookup_lt_Some in Hb; lia).
      by eapply Hstep.
    + rewrite Hlen in Hge, Hb.
      apply list_lookup_singleton_Some in Hb as [? ->].
      assert (j = k) as -> by lia.
      rewrite lookup_app_l in Ha by lia.
      rewrite last_lookup, Hlen in Hlast. cbn in Hlast.
      by simplify_eq.
Qed.

Lemma adjacent_distance a b :
  adjacent g a b → a ≠ b → distance g a b = inr 1.
Proof.
  intros Hadj Hab. unfold distance.
  pose proof (adjacent_known _ _ Hadj) as Hk.
  rewrite decide_True by done.
  assert (level g a b = Some 1) as ->; [|done].
  apply level_Some. split_and!.
  - destruct Hk as [Ha%list_elem_of_lookup_1 _].
    destruct Ha as [i Hi%lookup_lt_Some]. lia.
  - apply ball_S. right. exists a. split_and!; [by left|done|apply Hk].
  - intros j Hj. assert (j = 0) as -> by lia. cbn.
    by intros ->%list_elem_of_singleton.
Qed.

Lemma coupling_contract : Coupling.contract (coupling g).
Proof.
  assert (∀ p q path,
    shortest_undirected_path g p q = inr path →
    ∃ k, level g p q = Some k ∧ path = path_to g p k q) as Hinr.
  { intros p q path. unfold shortest_undirected_path.
    case_decide; [|done].
    destruct (level g p q) as [k|]; [|done]. intros [= <-]. by exists k. }
  split; cbn.
  - intros p q path (k & Hk & ->)%Hinr. by apply path_to_spec.
  - intros p q path (k & Hk & ->)%Hinr. by apply path_to_spec.
  - intros p q path (k & Hk & ->)%Hinr.
    destruct (path_to_spec p k q Hk) as (_ & _ & _ & Hlev & _).
    apply NoDup_alt. intros i j x Hi%Hlev Hj%Hlev. congruence.
  - intros p q path i a b (k & Hk & ->)%Hinr Ha Hb.
    destruct (path_to_spec p k q Hk) as (_ & _ & _ & Hlev & Hstep).
    apply adjacent_distance; [by eapply Hstep|].
    intros ->. apply Hlev in Ha, Hb. rewrite Ha in Hb.
    injection Hb. lia.
Qed.

End graph.
End GraphFacts.

(** ** Swaps as relabellings *)

Lemma carried_exchange W a b w :
  carried (exchange W a b) w =
  if decide (w = a) then carried W b
  else if decide (w = b) then carried W a else carried W w.
Proof.
  unfold exchange. unfold carried at 1. rewrite !lookup_insert.
  repeat case_decide; by simplify_eq.
Qed.

Lemma output_wire_refl init v :
  Layout.consistent init → output_wire init init v = v.
Proof.
  intros Hinit. unfold output_wire.
  destruct (Layout.v2p init !! v) as [p|] eqn:Hv; [|done]. cbn.
  apply Hinit in Hv. by rewrite Hv.
Qed.

Lemma output_wire_inj init cur v1 v2 :
  inv init cur →
  output_wire cur init v1 = output_wire cur init v2 → v1 = v2.
Proof.
  intros Hinv Heq.
  destruct (Layout.v2p cur !! v1) as [p1|] eqn:H1,
           (Layout.v2p cur !! v2) as [p2|] eqn:H2.
  - destruct (output_wire_Some init cur Hinv _ _ H1) as [_ Hw1].
    destruct (output_wire_Some init cur Hinv _ _ H2) as [_ Hw2].
    rewrite Heq in Hw1. simplify_eq.
    eapply consistent_inj_v; [by eapply inv_cur|done..].
  - destruct (output_wire_Some init cur Hinv _ _ H1) as [_ Hw1].
    rewrite Heq, (output_wire_None init cur v2 H2) in Hw1.
    assert (is_Some (Layout.v2p cur !! v2)) as [? ?]; [|congruence].
    apply (inv_v _ _ Hinv). by eexists.
  - destruct (output_wire_Some init cur Hinv _ _ H2) as [_ Hw2].
    rewrite <- Heq, (output_wire_None init cur v1 H1) in Hw2.
    assert (is_Some (Layout.v2p cur !! v1)) as [? ?]; [|congruence].
    apply (inv_v _ _ Hinv). by eexists.
  - by rewrite !output_wire_None in Heq.
Qed.

(** One swap of a chain: exchanging what the two wires carry undoes, for
    every logical resource, the move of the layout. *)
Lemma swap_relabels init cur a b cur1 wa wb W v :
  inv init cur → Layout.swap cur a b = inr cur1 →
  Layout.p2v init !! a = Some wa → Layout.p2v init !! b = Some wb →
  carried (exchange W wa wb) (output_wire cur1 init v)
  = carried W (output_wire cur init v).
Proof.
  intros Hinv Hs Hwa Hwb.
  assert (inv init cur1) as Hinv1 by (by eapply swap_inv).
  pose proof (inv_init _ _ Hinv) as Hinit.
  pose proof (inv_cur _ _ Hinv) as Hcur.
  apply swap_inr in Hs as (x & y & Hx & Hy & _ & Hv1).
  apply Hcur in Hx as Hx', Hy as Hy'.
  rewrite carried_exchange.
  destruct (output_wire_Some init cur Hinv _ _ Hx') as [Hwx _].
  destruct (output_wire_Some init cur Hinv _ _ Hy') as [Hwy _].
  assert (output_wire cur init x = wa) as Hox by congruence.
  assert (output_wire cur init y = wb) as Hoy by congruence.
  destruct (decide (v = x)) as [->|Hxv].
  { assert (Layout.v2p cur1 !! x = Some b) as H1
      by (by rewrite Hv1, lookup_insert_eq).
    destruct (output_wire_Some init cur1 Hinv1 _ _ H1) as [Hw1 _].
    assert (output_wire cur1 init x = wb) as -> by congruence.
    rewrite Hox. case_decide as Hab; [by rewrite Hab|].
    by rewrite decide_True. }
  destruct (decide (v = y)) as [->|Hyv].
  { assert (Layout.v2p cur1 !! y = Some a) as H1
      by (by rewrite Hv1, lookup_insert_ne, lookup_insert_eq).
    destruct (output_wire_Some init cur1 Hinv1 _ _ H1) as [Hw1 _].
    assert (output_wire cur1 init y = wa) as -> by congruence.
    rewrite Hoy. by rewrite decide_True. }
  assert (Layout.v2p cur1 !! v = Layout.v2p cur !! v) as Hsame
    by (by rewrite Hv1, !lookup_insert_ne).
  assert (output_wire cur1 init v = output_wire cur init v) as ->
    by (unfold output_wire; by rewrite Hsame).
  rewrite <- Hox, <- Hoy.
  rewrite !decide_False; [done|..];
    intros ?%(output_wire_inj init cur); done.
Qed.

Lemma swap_wires_swap_node a b : swap_wires (swap_node a b) = Some (a, b).
Proof. reflexivity. Qed.

(** A whole chain. *)
Lemma chain_relabels init cur ps swaps cur' W :
  inv init cur → Pure.apply_chain cur ps = inr cur' →
  Forall2 (swap_on init) ps swaps →
  ∃ W', (∀ rest, unroute_from W (swaps ++ rest) = unroute_from W' rest) ∧
    ∀ v, carried W' (output_wire cur' init v)
         = carried W (output_wire cur init v).
Proof.
  intros Hinv Hch Hsw. revert cur W Hinv Hch.
  induction Hsw as [|[a b] n ps ns (wa & wb & Ha & Hb & ->) _ IH];
    intros cur W Hinv Hch; cbn in Hch.
  { injection Hch as <-. by exists W. }
  destruct (Layout.swap cur a b) as [e|cur1] eqn:Hs; [done|].
  pure_step in Hch.
  destruct (IH cur1 (exchange W wa wb)) as (W' & Hun & Hcar);
    [by eapply swap_inv|done|].
  exists W'. split.
  - intros rest. cbn [app unroute_from]. by rewrite swap_wires_swap_node.
  - intros v. rewrite Hcar. by eapply swap_relabels.
Qed.

Lemma swap_wires_renamed (f : qubit → qubit) n :
  swap_wires (mkNode (name n) (f <$> qargs n) (cargs n))
  = prod_map f f <$> swap_wires n.
Proof.
  unfold swap_wires. cbn [name qargs]. case_decide; [|done].
  by destruct (qargs n) as [|a [|b [|c rest]]].
Qed.

(** An operation of the program, appended under the rename map. *)
Lemma appended_relabels init cur n Wout Win rest_out rest_in :
  inv init cur →
  (∀ v, carried Wout (output_wire cur init v) = carried Win v) →
  ∃ Wout' Win',
    (∀ v, carried Wout' (output_wire cur init v) = carried Win' v) ∧
    ∀ tl,
      unroute_from Wout' rest_out = tl → unroute_from Win' rest_in = tl →
      unroute_from Wout
        (mkNode (name n) (output_wire cur init <$> qargs n) (cargs n)
           :: rest_out)
      = unroute_from Win (n :: rest_in).
Proof.
  intros Hinv Hagree. cbn [unroute_from]. rewrite swap_wires_renamed.
  destruct (swap_wires n) as [[a b]|]; cbn [fmap option_fmap option_map prod_map fst snd].
  2:{ exists Wout, Win. split; [done|]. intros tl -> <-. cbn. f_equal.
      f_equal. rewrite <- list_fmap_compose. apply list_fmap_ext.
      intros ? ? _. apply Hagree. }
  exists (exchange Wout (output_wire cur init a) (output_wire cur init b)),
    (exchange Win a b).
  split; [|by intros tl -> <-].
  intros v. rewrite !carried_exchange, !Hagree.
  destruct (decide (v = a)) as [->|Hva].
  { by rewrite decide_True. }
  rewrite decide_False by (intros ?%(output_wire_inj init cur); done).
  destruct (decide (v = b)) as [->|Hvb].
  { by rewrite decide_True. }
  by rewrite decide_False by (intros ?%(output_wire_inj init cur); done).
Qed.

Lemma route_layers_unroute sg cm init regs ns cur out cur' out' Wout Win :
  inv init cur →
  (∀ v, carried Wout (output_wire cur init v) = carried Win v) →
  Pure.route_layers sg cm init (cur, out)
    (DAGCircuit.serial_layers (DAGCircuit.mk regs ns)) = inr (cur', out') →
  ∃ suffix, out' = out ++ suffix ∧
    unroute_from Wout suffix = unroute_from Win ns.
Proof.
  revert cur out Wout Win.
  induction ns as [|n ns IH]; intros cur out Wout Win Hinv Hagree.
  { intros [= <- <-]. exists []. by rewrite app_nil_r. }
  rewrite route_layers_serial_cons.
  destruct (Pure.route_layer sg cm init (cur, out) (DAGCircuit.mk regs [n]))
    as [e|[cur1 out1]] eqn:Hl; [done|].
  pure_step. intros Hrest.
  apply route_serial_layer_inr in Hl as (mid & Hmid & Hinv1 & ->); [|done].
  assert (∃ swaps W1, mid = out ++ swaps ∧
            (∀ rest, unroute_from Wout (swaps ++ rest) = unroute_from W1 rest) ∧
            ∀ v, carried W1 (output_wire cur1 init v) = carried Win v)
    as (swaps & W1 & -> & Hun & Hagree1).
  { case_decide.
    - destruct (route_cx_inr _ _ _ _ _ _ _ _ Hinv Hmid)
        as (a & b & pa & pb & d & _ & _ & _ & _ & _ & Hcase).
      destruct Hcase as [(_ & -> & ->)|(_ & path & swaps & _ & Hch & -> & Hsw)].
      + exists [], Wout. by rewrite app_nil_r.
      + exists swaps.
        destruct (chain_relabels init cur _ swaps cur1 Wout Hinv Hch Hsw)
          as (W1 & Hun & Hcar).
        exists W1. split_and!; [done..|]. intros v. by rewrite Hcar.
    - destruct Hmid as [-> ->]. exists [], Wout. by rewrite app_nil_r. }
  set (n' := mkNode (name n) (output_wire cur1 init <$> qargs n) (cargs n))
    in *.
  destruct (appended_relabels init cur1 n W1 Win
              (drop (length ((out ++ swaps) ++ [n'])) out') ns Hinv1 Hagree1)
    as (Wout' & Win' & Hagree' & Hstep).
  destruct (IH cur1 ((out ++ swaps) ++ [n']) Wout' Win' Hinv1 Hagree' Hrest)
    as (suffix & -> & Hsuffix).
  rewrite drop_app_length in Hstep.
  exists (swaps ++ n' :: suffix). split.
  - by rewrite <- !app_assoc.
  - rewrite Hun. by eapply Hstep.
Qed.

Lemma unroute_from_no_swaps ns :
  Forall (λ n, swap_wires n = None) ns → unroute_from ∅ ns = ns.
Proof.
  induction 1 as [|n ns Hn _ IH]; [done|]. cbn. rewrite Hn, IH. f_equal.
  destruct n as [nm qs cs]. cbn. f_equal.
  rewrite <- (list_fmap_id qs) at 2. apply list_fmap_ext.
  intros ? ? _. unfold carried. by rewrite lookup_empty.
Qed.

(** ** The test suite on the embedding *)

(** [test_trivial_case]: the operations come back as they went in. *)
Example test_trivial_case :
  DAGCircuit.nodes <$> (run trivial_case (fresh star3)).1
  = inr (DAGCircuit.nodes trivial_case).
Proof. vm_compute. reflexivity. Qed.

(** [test_trivial_in_same_layer] *)
Example test_trivial_in_same_layer :
  DAGCircuit.nodes <$> (run trivial_in_same_layer (fresh linear4)).1
  = inr (DAGCircuit.nodes trivial_in_same_layer).
Proof. vm_compute. reflexivity. Qed.

(** [test_permute_wires_1]: the two qubits sit on the two leaves of the
    star.  On the pass object the test builds, which has no [swap_gate]
    attribute, the run raises where it would build the swap.  Once a
    caller has set the attribute: one swap through the hub, then the
    operation on the hub and the other leaf. *)
Example test_permute_wires_1 :
  (run permute_wires_1 (fresh star3)).1 = inl AttributeError ∧
  DAGCircuit.nodes <$> (run permute_wires_1 (equipped star3)).1
  = inr [swap_node (qr3, 1) (qr3, 0); cx (qr3, 0) (qr3, 2)].
Proof. split; vm_compute; reflexivity. Qed.

(** [test_permute_wires_4], in the same two settings. *)
Example test_permute_wires_4 :
  (run permute_wires_4 (fresh linear4)).1 = inl AttributeError ∧
  DAGCircuit.nodes <$> (run permute_wires_4 (equipped linear4)).1
  = inr [h (q 3); swap_node (q 3) (q 2); swap_node (q 2) (q 1);
         cx (q 1) (q 0)].
Proof. split; vm_compute; reflexivity. Qed.

(** * The properties of the specification *)

Lemma starting_layout_consistent dag s :
  layout_precondition dag s →
  ∃ init, starting_layout dag s = Some init ∧ Layout.consistent init.
Proof.
  unfold layout_precondition, starting_layout.
  destruct (StochasticMapper.initial_layout (self s)) as [l0|]; [done|].
  intros Hnd. eexists. split; [done|]. by apply one_to_one_consistent.
Qed.

(** A successful run, read through [run_spec]. *)
Lemma run_inr dag s out init :
  starting_layout dag s = Some init →
  (run dag s).1 = inr out →
  ∃ cur' ns,
    Pure.route_layers (StochasticMapper.swap_gate (self s))
      (StochasticMapper.coupling_map (self s)) init (init, [])
      (DAGCircuit.serial_layers dag) = inr (cur', ns) ∧
    out = DAGCircuit.mk [] ns ∧
    (run dag s).2 = final_state s init cur'.
Proof.
  intros Hinit Hrun. pose proof (run_spec dag s) as Hspec.
  rewrite Hinit in Hspec. destruct Hspec as (cur'' & Hs & Hr).
  destruct (Pure.route_layers _ _ init (init, []) _) as [e|[cur' ns]].
  { congruence. }
  destruct Hr as [Hr ->]. exists cur', ns. split_and!; [done| |done].
  congruence.
Qed.

(** C1 (adjacency satisfaction): when a run returns a graph, every
    operation of that graph with two qubit arguments sits on two wires
    that stand for physical resources at distance 1 in the coupling
    graph: the wires of the returned graph are named through the
    starting layout, since the rename map of every append composes the
    current layout with it.  Equally, the accumulated layout, current
    when a two-qubit operation of the program is appended, places the
    two qubits of that operation on resources at distance 1. *)
Theorem run_adjacency_satisfaction dag s out :
  Coupling.contract (StochasticMapper.coupling_map (self s)) →
  layout_precondition dag s →
  (∀ n, n ∈ DAGCircuit.nodes dag → NoDup (qargs n)) →
  (run dag s).1 = inr out →
  ∃ init, starting_layout dag s = Some init ∧
    (∀ n, n ∈ DAGCircuit.nodes out →
       adjacent_under (StochasticMapper.coupling_map (self s)) init n) ∧
    (∀ k n a b, DAGCircuit.nodes dag !! k = Some n → qargs n = [a; b] →
       ∃ cur pa pb,
         Pure.layout_after (StochasticMapper.swap_gate (self s))
           (StochasticMapper.coupling_map (self s)) init
           dag k = inr cur ∧
         Layout.v2p cur !! a = Some pa ∧ Layout.v2p cur !! b = Some pb ∧
         Coupling.distance (StochasticMapper.coupling_map (self s)) pa pb
         = inr 1).
Proof.
  intros Hcm (init & Hinit & Hcons)%starting_layout_consistent Hwf Hrun.
  exists init. split; [done|].
  destruct (run_inr dag s out init Hinit Hrun) as (cur' & ns & Hr & -> & _).
  split.
  - apply Forall_forall. destruct dag as [regs nodes].
    eapply route_layers_adjacent; [done|by apply inv_refl|done| |done].
    constructor.
  - intros k n a b Hk Hq.
    eapply layout_after_places; [done..|].
    assert (NoDup (qargs n)) as Hnd
      by (apply Hwf; by eapply list_elem_of_lookup_2).
    rewrite Hq in Hnd. apply NoDup_cons in Hnd as [Hnd _].
    intros ->. apply Hnd. left.
Qed.

Lemma run_adjacency_satisfaction_witness :
  ∃ init, starting_layout permute_wires_4 (equipped linear4) = Some init ∧
    (∀ n, n ∈ [h (q 3); swap_node (q 3) (q 2); swap_node (q 2) (q 1);
               cx (q 1) (q 0)] →
       adjacent_under linear4 init n) ∧
    (∀ k n a b, [h (q 3); cx (q 3) (q 0)] !! k = Some n → qargs n = [a; b] →
       ∃ cur pa pb,
         Pure.layout_after (Some SwapGate) linear4 init permute_wires_4 k
         = inr cur ∧
         Layout.v2p cur !! a = Some pa ∧ Layout.v2p cur !! b = Some pb ∧
         Coupling.distance linear4 pa pb = inr 1).
Proof.
  apply (run_adjacency_satisfaction permute_wires_4 (equipped linear4)
           (DAGCircuit.mk [] [h (q 3); swap_node (q 3) (q 2);
                               swap_node (q 2) (q 1); cx (q 1) (q 0)])).
  - apply GraphFacts.coupling_contract.
  - cbn. apply NoDup_singleton.
  - intros n Hn. cbn in Hn. repeat (apply elem_of_cons in Hn as [->|Hn]);
      [cbn..|by apply elem_of_nil in Hn].
    + apply NoDup_singleton.
    + apply NoDup_cons. split; [|apply NoDup_singleton].
      intros [=]%list_elem_of_singleton.
  - vm_compute. reflexivity.
Defined.

(** C2 (semantic preservation): read with every swap as an exchange of
    the values its two wires carry, the returned graph holds the
    operations of the input graph, in the same order, each on the same
    logical resources; so every logical resource meets the same
    operations in the same order in both graphs, and when the program
    has no swap of its own the reading gives the program back, nothing
    reordered, dropped or duplicated. *)
Theorem run_semantic_preservation dag s out :
  layout_precondition dag s →
  (run dag s).1 = inr out →
  unroute (DAGCircuit.nodes out) = unroute (DAGCircuit.nodes dag) ∧
  (∀ v, worldline v (DAGCircuit.nodes out)
        = worldline v (DAGCircuit.nodes dag)) ∧
  (Forall (λ n, swap_wires n = None) (DAGCircuit.nodes dag) →
   unroute (DAGCircuit.nodes out) = DAGCircuit.nodes dag).
Proof.
  intros (init & Hinit & Hcons)%starting_layout_consistent Hrun.
  destruct (run_inr dag s out init Hinit Hrun) as (cur' & ns & Hr & -> & _).
  destruct dag as [regs nodes].
  assert (unroute ns = unroute nodes) as Heq.
  { eapply (route_layers_unroute _ _ init regs nodes init [] cur' ns ∅ ∅)
      in Hr as (suffix & -> & Hsuffix); [done|by apply inv_refl|].
    intros v. by rewrite output_wire_refl. }
  cbn [DAGCircuit.nodes]. split_and!; [done| |].
  - intros v. unfold worldline. by rewrite Heq.
  - intros Hno. rewrite Heq. by apply unroute_from_no_swaps.
Qed.

Lemma run_semantic_preservation_witness :
  unroute [h (q 3); swap_node (q 3) (q 2); swap_node (q 2) (q 1);
           cx (q 1) (q 0)]
  = unroute [h (q 3); cx (q 3) (q 0)] ∧
  (∀ v, worldline v [h (q 3); swap_node (q 3) (q 2); swap_node (q 2) (q 1);
                     cx (q 1) (q 0)]
        = worldline v [h (q 3); cx (q 3) (q 0)]) ∧
  (Forall (λ n, swap_wires n = None) [h (q 3); cx (q 3) (q 0)] →
   unroute [h (q 3); swap_node (q 3) (q 2); swap_node (q 2) (q 1);
            cx (q 1) (q 0)]
   = [h (q 3); cx (q 3) (q 0)]).
Proof.
  apply (run_semantic_preservation permute_wires_4 (equipped linear4)
           (DAGCircuit.mk [] [h (q 3); swap_node (q 3) (q 2);
                               swap_node (q 2) (q 1); cx (q 1) (q 0)])).
  - cbn. apply NoDup_singleton.
  - vm_compute. reflexivity.
Defined.

(** ** No-op stability *)

Lemma rename_id init n :
  Layout.consistent init →
  mkNode (name n) (output_wire init init <$> qargs n) (cargs n) = n.
Proof.
  intros Hinit. destruct n as [nm qs cs]. cbn. f_equal.
  rewrite <- (list_fmap_id qs) at 2. apply list_fmap_ext.
  intros ? ? _. by apply output_wire_refl.
Qed.

Lemma route_cx_adjacent_noop sg cm init out n :
  length (qargs n) = 2 → adjacent_under cm init n →
  Pure.route_cx sg cm init (init, out) n = inr (init, out).
Proof.
  intros Hlen Hadj. destruct (qargs n) as [|a [|b [|]]] eqn:Hq; try done.
  destruct (Hadj a b Hq) as (pa & pb & Ha & Hb & Hd).
  unfold Pure.route_cx, Layout.get_virtual. cbn [fst snd]. rewrite Hq. cbn.
  rewrite Ha. cbn. rewrite Hb. cbn. rewrite Hd. cbn. done.
Qed.

Lemma route_layers_noop sg cm init regs ns out :
  Layout.consistent init →
  Forall (adjacent_under cm init) ns →
  Pure.route_layers sg cm init (init, out)
    (DAGCircuit.serial_layers (DAGCircuit.mk regs ns)) = inr (init, out ++ ns).
Proof.
  intros Hinit Hadj. revert out.
  induction Hadj as [|n ns Hn _ IH]; intros out.
  { cbn. by rewrite app_nil_r. }
  rewrite route_layers_serial_cons.
  assert (Pure.route_layer sg cm init (init, out) (DAGCircuit.mk regs [n])
          = inr (init, out ++ [n])) as ->.
  { unfold Pure.route_layer, DAGCircuit.get_cnot_nodes.
    cbn [DAGCircuit.nodes]. rewrite filter_cons, filter_nil.
    assert (Pure.route_cxs sg cm init (init, out)
              (if decide (length (qargs n) = 2) then [n] else [])
            = inr (init, out)) as ->.
    { case_decide; [|done]. cbn [Pure.route_cxs].
      by rewrite route_cx_adjacent_noop. }
    pure_step. cbn [fst snd].
    destruct (combine_inr init init (inv_refl init Hinit)) as (em & -> & Hw).
    pure_step. do 3 f_equal. cbn. f_equal.
    rewrite <- (rename_id init n Hinit) at 2. unfold DAGCircuit.rename.
    f_equal. apply list_fmap_ext. intros ? ? _. apply Hw. }
  pure_step. rewrite IH. by rewrite <- app_assoc.
Qed.

(** C3 (no-op stability, fixed point): when every two-qubit operation of
    the input already sits on adjacent physical resources under the
    starting layout, the run succeeds and returns the operations of the
    input, unchanged and in order: no swap is inserted, the rename map
    through the starting layout is the identity, and the working copy of
    the layout ends as it started.  The starting layout is either the
    supplied one or the default one-to-one layout. *)
Theorem run_noop_stability dag s init :
  layout_precondition dag s →
  starting_layout dag s = Some init →
  Forall (adjacent_under (StochasticMapper.coupling_map (self s)) init)
    (DAGCircuit.nodes dag) →
  ∃ out, (run dag s).1 = inr out ∧
    DAGCircuit.nodes out = DAGCircuit.nodes dag ∧
    (run dag s).2 = final_state s init init.
Proof.
  intros (init' & Hinit' & Hcons)%starting_layout_consistent Hinit Hadj.
  assert (init' = init) as -> by congruence.
  pose proof (run_spec dag s) as Hspec. rewrite Hinit in Hspec.
  destruct Hspec as (cur'' & Hs & Hr). destruct dag as [regs nodes].
  rewrite route_layers_noop in Hr by done. destruct Hr as [-> ->].
  eexists. split_and!; [done..|]. by rewrite Hs.
Qed.

Lemma run_noop_stability_witness :
  ∃ out, (run trivial_in_same_layer (fresh linear4)).1 = inr out ∧
    DAGCircuit.nodes out = DAGCircuit.nodes trivial_in_same_layer ∧
    (run trivial_in_same_layer (fresh linear4)).2
    = final_state (fresh linear4) (Pure.one_to_one [qr4])
        (Pure.one_to_one [qr4]).
Proof.
  apply (run_noop_stability trivial_in_same_layer (fresh linear4)
           (Pure.one_to_one [qr4])).
  - cbn. apply NoDup_singleton.
  - reflexivity.
  - repeat constructor.
    + intros a b [= <- <-]. exists 2, 3. by vm_compute.
    + intros a b [= <- <-]. exists 0, 1. by vm_compute.
Defined.

(** ** The swap chain, on the store *)

Lemma swap_nodes_lookup sg cur ps swaps i n :
  Pure.swap_nodes sg cur ps = inr swaps →
  swaps !! i = Some n ↔
  ∃ a b x y, ps !! i = Some (a, b) ∧ Layout.p2v cur !! a = Some x ∧
    Layout.p2v cur !! b = Some y ∧ n = swap_node x y.
Proof.
  revert swaps i. induction ps as [|[a b] ps IH]; intros swaps i Hsw;
    cbn in Hsw.
  { injection Hsw as <-. split; [done|]. by intros (? & ? & ? & ? & ? & _). }
  unfold Layout.get_physical in Hsw.
  destruct (Layout.p2v cur !! a) as [x|] eqn:Hx; [|done].
  destruct (Layout.p2v cur !! b) as [y|] eqn:Hy; [|done].
  pure_step in Hsw. destruct sg as [[]|]; [|done]. pure_step in Hsw.
  cbn [call] in Hsw.
  destruct (Pure.swap_nodes _ cur ps) as [e|rest]; [done|].
  injection Hsw as <-. destruct i as [|i]; cbn.
  - split; [intros [= <-]; by exists a, b, x, y|].
    intros (? & ? & ? & ? & [= <- <-] & ? & ? & ->). congruence.
  - by apply IH.
Qed.

Lemma swap_nodes_length sg cur ps swaps :
  Pure.swap_nodes sg cur ps = inr swaps → length swaps = length ps.
Proof.
  revert swaps. induction ps as [|[a b] ps IH]; intros swaps Hsw; cbn in Hsw.
  { by injection Hsw as <-. }
  destruct (Layout.get_physical cur a) as [e|x]; [done|].
  destruct (Layout.get_physical cur b) as [e|y]; [done|].
  pure_step in Hsw. destruct sg as [[]|]; [|done]. pure_step in Hsw.
  cbn [call] in Hsw.
  destruct (Pure.swap_nodes _ cur ps) as [e|rest]; [done|].
  injection Hsw as <-. cbn. f_equal. by apply IH.
Qed.

Lemma swap_nodes_total sg cur ps :
  is_Some sg →
  (∀ a b, (a, b) ∈ ps →
     is_Some (Layout.p2v cur !! a) ∧ is_Some (Layout.p2v cur !! b)) →
  ∃ swaps, Pure.swap_nodes sg cur ps = inr swaps.
Proof.
  intros [swap_gate ->].
  induction ps as [|[a b] ps IH]; intros Hocc; cbn; [by eexists|].
  destruct (Hocc a b) as [[x Hx] [y Hy]]; [left|].
  unfold Layout.get_physical. rewrite Hx, Hy. pure_step.
  destruct IH as [rest ->]; [|by eexists].
  intros. apply Hocc. by right.
Qed.

Lemma apply_chain_total cur ps :
  (∀ a b, (a, b) ∈ ps →
     is_Some (Layout.p2v cur !! a) ∧ is_Some (Layout.p2v cur !! b)) →
  ∃ cur', Pure.apply_chain cur ps = inr cur'.
Proof.
  revert cur. induction ps as [|[a b] ps IH]; intros cur Hocc; cbn;
    [by eexists|].
  destruct (Hocc a b) as [[x Hx] [y Hy]]; [left|].
  destruct (Layout.swap cur a b) as [e|cur1] eqn:Hs.
  { unfold Layout.swap in Hs. by rewrite Hx, Hy in Hs. }
  pure_step. apply IH. intros a' b' Hin.
  rewrite !(swap_is_Some_p _ _ _ _ _ Hs). apply Hocc. by right.
Qed.

Lemma chain_elem_of path a b :
  (a, b) ∈ Pure.chain path → a ∈ path ∧ b ∈ path.
Proof.
  intros (i & Hi)%list_elem_of_lookup_1. rewrite chain_lookup in Hi.
  case_decide; [|done].
  destruct (path !! i) as [a'|] eqn:Ha; [|done].
  destruct (path !! S i) as [b'|] eqn:Hb; [|done].
  injection Hi as -> ->. split; by eapply list_elem_of_lookup_2.
Qed.

(** The path between two distinct qubits at distance greater than 1
    has more than two resources. *)
Lemma long_path cm cur a b p q d path :
  Coupling.contract cm → Layout.consistent cur → a ≠ b →
  Layout.v2p cur !! a = Some p → Layout.v2p cur !! b = Some q →
  Coupling.distance cm p q = inr d → 1 < d →
  Coupling.shortest_undirected_path cm p q = inr path →
  ∃ x y z rest, path = x :: y :: z :: rest.
Proof.
  intros Hcm Hcons Hab Hp Hq Hd Hd1 Hpath.
  pose proof (Coupling.path_head _ Hcm _ _ _ Hpath) as Hhd.
  pose proof (Coupling.path_last _ Hcm _ _ _ Hpath) as Hlast.
  destruct path as [|x [|y [|z rest]]]; [done| | |by eauto].
  - cbn in Hhd, Hlast. assert (p = q) as <- by congruence.
    apply Hcons in Hp, Hq. congruence.
  - cbn in Hhd, Hlast. injection Hhd as ->. injection Hlast as ->.
    pose proof (Coupling.path_adjacent _ Hcm p q [p; q] 0 p q Hpath
                  eq_refl eq_refl) as H1.
    rewrite Hd in H1. injection H1 as ->. lia.
Qed.

(** C4 fails on the code: the pass object [__init__] builds has no
    [swap_gate] attribute, which line 109 reads to build each swap.  For
    a two-qubit operation whose two qubits sit on resources at distance
    greater than 1, the path the coupling graph returns has more than
    two resources, and the routing of the operation raises in the first
    iteration of the loop of line 94, with [AttributeError] from line
    109 when the resources of the path are occupied (otherwise a lookup
    of lines 98 and 99 may fail first).  No swap is built, nothing is
    appended and the layout is not changed. *)
Theorem swap_chain_raises_without_swap_gate
    l0 lc init cur s nd a_cx a b p q d path :
  StochasticMapper.swap_gate (self s) = None →
  Coupling.contract (StochasticMapper.coupling_map (self s)) →
  related l0 lc init cur s → Layout.consistent cur →
  qargs a_cx = [a; b] → a ≠ b →
  Layout.v2p cur !! a = Some p → Layout.v2p cur !! b = Some q →
  Coupling.distance (StochasticMapper.coupling_map (self s)) p q = inr d →
  1 < d →
  Coupling.shortest_undirected_path (StochasticMapper.coupling_map (self s))
    p q = inr path →
  2 < length path ∧
  ∃ e, build_swap_layer lc path s = (inl e, s) ∧
    route_cx lc nd a_cx s = (inl e, s) ∧
    ((∀ x, x ∈ path → is_Some (Layout.p2v cur !! x)) → e = AttributeError).
Proof.
  intros Hsg Hcm Hrel Hcons Hq Hab Hp Hpq Hd Hd1 Hpath.
  destruct (long_path _ cur a b p q d path Hcm Hcons Hab Hp Hpq Hd Hd1 Hpath)
    as (x & y & z & rest & Hlong).
  split; [subst path; cbn; lia|].
  assert (∃ e, swap_layer_of None cur (Pure.chain path) DAGCircuit.empty
               = inl e ∧
            ((∀ x, x ∈ path → is_Some (Layout.p2v cur !! x)) →
             e = AttributeError)) as (e & Hsl & Hocc).
  { subst path. cbn [Pure.chain swap_layer_of fst snd].
    unfold Layout.get_physical.
    destruct (Layout.p2v cur !! x) as [vx|] eqn:Hx; pure_step.
    2:{ exists KeyError. split; [done|].
        intros Hocc. destruct (Hocc x) as [? ?]; [left|congruence]. }
    destruct (Layout.p2v cur !! y) as [vy|] eqn:Hy; pure_step.
    2:{ exists KeyError. split; [done|].
        intros Hocc. destruct (Hocc y) as [? ?]; [right; left|congruence]. }
    by exists AttributeError. }
  assert (build_swap_layer lc path s = (inl e, s)) as Hbuild.
  { by rewrite (build_swap_layer_eq l0 lc init _ cur path s Hrel eq_refl),
      Hsg, Hsl. }
  exists e. split_and!; [done| |done].
  remember (route_cx lc nd a_cx s) as out eqn:Hout.
  unfold route_cx in Hout. rewrite Hq, bind_index in Hout.
  cbn [lookup list_lookup] in Hout.
  rewrite (bind_get_virtual l0 lc init cur) in Hout by done.
  unfold Layout.get_virtual in Hout. rewrite Hp in Hout.
  cbn [from_option] in Hout. rewrite bind_index in Hout.
  cbn [lookup list_lookup] in Hout.
  rewrite (bind_get_virtual l0 lc init cur) in Hout by done.
  unfold Layout.get_virtual in Hout. rewrite Hpq in Hout.
  cbn [from_option] in Hout.
  rewrite bind_eq in Hout. unfold get_self at 1 in Hout.
  rewrite bind_lift, Hd in Hout. rewrite decide_True in Hout by lia.
  rewrite bind_lift, Hpath in Hout. rewrite bind_eq, Hbuild in Hout.
  by subst out.
Qed.

Lemma swap_chain_raises_without_swap_gate_witness :
  2 < length [0; 1; 2; 3] ∧
  ∃ e, build_swap_layer 1 [0; 1; 2; 3] (routing_store linear4)
       = (inl e, routing_store linear4) ∧
    route_cx 1 DAGCircuit.empty (cx (q 0) (q 3)) (routing_store linear4)
    = (inl e, routing_store linear4) ∧
    ((∀ x, x ∈ [0; 1; 2; 3] →
        is_Some (Layout.p2v (Pure.one_to_one [qr4]) !! x)) →
     e = AttributeError).
Proof.
  apply (swap_chain_raises_without_swap_gate 0 1 (Pure.one_to_one [qr4])
           (Pure.one_to_one [qr4]) (routing_store linear4) DAGCircuit.empty
           (cx (q 0) (q 3)) (q 0) (q 3) 0 3 3 [0; 1; 2; 3]).
  - reflexivity.
  - apply GraphFacts.coupling_contract.
  - repeat split. lia.
  - apply one_to_one_consistent, NoDup_singleton.
  - reflexivity.
  - intros [=].
  - reflexivity.
  - reflexivity.
  - vm_compute. reflexivity.
  - lia.
  - vm_compute. reflexivity.
Defined.

Lemma swap_nodes_named sg cur path swaps :
  Pure.swap_nodes sg cur (Pure.chain path) = inr swaps →
  named_through cur path swaps.
Proof.
  intros Hsw i n. rewrite (swap_nodes_lookup _ cur _ _ _ _ Hsw). split.
  - intros (a' & b' & x & y & Hi & Hx & Hy & ->).
    rewrite chain_lookup in Hi. case_decide; [|done].
    destruct (path !! i) as [a''|] eqn:Ha; [|done].
    destruct (path !! S i) as [b''|] eqn:Hb; [|done].
    injection Hi as -> ->. by exists a', b', x, y.
  - intros (a' & b' & x & y & Hi & Ha & Hb & Hx & Hy & ->).
    exists a', b', x, y. split_and!; [|done..].
    rewrite chain_lookup, decide_True by done. by rewrite Ha, Hb.
Qed.

(** C10 (frozen labels): building the swap layer never writes the store,
    whatever its outcome, and when it returns a layer, every swap of the
    layer is named by the logical resources that the layout, as it stood
    when the chain began, places on the two resources of its pair.
    When [route_cx] returns, either the two resources of the operation
    are at distance 1 and nothing has changed, or it has appended the
    swaps of the path the coupling graph gave, so named, under the
    rename map of that same layout, and has only then exchanged the
    entries of the layout, along the path. *)
Theorem swap_labels_from_frozen_layout l0 lc init cur s nd a_cx :
  related l0 lc init cur s →
  (∀ path, (build_swap_layer lc path s).2 = s ∧
     ∀ swap_layer, (build_swap_layer lc path s).1 = inr swap_layer →
       named_through cur path (DAGCircuit.nodes swap_layer)) ∧
  (∀ nd', (route_cx lc nd a_cx s).1 = inr nd' →
     ∃ a b pa pb d,
       qargs a_cx !! 0 = Some a ∧ qargs a_cx !! 1 = Some b ∧
       Layout.v2p cur !! a = Some pa ∧ Layout.v2p cur !! b = Some pb ∧
       Coupling.distance (StochasticMapper.coupling_map (self s)) pa pb
       = inr d ∧
       ((d = 1 ∧ nd' = nd ∧ (route_cx lc nd a_cx s).2 = s) ∨
        (d ≠ 1 ∧ ∃ path swaps edge_map cur',
           Coupling.shortest_undirected_path
             (StochasticMapper.coupling_map (self s)) pa pb = inr path ∧
           named_through cur path swaps ∧
           Layout.combine_into_edge_map cur init = inr edge_map ∧
           DAGCircuit.nodes nd'
           = DAGCircuit.nodes nd ++ (DAGCircuit.rename edge_map <$> swaps) ∧
           Pure.apply_chain cur (Pure.chain path) = inr cur' ∧
           (route_cx lc nd a_cx s).2 = with_current lc cur' s))).
Proof.
  intros Hrel. split.
  - intros path.
    rewrite (build_swap_layer_eq l0 lc init _ cur path s Hrel eq_refl).
    split; [done|]. cbn [fst]. intros swap_layer Hsl.
    pose proof (swap_layer_of_nodes (StochasticMapper.swap_gate (self s)) cur
                  (Pure.chain path) DAGCircuit.empty) as Hnodes.
    rewrite Hsl in Hnodes.
    destruct (Pure.swap_nodes _ cur (Pure.chain path)) as [e|swaps] eqn:Hsw;
      [done|].
    injection Hnodes as ->. by eapply swap_nodes_named.
  - intros nd' Hrun.
    destruct (route_cx_refines l0 lc init _ _ cur nd a_cx s Hrel eq_refl
                eq_refl) as (cur'' & Hs & Hr).
    rewrite Hrun in Hr.
    unfold Pure.route_cx, Layout.get_virtual in Hr. cbn [fst snd] in Hr.
    destruct (qargs a_cx !! 0) as [a|] eqn:Ha; [|done]. pure_step in Hr.
    destruct (Layout.v2p cur !! a) as [pa|] eqn:Hpa; [|done].
    pure_step in Hr.
    destruct (qargs a_cx !! 1) as [b|] eqn:Hb; [|done]. pure_step in Hr.
    destruct (Layout.v2p cur !! b) as [pb|] eqn:Hpb; [|done].
    pure_step in Hr.
    destruct (Coupling.distance _ pa pb) as [e|d] eqn:Hdist; [done|].
    pure_step in Hr.
    exists a, b, pa, pb, d. split_and!; [done..|].
    case_decide as Hd.
    2:{ left. cbn in Hr. destruct Hr as [[= ->] ->].
        split_and!.
        - destruct (decide (d = 1)); [done|by destruct Hd].
        - by destruct nd.
        - rewrite Hs. by eapply with_current_id. }
    right. split; [done|].
    destruct (Coupling.shortest_undirected_path _ pa pb) as [e|path]
      eqn:Hpath; [done|].
    pure_step in Hr.
    destruct (Pure.swap_nodes _ cur (Pure.chain path)) as [e|swaps] eqn:Hsw;
      [done|].
    pure_step in Hr.
    destruct (Layout.combine_into_edge_map cur init) as [e|edge_map]
      eqn:Hem; [done|].
    pure_step in Hr.
    destruct (Pure.apply_chain cur (Pure.chain path)) as [e|cur'] eqn:Hch;
      [done|].
    cbn in Hr. destruct Hr as [[= ->] ->].
    exists path, swaps, edge_map, cur'. split_and!; [done| |done..].
    by eapply swap_nodes_named.
Qed.

Lemma swap_labels_from_frozen_layout_witness :
  (∀ path, (build_swap_layer 1 path (equipped_routing_store linear4)).2
           = equipped_routing_store linear4 ∧
     ∀ swap_layer,
       (build_swap_layer 1 path (equipped_routing_store linear4)).1
       = inr swap_layer →
       named_through (Pure.one_to_one [qr4]) path
         (DAGCircuit.nodes swap_layer)) ∧
  (∀ nd', (route_cx 1 DAGCircuit.empty (cx (q 0) (q 3))
             (equipped_routing_store linear4)).1 = inr nd' →
     ∃ a b pa pb d,
       qargs (cx (q 0) (q 3)) !! 0 = Some a ∧
       qargs (cx (q 0) (q 3)) !! 1 = Some b ∧
       Layout.v2p (Pure.one_to_one [qr4]) !! a = Some pa ∧
       Layout.v2p (Pure.one_to_one [qr4]) !! b = Some pb ∧
       Coupling.distance linear4 pa pb = inr d ∧
       ((d = 1 ∧ nd' = DAGCircuit.empty ∧
         (route_cx 1 DAGCircuit.empty (cx (q 0) (q 3))
            (equipped_routing_store linear4)).2
         = equipped_routing_store linear4) ∨
        (d ≠ 1 ∧ ∃ path swaps edge_map cur',
           Coupling.shortest_undirected_path linear4 pa pb = inr path ∧
           named_through (Pure.one_to_one [qr4]) path swaps ∧
           Layout.combine_into_edge_map (Pure.one_to_one [qr4])
             (Pure.one_to_one [qr4]) = inr edge_map ∧
           DAGCircuit.nodes nd'
           = DAGCircuit.nodes DAGCircuit.empty
             ++ (DAGCircuit.rename edge_map <$> swaps) ∧
           Pure.apply_chain (Pure.one_to_one [qr4]) (Pure.chain path)
           = inr cur' ∧
           (route_cx 1 DAGCircuit.empty (cx (q 0) (q 3))
              (equipped_routing_store linear4)).2
           = with_current 1 cur' (equipped_routing_store linear4)))).
Proof.
  apply (swap_labels_from_frozen_layout 0 1 (Pure.one_to_one [qr4])
           (Pure.one_to_one [qr4]) (equipped_routing_store linear4)
           DAGCircuit.empty (cx (q 0) (q 3))).
  repeat split. lia.
Defined.

(** C5 (determinism, inert parameters): the result of a run is a
    function of the coupling graph, the initial layout, the store and
    the program; whatever the values of [trials] and [seed] given to the
    constructor, the run returns the same graph or raises the same
    exception. *)
Theorem run_ignores_trials_and_seed cm il trials1 seed1 trials2 seed2 hp dag :
  (run dag (mkState (StochasticMapper.init cm il trials1 seed1) hp)).1
  = (run dag (mkState (StochasticMapper.init cm il trials2 seed2) hp)).1.
Proof.
  pose proof (run_spec dag
    (mkState (StochasticMapper.init cm il trials1 seed1) hp)) as H1.
  pose proof (run_spec dag
    (mkState (StochasticMapper.init cm il trials2 seed2) hp)) as H2.
  unfold starting_layout in H1, H2. cbn [self heap StochasticMapper.init
    StochasticMapper.initial_layout StochasticMapper.coupling_map
    StochasticMapper.swap_gate] in H1, H2.
  destruct (match il with
            | Some l0 => hp !! l0
            | None => Some (Pure.one_to_one (DAGCircuit.qregs dag))
            end) as [init|].
  - destruct H1 as (c1 & _ & H1), H2 as (c2 & _ & H2).
    destruct (Pure.route_layers None cm init (init, [])
                (DAGCircuit.serial_layers dag)) as [e|[cur' out]].
    + congruence.
    + destruct H1 as [-> _], H2 as [-> _]. done.
  - by rewrite H1, H2.
Qed.

(** C6 (the supplied layout is left alone): when the pass object holds a
    layout supplied by the caller, the run starts from its entries, and
    at the end of the run, successful or not, that layout object, like
    every layout object of the store, holds what it held, and the pass
    object still points to it: the exchanges went to a new object, the
    copy. *)
Theorem run_leaves_supplied_layout dag s l0 init :
  StochasticMapper.initial_layout (self s) = Some l0 →
  heap s !! l0 = Some init →
  heap (run dag s).2 !! l0 = Some init ∧
  StochasticMapper.initial_layout (self (run dag s).2) = Some l0 ∧
  (∀ l L, heap s !! l = Some L → heap (run dag s).2 !! l = Some L) ∧
  length (heap (run dag s).2) = S (length (heap s)) ∧
  (run dag s).1
  = (λ st, DAGCircuit.mk [] st.2)
      <$> Pure.route_layers (StochasticMapper.swap_gate (self s))
            (StochasticMapper.coupling_map (self s)) init
            (init, []) (DAGCircuit.serial_layers dag).
Proof.
  intros Hil Hl0. pose proof (run_spec dag s) as Hspec.
  unfold starting_layout, final_state in Hspec. rewrite Hil, Hl0 in Hspec.
  destruct Hspec as (cur'' & -> & Hr). cbn [self heap].
  split_and!; [by apply lookup_app_l_Some|done| | |].
  - intros l L ?. by apply lookup_app_l_Some.
  - rewrite length_app. cbn. lia.
  - destruct (Pure.route_layers _ _ init (init, []) _) as [e|[cur' out]];
      [done|]. by destruct Hr as [-> _].
Qed.

Lemma run_leaves_supplied_layout_witness :
  heap (run permute_wires_4 (supplied_store linear4)).2 !! 0
  = Some (Pure.one_to_one [qr4]) ∧
  StochasticMapper.initial_layout
    (self (run permute_wires_4 (supplied_store linear4)).2) = Some 0 ∧
  (∀ l L, heap (supplied_store linear4) !! l = Some L →
     heap (run permute_wires_4 (supplied_store linear4)).2 !! l = Some L) ∧
  length (heap (run permute_wires_4 (supplied_store linear4)).2)
  = S (length (heap (supplied_store linear4))) ∧
  (run permute_wires_4 (supplied_store linear4)).1
  = (λ st, DAGCircuit.mk [] st.2)
      <$> Pure.route_layers
            (StochasticMapper.swap_gate (self (supplied_store linear4)))
            (StochasticMapper.coupling_map (self (supplied_store linear4)))
            (Pure.one_to_one [qr4]) (Pure.one_to_one [qr4], [])
            (DAGCircuit.serial_layers permute_wires_4).
Proof.
  apply (run_leaves_supplied_layout permute_wires_4 (supplied_store linear4)
           0 (Pure.one_to_one [qr4])); reflexivity.
Defined.

(** A run that exchanges entries does change the copy: once the caller
    has set the [swap_gate] attribute, the supplied layout and the
    working copy differ after the run of [test_permute_wires_4]. *)
Example supplied_layout_and_copy_differ :
  heap (run permute_wires_4 (with_swap_gate (supplied_store linear4))).2 !! 0
  ≠ heap (run permute_wires_4 (with_swap_gate (supplied_store linear4))).2
      !! 1.
Proof. vm_compute. intros [=]. Qed.

(** ** Fewer physical than logical resources *)

(** C7, as stated, fails: the coupling graph has two physical resources,
    the program four logical ones, and the run returns a graph. *)
Lemma insufficient_resources_counterexample :
  length (Graph.physical_qubits [(0, 1)])
    < length (Pure.declared (DAGCircuit.qregs four_on_two)) ∧
  (create_one_to_one_layout four_on_two (fresh linear2)).1 = inr () ∧
  (run four_on_two (fresh linear2)).1
  = inr (DAGCircuit.mk [] [h (q 3); cx (q 0) (q 1)]).
Proof. vm_compute. split; [lia|done]. Qed.

(** C7, amended: the construction of the initial layout never fails and
    never consults the coupling graph: whatever the coupling graph, it
    assigns 0, 1, 2, ... to the declared logical resources in
    declaration order; and a run of a program whose operations are not
    two-qubit operations returns the operations of the program, however
    few physical resources the coupling graph has. *)
Theorem initial_layout_construction_never_fails dag s :
  StochasticMapper.initial_layout (self s) = None →
  NoDup (DAGCircuit.qregs dag) →
  Forall (λ n, length (qargs n) ≠ 2) (DAGCircuit.nodes dag) →
  (create_one_to_one_layout dag s).1 = inr () ∧
  (∀ i v, Pure.declared (DAGCircuit.qregs dag) !! i = Some v ↔
     ∃ l0 init,
       StochasticMapper.initial_layout
         (self (create_one_to_one_layout dag s).2) = Some l0 ∧
       heap (create_one_to_one_layout dag s).2 !! l0 = Some init ∧
       Layout.v2p init !! v = Some i) ∧
  ∃ out, (run dag s).1 = inr out ∧
    DAGCircuit.nodes out = DAGCircuit.nodes dag.
Proof.
  intros Hil Hnd Hno. rewrite create_one_to_one_layout_eq. cbn [fst snd].
  split_and!; [done| |].
  - intros i v. cbn [self heap StochasticMapper.initial_layout
      StochasticMapper.set_initial_layout].
    rewrite <- one_to_one_lookup by done. split.
    + intros Hv. eexists _, _. split_and!; [done| |done].
      by rewrite lookup_app_r, Nat.sub_diag by lia.
    + intros (l0 & init & [= <-] & Hinit & Hv).
      rewrite lookup_app_r, Nat.sub_diag in Hinit by lia.
      by injection Hinit as <-.
  - pose proof (run_spec dag s) as Hspec.
    unfold starting_layout in Hspec. rewrite Hil in Hspec.
    destruct Hspec as (cur'' & _ & Hr). destruct dag as [regs nodes].
    rewrite route_layers_noop in Hr.
    + destruct Hr as [-> _]. by eexists.
    + by apply one_to_one_consistent.
    + cbn in Hno. eapply Forall_impl; [done|].
      intros n Hn a b Hq. cbv beta in Hn. rewrite Hq in Hn. done.
Qed.

Lemma initial_layout_construction_never_fails_witness :
  (create_one_to_one_layout (DAGCircuit.mk [qr4] [h (q 3)])
     (fresh linear2)).1 = inr () ∧
  (∀ i v, Pure.declared [qr4] !! i = Some v ↔
     ∃ l0 init,
       StochasticMapper.initial_layout
         (self (create_one_to_one_layout (DAGCircuit.mk [qr4] [h (q 3)])
                  (fresh linear2)).2) = Some l0 ∧
       heap (create_one_to_one_layout (DAGCircuit.mk [qr4] [h (q 3)])
               (fresh linear2)).2 !! l0 = Some init ∧
       Layout.v2p init !! v = Some i) ∧
  ∃ out, (run (DAGCircuit.mk [qr4] [h (q 3)]) (fresh linear2)).1 = inr out ∧
    DAGCircuit.nodes out = [h (q 3)].
Proof.
  apply (initial_layout_construction_never_fails
           (DAGCircuit.mk [qr4] [h (q 3)]) (fresh linear2)).
  - reflexivity.
  - cbn. apply NoDup_singleton.
  - repeat constructor. cbn. lia.
Defined.

(** ** Two runs of one pass object *)

(** C8 fails on the code: the first run stores the layout it builds in
    the pass object (line 75), so a second run of the same object does
    not build one: it looks the qubits of its own program up in the
    layout of the first program.  Run first, the second program is
    returned unchanged; run second, it raises. *)
Lemma second_run_uses_first_layout :
  (run (cx_on "r") (fresh linear2)).1
  = inr (DAGCircuit.mk [] [cx (qr2 "r", 0) (qr2 "r", 1)]) ∧
  StochasticMapper.initial_layout
    (self (run (cx_on "q") (fresh linear2)).2) = Some 0 ∧
  (run (cx_on "r") (run (cx_on "q") (fresh linear2)).2).1 = inl KeyError.
Proof. vm_compute. done. Qed.

(** ** The linear graph of four resources *)

(** C9 fails on the code: the pass object [__init__] builds has no
    [swap_gate] attribute.  The one-to-one layout places the two qubits
    of the operation on the resources 0 and 3, which the coupling graph
    puts at distance 3 and connects by the path 0, 1, 2, 3; the run
    raises [AttributeError] where it would build the first swap of the
    chain (line 109), and returns no graph.  So does the run of the
    circuit of [test_permute_wires_4]. *)
Lemma endpoints_run_raises_attribute_error :
  StochasticMapper.swap_gate (self (fresh linear4)) = None ∧
  starting_layout endpoints (fresh linear4) = Some (Pure.one_to_one [qr4]) ∧
  Layout.v2p (Pure.one_to_one [qr4]) !! q 0 = Some 0 ∧
  Layout.v2p (Pure.one_to_one [qr4]) !! q 3 = Some 3 ∧
  Coupling.distance linear4 0 3 = inr 3 ∧
  Coupling.shortest_undirected_path linear4 0 3 = inr [0; 1; 2; 3] ∧
  (run endpoints (fresh linear4)).1 = inl AttributeError ∧
  (run permute_wires_4 (fresh linear4)).1 = inl AttributeError.
Proof. vm_compute. split_and!; done. Qed.

(** Once a caller has set the attribute, the run of the same program
    inserts the two swaps of the path, which carry one qubit of the
    operation from its end of the path to the last but one resource;
    the operation is then on the wires that stand for the last two
    resources of the path, 2 and 3. *)
Example endpoints_with_swap_gate :
  (run endpoints (equipped linear4)).1
  = inr (DAGCircuit.mk []
           [swap_node (q 0) (q 1); swap_node (q 1) (q 2); cx (q 2) (q 3)]).
Proof. vm_compute. reflexivity. Qed.


(** * Further properties of the run *)

Import MoreExamples.

(** ** A qubit the layout does not place *)

Lemma route_layers_unplaced sg cm init regs ns cur out n a :
  inv init cur → n ∈ ns → length (qargs n) = 2 → a ∈ qargs n →
  Layout.v2p init !! a = None →
  ∃ e, Pure.route_layers sg cm init (cur, out)
         (DAGCircuit.serial_layers (DAGCircuit.mk regs ns)) = inl e.
Proof.
  intros Hinv Hn Hlen Ha Hnone. revert cur out Hinv.
  induction ns as [|n0 ns IH]; intros cur out Hinv.
  { by apply elem_of_nil in Hn. }
  rewrite route_layers_serial_cons.
  destruct (Pure.route_layer sg cm init (cur, out) (DAGCircuit.mk regs [n0]))
    as [e|[cur1 out1]] eqn:Hl; pure_step; [by eexists|].
  apply route_serial_layer_inr in Hl as (mid & Hmid & Hinv1 & _); [|done].
  apply elem_of_cons in Hn as [<-|Hn]; [|by apply IH].
  rewrite decide_True in Hmid by done.
  destruct (route_cx_inr _ _ _ _ _ _ _ _ Hinv Hmid)
    as (x & y & px & py & d & Hx & Hy & Hpx & Hpy & _).
  rewrite (two_qargs n x y Hlen Hx Hy) in Ha.
  assert (is_Some (Layout.v2p init !! a)) as [? ?]; [|congruence].
  apply (inv_v _ _ Hinv).
  apply elem_of_cons in Ha as [->|Ha]; [by eexists|].
  apply list_elem_of_singleton in Ha as ->. by eexists.
Qed.

(** X2 (a qubit outside the layout): when a two-qubit operation of the
    program names a qubit that the starting layout does not place, the
    run raises and returns no graph, wherever the operation stands in
    the program: the swaps of the run never bring a new logical
    resource into the layout. *)
Theorem run_fails_on_unplaced_qubit dag s init n a :
  layout_precondition dag s →
  starting_layout dag s = Some init →
  n ∈ DAGCircuit.nodes dag → length (qargs n) = 2 → a ∈ qargs n →
  Layout.v2p init !! a = None →
  ∃ e, (run dag s).1 = inl e.
Proof.
  intros (init' & Hinit' & Hcons)%starting_layout_consistent Hinit Hn Hlen
    Ha Hnone.
  assert (init' = init) as -> by congruence.
  pose proof (run_spec dag s) as Hspec. rewrite Hinit in Hspec.
  destruct Hspec as (cur'' & _ & Hr). destruct dag as [regs nodes].
  destruct (route_layers_unplaced (StochasticMapper.swap_gate (self s))
              (StochasticMapper.coupling_map (self s))
              init regs nodes init [] n a
              (inv_refl init Hcons) Hn Hlen Ha Hnone) as [e He].
  rewrite He in Hr. by exists e.
Qed.

Lemma run_fails_on_unplaced_qubit_witness :
  ∃ e, (run (DAGCircuit.mk [qr4; qr2 "r"]
               [cx (q 0) (q 1); h (q 2); cx (q 1) (qr2 "r", 0)])
          (supplied_store linear4)).1 = inl e.
Proof.
  apply (run_fails_on_unplaced_qubit
           (DAGCircuit.mk [qr4; qr2 "r"]
              [cx (q 0) (q 1); h (q 2); cx (q 1) (qr2 "r", 0)])
           (supplied_store linear4) (Pure.one_to_one [qr4])
           (cx (q 1) (qr2 "r", 0)) (qr2 "r", 0)).
  - hnf. exists (Pure.one_to_one [qr4]). split; [reflexivity|].
    apply one_to_one_consistent, NoDup_singleton.
  - reflexivity.
  - cbn. do 2 right. left.
  - reflexivity.
  - cbn. right. left.
  - vm_compute. reflexivity.
Defined.

(** ** A failing operation leaves the store as it was *)

Lemma swap_nodes_inr_occupied sg cur ps swaps :
  Pure.swap_nodes sg cur ps = inr swaps →
  ∀ a b, (a, b) ∈ ps →
    is_Some (Layout.p2v cur !! a) ∧ is_Some (Layout.p2v cur !! b).
Proof.
  revert swaps. induction ps as [|[x y] ps IH]; intros swaps Hsw a b Hin.
  { by apply elem_of_nil in Hin. }
  cbn in Hsw. unfold Layout.get_physical in Hsw.
  destruct (Layout.p2v cur !! x) as [vx|] eqn:Hx; [|done].
  destruct (Layout.p2v cur !! y) as [vy|] eqn:Hy; [|done].
  pure_step in Hsw. destruct sg as [[]|]; [|done]. pure_step in Hsw.
  cbn [call] in Hsw.
  destruct (Pure.swap_nodes _ cur ps) as [e|rest]; [done|].
  apply elem_of_cons in Hin as [[= -> ->]|Hin]; [by split; eexists|].
  by eapply IH.
Qed.

(** X3 (no half-applied chain): when the routing of a two-qubit
    operation raises, wherever it raises (a lookup, a query of the
    coupling graph, or the read of the [swap_gate] attribute at line
    109), the store is as it was before the operation: every lookup,
    query and the whole swap layer come before the first exchange of the
    layout, and once the swap layer is built no exchange of its chain
    can fail. *)
Theorem route_cx_failure_leaves_store l0 lc init cur s nd a_cx e :
  related l0 lc init cur s →
  (route_cx lc nd a_cx s).1 = inl e →
  (route_cx lc nd a_cx s).2 = s.
Proof.
  intros Hrel. remember (route_cx lc nd a_cx s) as out eqn:Hout.
  unfold route_cx in Hout. rewrite bind_index in Hout.
  destruct (qargs a_cx !! 0) as [qarg_0|]; [|by subst out].
  rewrite (bind_get_virtual l0 lc init cur) in Hout by done.
  destruct (Layout.get_virtual cur qarg_0) as [e'|physical_q0];
    [by subst out|].
  rewrite bind_index in Hout.
  destruct (qargs a_cx !! 1) as [qarg_1|]; [|by subst out].
  rewrite (bind_get_virtual l0 lc init cur) in Hout by done.
  destruct (Layout.get_virtual cur qarg_1) as [e'|physical_q1];
    [by subst out|].
  rewrite bind_eq in Hout. unfold get_self at 1 in Hout.
  rewrite bind_lift in Hout.
  destruct (Coupling.distance _ physical_q0 physical_q1) as [e'|d];
    [by subst out|].
  case_decide as Hd; [|by subst out].
  rewrite bind_lift in Hout.
  destruct (Coupling.shortest_undirected_path _ physical_q0 physical_q1)
    as [e'|path]; [by subst out|].
  rewrite bind_eq,
    (build_swap_layer_eq l0 lc init _ cur path s Hrel eq_refl) in Hout.
  pose proof (swap_layer_of_nodes (StochasticMapper.swap_gate (self s)) cur
                (Pure.chain path) DAGCircuit.empty) as Hnodes.
  destruct (swap_layer_of _ cur (Pure.chain path) DAGCircuit.empty)
    as [e'|swap_layer]; [by subst out|].
  destruct (Pure.swap_nodes _ cur (Pure.chain path)) as [e'|swaps] eqn:Hsw;
    [done|].
  rewrite (bind_combine l0 lc init cur) in Hout by done.
  destruct (Layout.combine_into_edge_map cur init) as [e'|edge_map];
    [by subst out|].
  rewrite bind_eq in Hout.
  destruct (apply_chain_total cur (Pure.chain path)
              (swap_nodes_inr_occupied _ _ _ _ Hsw)) as [cur' Hch].
  destruct (update_current_layout_refines l0 lc init cur path s Hrel)
    as (c & Hs & Hr).
  rewrite Hch in Hr. cbn in Hr. destruct Hr as [Hr _].
  destruct (update_current_layout lc path s) as [r s']. cbn in Hr. subst r.
  by subst out.
Qed.

Lemma route_cx_failure_leaves_store_witness :
  (route_cx 1 DAGCircuit.empty (cx (q 0) (q 3))
     (routing_store linear4)).2 = routing_store linear4.
Proof.
  apply (route_cx_failure_leaves_store 0 1 (Pure.one_to_one [qr4])
           (Pure.one_to_one [qr4]) (routing_store linear4) DAGCircuit.empty
           (cx (q 0) (q 3)) AttributeError).
  - repeat split. lia.
  - vm_compute. reflexivity.
Defined.

(** ** The layout a run ends with *)

(** X4 (the layout stays a bijection): when a run returns a graph, the
    layout it leaves in its working copy is still a bijection, between
    the same logical resources and the same physical resources as the
    starting layout: the exchanges only permute who sits where. *)
Theorem run_keeps_layout_bijection dag s init out :
  layout_precondition dag s →
  starting_layout dag s = Some init →
  (run dag s).1 = inr out →
  ∃ cur', (run dag s).2 = final_state s init cur' ∧
    Layout.consistent cur' ∧
    (∀ v, is_Some (Layout.v2p cur' !! v) ↔ is_Some (Layout.v2p init !! v)) ∧
    (∀ p, is_Some (Layout.p2v cur' !! p) ↔ is_Some (Layout.p2v init !! p)).
Proof.
  intros (init' & Hinit' & Hcons)%starting_layout_consistent Hinit Hrun.
  assert (init' = init) as -> by congruence.
  destruct (run_inr dag s out init Hinit Hrun) as (cur' & ns & Hr & -> & Hs).
  destruct dag as [regs nodes].
  apply route_layers_inv in Hr as []; [|by apply inv_refl].
  by exists cur'.
Qed.

Lemma run_keeps_layout_bijection_witness :
  ∃ cur', (run back_and_forth (equipped linear4)).2
          = final_state (equipped linear4) (Pure.one_to_one [qr4]) cur' ∧
    Layout.consistent cur' ∧
    (∀ v, is_Some (Layout.v2p cur' !! v)
          ↔ is_Some (Layout.v2p (Pure.one_to_one [qr4]) !! v)) ∧
    (∀ p, is_Some (Layout.p2v cur' !! p)
          ↔ is_Some (Layout.p2v (Pure.one_to_one [qr4]) !! p)).
Proof.
  apply (run_keeps_layout_bijection back_and_forth (equipped linear4)
           (Pure.one_to_one [qr4])
           (DAGCircuit.mk []
              [swap_node (q 0) (q 1); swap_node (q 1) (q 2); cx (q 2) (q 3);
               h (q 0); swap_node (q 2) (q 1); cx (q 1) (q 0)])).
  - hnf. apply NoDup_singleton.
  - reflexivity.
  - vm_compute. reflexivity.
Defined.

Lemma replay_app init cur l1 l2 :
  replay init cur (l1 ++ l2)
  = cur' ← replay init cur l1; replay init cur' l2.
Proof.
  revert cur. induction l1 as [|n l1 IH]; intros cur; [done|].
  cbn [app replay]. destruct (replay_swap init cur n); [done|].
  pure_step. apply IH.
Qed.

Lemma chain_replay init cur ps swaps cur' :
  Layout.consistent init →
  Forall2 (swap_on init) ps swaps →
  Pure.apply_chain cur ps = inr cur' →
  replay init cur swaps = inr cur'.
Proof.
  intros Hinit Hsw. revert cur.
  induction Hsw as [|[a b] n ps ns (wa & wb & Ha & Hb & ->) _ IH];
    intros cur Hch; cbn in Hch; [done|].
  destruct (Layout.swap cur a b) as [e|cur1] eqn:Hs; [done|].
  pure_step in Hch. cbn [replay]. unfold replay_swap.
  rewrite swap_wires_swap_node. unfold Layout.get_virtual.
  cbn in Ha, Hb. apply Hinit in Ha, Hb. rewrite Ha, Hb. pure_step.
  rewrite Hs. pure_step. by apply IH.
Qed.

Lemma route_layers_replay sg cm init regs ns cur out cur' out' :
  inv init cur →
  Forall (λ n, swap_wires n = None) ns →
  Pure.route_layers sg cm init (cur, out)
    (DAGCircuit.serial_layers (DAGCircuit.mk regs ns)) = inr (cur', out') →
  ∃ suffix, out' = out ++ suffix ∧ replay init cur suffix = inr cur'.
Proof.
  intros Hinv Hno. revert cur out Hinv.
  induction Hno as [|n ns Hn _ IH]; intros cur out Hinv.
  { intros [= <- <-]. exists []. by rewrite app_nil_r. }
  rewrite route_layers_serial_cons.
  destruct (Pure.route_layer sg cm init (cur, out) (DAGCircuit.mk regs [n]))
    as [e|[cur1 out1]] eqn:Hl; [done|].
  pure_step. intros Hrest.
  apply route_serial_layer_inr in Hl as (mid & Hmid & Hinv1 & ->); [|done].
  destruct (IH _ _ Hinv1 Hrest) as (suffix & -> & Hsuffix).
  assert (∃ swaps, mid = out ++ swaps ∧ replay init cur swaps = inr cur1)
    as (swaps & -> & Hswaps).
  { case_decide.
    - destruct (route_cx_inr _ _ _ _ _ _ _ _ Hinv Hmid)
        as (a & b & pa & pb & d & _ & _ & _ & _ & _ & Hcase).
      destruct Hcase as [(_ & -> & ->)|(_ & path & swaps & _ & Hch & -> & Hsw)].
      + exists []. by rewrite app_nil_r.
      + exists swaps. split; [done|].
        eapply chain_replay; [by apply Hinv|done..].
    - destruct Hmid as [-> ->]. exists []. by rewrite app_nil_r. }
  eexists. split; [by rewrite <- !app_assoc|].
  rewrite replay_app, Hswaps. pure_step. cbn [app replay].
  unfold replay_swap at 1. rewrite swap_wires_renamed, Hn. by pure_step.
Qed.

(** X5 (layout and graph stay synchronized): for a program with no swap
    of its own, the layout a successful run leaves in its working copy
    can be read back from the returned graph alone: it is the starting
    layout on which every swap of the graph, in order, has exchanged the
    two physical resources that the starting layout gives to its
    wires. *)
Theorem run_layout_is_replay_of_swaps dag s init out :
  layout_precondition dag s →
  starting_layout dag s = Some init →
  Forall (λ n, swap_wires n = None) (DAGCircuit.nodes dag) →
  (run dag s).1 = inr out →
  ∃ cur', replay init init (DAGCircuit.nodes out) = inr cur' ∧
    (run dag s).2 = final_state s init cur'.
Proof.
  intros (init' & Hinit' & Hcons)%starting_layout_consistent Hinit Hno Hrun.
  assert (init' = init) as -> by congruence.
  destruct (run_inr dag s out init Hinit Hrun) as (cur' & ns & Hr & -> & Hs).
  destruct dag as [regs nodes].
  apply route_layers_replay in Hr as (suffix & -> & Hrep);
    [|by apply inv_refl|done].
  by exists cur'.
Qed.

Lemma run_layout_is_replay_of_swaps_witness :
  ∃ cur',
    replay (Pure.one_to_one [qr4]) (Pure.one_to_one [qr4])
      [swap_node (q 0) (q 1); swap_node (q 1) (q 2); cx (q 2) (q 3);
       h (q 0); swap_node (q 2) (q 1); cx (q 1) (q 0)] = inr cur' ∧
    (run back_and_forth (equipped linear4)).2
    = final_state (equipped linear4) (Pure.one_to_one [qr4]) cur'.
Proof.
  apply (run_layout_is_replay_of_swaps back_and_forth (equipped linear4)
           (Pure.one_to_one [qr4])
           (DAGCircuit.mk []
              [swap_node (q 0) (q 1); swap_node (q 1) (q 2); cx (q 2) (q 3);
               h (q 0); swap_node (q 2) (q 1); cx (q 1) (q 0)])).
  - hnf. apply NoDup_singleton.
  - reflexivity.
  - repeat constructor.
  - vm_compute. reflexivity.
Defined.

(** ** The one-to-one layout, register by register *)

Lemma declared_app regs1 regs2 :
  Pure.declared (regs1 ++ regs2) = Pure.declared regs1 ++ Pure.declared regs2.
Proof. unfold Pure.declared. apply bind_app. Qed.

Lemma declared_length regs : length (Pure.declared regs) = offset regs.
Proof.
  induction regs as [|r regs IH]; [done|].
  change (r :: regs) with ([r] ++ regs). rewrite declared_app, length_app, IH.
  unfold Pure.declared, offset. cbn.
  by rewrite app_nil_r, length_fmap, length_seq.
Qed.

Lemma declared_lookup pre r post i :
  i < reg_size r →
  Pure.declared (pre ++ r :: post) !! (offset pre + i) = Some (r, i).
Proof.
  intros Hi. rewrite declared_app, lookup_app_r, declared_length by
    (rewrite declared_length; lia).
  replace (offset pre + i - offset pre) with i by lia.
  change (r :: post) with ([r] ++ post). rewrite declared_app.
  unfold Pure.declared at 1. cbn. rewrite app_nil_r.
  rewrite lookup_app_l by (by rewrite length_fmap, length_seq).
  rewrite list_lookup_fmap, lookup_seq_lt by done. done.
Qed.

(** X6 (the default layout): a run without a supplied layout, whether it
    returns or raises, leaves in the pass object a new layout object,
    which places qubit [i] of a register on the physical resource
    numbered by the sizes of the registers declared before it, plus [i];
    the resources it uses are exactly those below the number of
    declared qubits; the swaps of the run go to a second new object, and
    every object the store held before is as it was. *)
Theorem run_stores_default_layout dag s pre r post i :
  StochasticMapper.initial_layout (self s) = None →
  NoDup (DAGCircuit.qregs dag) →
  DAGCircuit.qregs dag = pre ++ r :: post →
  i < reg_size r →
  ∃ cur init,
    (run dag s).2 = default_store dag s cur ∧
    heap (run dag s).2 !! length (heap s) = Some init ∧
    Layout.v2p init !! (r, i) = Some (offset pre + i) ∧
    Layout.p2v init !! (offset pre + i) = Some (r, i) ∧
    (∀ p, is_Some (Layout.p2v init !! p) ↔ p < offset (DAGCircuit.qregs dag)) ∧
    (∀ l L, heap s !! l = Some L → heap (run dag s).2 !! l = Some L).
Proof.
  intros Hil Hnd Hregs Hi. pose proof (run_spec dag s) as Hspec.
  unfold starting_layout, final_state in Hspec. rewrite Hil in Hspec.
  destruct Hspec as (cur & Hs & _).
  exists cur, (Pure.one_to_one (DAGCircuit.qregs dag)).
  rewrite Hs. cbn [heap].
  assert (Layout.v2p (Pure.one_to_one (DAGCircuit.qregs dag)) !! (r, i)
          = Some (offset pre + i)) as Hv.
  { apply one_to_one_lookup; [done|]. rewrite Hregs.
    by apply declared_lookup. }
  split_and!.
  - done.
  - by rewrite lookup_app_r, Nat.sub_diag by lia.
  - done.
  - by apply one_to_one_consistent.
  - intros p. rewrite <- declared_length. split.
    + intros [v Hp]. apply one_to_one_consistent in Hp; [|done].
      apply one_to_one_lookup in Hp; [|done]. by eapply lookup_lt_Some.
    + intros [v Hp]%lookup_lt_is_Some. exists v.
      apply one_to_one_consistent; [done|]. by apply one_to_one_lookup.
  - intros l L HL. by apply lookup_app_l_Some.
Qed.

Lemma run_stores_default_layout_witness :
  ∃ cur init,
    (run two_registers (fresh linear5)).2
    = default_store two_registers (fresh linear5) cur ∧
    heap (run two_registers (fresh linear5)).2 !! length (heap (fresh linear5))
    = Some init ∧
    Layout.v2p init !! (rb, 1) = Some (offset [ra] + 1) ∧
    Layout.p2v init !! (offset [ra] + 1) = Some (rb, 1) ∧
    (∀ p, is_Some (Layout.p2v init !! p)
          ↔ p < offset (DAGCircuit.qregs two_registers)) ∧
    (∀ l L, heap (fresh linear5) !! l = Some L →
       heap (run two_registers (fresh linear5)).2 !! l = Some L).
Proof.
  apply (run_stores_default_layout two_registers (fresh linear5) [ra] rb [] 1).
  - reflexivity.
  - cbn. apply NoDup_cons. split; [|apply NoDup_singleton].
    intros [=]%list_elem_of_singleton.
  - reflexivity.
  - cbn. lia.
Defined.

(** ** Running the pass again on its own output *)

(** X7 (a second run is idle): when a run returns a graph, a second run
    of the same pass object on that graph returns its operations
    unchanged and inserts no swap: the pass object still holds the
    starting layout of the first run, under which every two-qubit
    operation of the first output is on directly connected
    resources. *)
Theorem run_again_on_output dag s out dag2 :
  Coupling.contract (StochasticMapper.coupling_map (self s)) →
  layout_precondition dag s →
  (∀ n, n ∈ DAGCircuit.nodes dag → NoDup (qargs n)) →
  (run dag s).1 = inr out →
  DAGCircuit.nodes dag2 = DAGCircuit.nodes out →
  (run dag2 (run dag s).2).1 = inr (DAGCircuit.mk [] (DAGCircuit.nodes out)).
Proof.
  intros Hcm (init & Hinit & Hcons)%starting_layout_consistent Hwf Hrun Hdag2.
  destruct (run_inr dag s out init Hinit Hrun) as (cur' & ns & Hr & -> & Hs).
  assert (Forall (adjacent_under (StochasticMapper.coupling_map (self s)) init)
            ns) as Hadj.
  { destruct dag as [regs nodes].
    eapply route_layers_adjacent; [done|by apply inv_refl|done| |done].
    constructor. }
  pose proof (run_spec dag2 (run dag s).2) as Hspec. rewrite Hs in Hspec.
  assert (starting_layout dag2 (final_state s init cur') = Some init
          ∧ StochasticMapper.coupling_map (self (final_state s init cur'))
            = StochasticMapper.coupling_map (self s)) as [Hinit2 Hcm2].
  { unfold starting_layout, final_state in *.
    destruct (StochasticMapper.initial_layout (self s)) as [l0|] eqn:Hil; cbn.
    - rewrite Hil. split; [|done]. by apply lookup_app_l_Some.
    - split; [|done]. by rewrite lookup_app_r, Nat.sub_diag by lia. }
  rewrite Hinit2, Hcm2 in Hspec. destruct Hspec as (c & _ & Hr2).
  destruct dag2 as [regs2 nodes2]. cbn in Hdag2. subst nodes2.
  rewrite route_layers_noop in Hr2 by done.
  rewrite Hs. by destruct Hr2 as [-> _].
Qed.

Lemma run_again_on_output_witness :
  (run (DAGCircuit.mk [qr4]
          [h (q 3); swap_node (q 3) (q 2); swap_node (q 2) (q 1);
           cx (q 1) (q 0)])
     (run permute_wires_4 (equipped linear4)).2).1
  = inr (DAGCircuit.mk []
           [h (q 3); swap_node (q 3) (q 2); swap_node (q 2) (q 1);
            cx (q 1) (q 0)]).
Proof.
  apply (run_again_on_output permute_wires_4 (equipped linear4)
           (DAGCircuit.mk [] [h (q 3); swap_node (q 3) (q 2);
                               swap_node (q 2) (q 1); cx (q 1) (q 0)])
           (DAGCircuit.mk [qr4]
              [h (q 3); swap_node (q 3) (q 2); swap_node (q 2) (q 1);
               cx (q 1) (q 0)])).
  - apply GraphFacts.coupling_contract.
  - hnf. apply NoDup_singleton.
  - intros n Hn. cbn in Hn. repeat (apply elem_of_cons in Hn as [->|Hn]);
      [cbn..|by apply elem_of_nil in Hn].
    + apply NoDup_singleton.
    + apply NoDup_cons. split; [|apply NoDup_singleton].
      intros [=]%list_elem_of_singleton.
  - vm_compute. reflexivity.
  - reflexivity.
Defined.

(** ** The output only grows *)

Lemma route_cx_grows sg cm init st a_cx st' :
  Pure.route_cx sg cm init st a_cx = inr st' → st.2 `prefix_of` st'.2.
Proof.
  unfold Pure.route_cx.
  destruct (from_option IndexError (qargs a_cx !! 0)); pure_step; [done|].
  destruct (Layout.get_virtual st.1 _); pure_step; [done|].
  destruct (from_option IndexError (qargs a_cx !! 1)); pure_step; [done|].
  destruct (Layout.get_virtual st.1 _); pure_step; [done|].
  destruct (Coupling.distance cm _ _); pure_step; [done|].
  case_decide; [|by intros [= <-]].
  destruct (Coupling.shortest_undirected_path cm _ _); pure_step; [done|].
  destruct (Pure.swap_nodes _ st.1 _); pure_step; [done|].
  destruct (Layout.combine_into_edge_map st.1 init); pure_step; [done|].
  destruct (Pure.apply_chain st.1 _); pure_step; [done|].
  intros [= <-]. by apply prefix_app_r.
Qed.

Lemma route_cxs_grows sg cm init st cxs st' :
  Pure.route_cxs sg cm init st cxs = inr st' → st.2 `prefix_of` st'.2.
Proof.
  revert st. induction cxs as [|a_cx cxs IH]; intros st; cbn.
  { by intros [= <-]. }
  destruct (Pure.route_cx sg cm init st a_cx) as [e|st1] eqn:H1; pure_step;
    [done|].
  intros ?%IH. etrans; [by eapply route_cx_grows|done].
Qed.

Lemma route_layer_grows sg cm init st subdag st' :
  Pure.route_layer sg cm init st subdag = inr st' → st.2 `prefix_of` st'.2.
Proof.
  unfold Pure.route_layer.
  destruct (Pure.route_cxs sg cm init st _) as [e|st1] eqn:H1; pure_step;
    [done|].
  destruct (Layout.combine_into_edge_map st1.1 init); pure_step; [done|].
  intros [= <-]. cbn. etrans; [by eapply route_cxs_grows|].
  by apply prefix_app_r.
Qed.

Lemma route_layers_grows sg cm init st layers st' :
  Pure.route_layers sg cm init st layers = inr st' → st.2 `prefix_of` st'.2.
Proof.
  revert st. induction layers as [|l layers IH]; intros st; cbn.
  { by intros [= <-]. }
  destruct (Pure.route_layer sg cm init st l) as [e|st1] eqn:H1; pure_step;
    [done|].
  intros ?%IH. etrans; [by eapply route_layer_grows|done].
Qed.

(** X8 (no look-ahead, no revision): the routing of a program begins
    with the routing of each of its prefixes: when the run of a program
    returns a graph, the run of the same pass on the first operations of
    the program alone returns a graph too, and its operations are the
    first operations of the other; later operations neither change nor
    reorder what was emitted for earlier ones. *)
Theorem run_of_prefix regs ns1 ns2 s out :
  (run (DAGCircuit.mk regs (ns1 ++ ns2)) s).1 = inr out →
  ∃ out1, (run (DAGCircuit.mk regs ns1) s).1 = inr out1 ∧
    DAGCircuit.nodes out1 `prefix_of` DAGCircuit.nodes out.
Proof.
  intros Hrun.
  pose proof (run_spec (DAGCircuit.mk regs (ns1 ++ ns2)) s) as H12.
  pose proof (run_spec (DAGCircuit.mk regs ns1) s) as H1.
  unfold starting_layout in H12, H1. cbn [DAGCircuit.qregs] in H12, H1.
  destruct (match StochasticMapper.initial_layout (self s) with
            | Some l0 => heap s !! l0
            | None => Some (Pure.one_to_one regs)
            end) as [init|].
  2:{ rewrite H12 in Hrun. done. }
  destruct H12 as (c12 & _ & H12), H1 as (c1 & _ & H1).
  rewrite serial_layers_app, route_layers_app in H12.
  destruct (Pure.route_layers _ _ init (init, [])
              (DAGCircuit.serial_layers (DAGCircuit.mk regs ns1)))
    as [e|[cur1 out1]]; pure_step in H12; [congruence|].
  destruct H1 as [H1 _]. eexists. split; [done|].
  destruct (Pure.route_layers _ _ init (cur1, out1) _) as [e|[cur2 out2]] eqn:H2;
    [congruence|].
  destruct H12 as [H12 _]. rewrite Hrun in H12. injection H12 as ->.
  by apply route_layers_grows in H2.
Qed.

Lemma run_of_prefix_witness :
  ∃ out1, (run (DAGCircuit.mk [qr4] [cx (q 0) (q 3); h (q 1)])
             (equipped linear4)).1 = inr out1 ∧
    DAGCircuit.nodes out1
    `prefix_of` [swap_node (q 0) (q 1); swap_node (q 1) (q 2);
                 cx (q 2) (q 3); h (q 0); swap_node (q 2) (q 1);
                 cx (q 1) (q 0)].
Proof.
  apply (run_of_prefix [qr4] [cx (q 0) (q 3); h (q 1)] [cx (q 0) (q 1)]
           (equipped linear4)
           (DAGCircuit.mk []
              [swap_node (q 0) (q 1); swap_node (q 1) (q 2); cx (q 2) (q 3);
               h (q 0); swap_node (q 2) (q 1); cx (q 1) (q 0)])).
  vm_compute. reflexivity.
Defined.

(** ** The operations of the output are well formed *)

Lemma chain_distinct path a b :
  NoDup path → (a, b) ∈ Pure.chain path → a ≠ b.
Proof.
  intros Hnd (i & Hi)%list_elem_of_lookup_1. rewrite chain_lookup in Hi.
  case_decide; [|done].
  destruct (path !! i) as [a'|] eqn:Ha; [|done].
  destruct (path !! S i) as [b'|] eqn:Hb; [|done].
  injection Hi as -> ->. intros ->.
  pose proof (NoDup_lookup _ _ _ _ Hnd Ha Hb). lia.
Qed.

Lemma swaps_distinct_wires cm init p q path swaps :
  Coupling.contract cm → Layout.consistent init →
  Coupling.shortest_undirected_path cm p q = inr path →
  Forall2 (swap_on init) (Pure.chain path) swaps →
  Forall (λ n, NoDup (qargs n)) swaps.
Proof.
  intros Hcm Hinit Hpath Hsw.
  assert (∀ ab, ab ∈ Pure.chain path → ab.1 ≠ ab.2) as Hne.
  { intros [a b] ?. eapply chain_distinct; [|done].
    by eapply Coupling.path_NoDup. }
  induction Hsw as [|[a b] n ps ns (wa & wb & Ha & Hb & ->) _ IH];
    constructor.
  - cbn in *. apply NoDup_cons. split; [|apply NoDup_singleton].
    intros ->%list_elem_of_singleton. apply Hinit in Ha, Hb.
    apply (Hne (a, b)); [left|]. cbn. congruence.
  - apply IH. intros ab ?. apply Hne. by right.
Qed.

Lemma route_layers_NoDup sg cm init regs ns cur out cur' out' :
  Coupling.contract cm → inv init cur →
  (∀ n, n ∈ ns → NoDup (qargs n)) →
  Forall (λ n, NoDup (qargs n)) out →
  Pure.route_layers sg cm init (cur, out)
    (DAGCircuit.serial_layers (DAGCircuit.mk regs ns)) = inr (cur', out') →
  Forall (λ n, NoDup (qargs n)) out'.
Proof.
  intros Hcm. revert cur out.
  induction ns as [|n ns IH]; intros cur out Hinv Hwf Hout.
  { by intros [= <- <-]. }
  rewrite route_layers_serial_cons.
  destruct (Pure.route_layer sg cm init (cur, out) (DAGCircuit.mk regs [n]))
    as [e|[cur1 out1]] eqn:Hl; [done|].
  pure_step.
  apply route_serial_layer_inr in Hl as (mid & Hmid & Hinv1 & ->); [|done].
  apply IH; [done|by intros; apply Hwf; right|].
  apply Forall_app. split.
  - case_decide.
    + destruct (route_cx_inr _ _ _ _ _ _ _ _ Hinv Hmid)
        as (a & b & pa & pb & d & _ & _ & _ & _ & _ & Hcase).
      destruct Hcase as [(_ & _ & ->)|(_ & path & swaps & Hp & _ & -> & Hsw)];
        [done|].
      apply Forall_app. split; [done|].
      eapply swaps_distinct_wires; [done|by apply Hinv|done..].
    + by destruct Hmid as [_ ->].
  - constructor; [|done]. cbn. apply NoDup_fmap_2; [|apply Hwf; left].
    intros v1 v2. by apply output_wire_inj.
Qed.

(** X9 (distinct wires): when the operations of the program each name
    distinct qubits, so do the operations of the returned graph, the
    inserted swaps included: the rename map never sends two qubits to
    one wire, and a swap never sits on one wire twice. *)
Theorem run_keeps_arguments_distinct dag s out :
  Coupling.contract (StochasticMapper.coupling_map (self s)) →
  layout_precondition dag s →
  (∀ n, n ∈ DAGCircuit.nodes dag → NoDup (qargs n)) →
  (run dag s).1 = inr out →
  ∀ n, n ∈ DAGCircuit.nodes out → NoDup (qargs n).
Proof.
  intros Hcm (init & Hinit & Hcons)%starting_layout_consistent Hwf Hrun.
  destruct (run_inr dag s out init Hinit Hrun) as (cur' & ns & Hr & -> & _).
  apply Forall_forall. destruct dag as [regs nodes].
  eapply route_layers_NoDup; [done|by apply inv_refl|done| |done].
  constructor.
Qed.

Lemma run_keeps_arguments_distinct_witness :
  Forall (λ n, NoDup (qargs n))
    [h (q 3); swap_node (q 3) (q 2); swap_node (q 2) (q 1); cx (q 1) (q 0)].
Proof.
  apply Forall_forall.
  apply (run_keeps_arguments_distinct permute_wires_4 (equipped linear4)
           (DAGCircuit.mk [] [h (q 3); swap_node (q 3) (q 2);
                               swap_node (q 2) (q 1); cx (q 1) (q 0)])).
  - apply GraphFacts.coupling_contract.
  - hnf. apply NoDup_singleton.
  - intros n Hn. cbn in Hn. repeat (apply elem_of_cons in Hn as [->|Hn]);
      [cbn..|by apply elem_of_nil in Hn].
    + apply NoDup_singleton.
    + apply NoDup_cons. split; [|apply NoDup_singleton].
      intros [=]%list_elem_of_singleton.
  - vm_compute. reflexivity.
Defined.

(** ** The registers of a swap layer *)

Lemma swap_layer_of_registers sg cur ps acc swap_layer :
  declares_its_registers acc →
  swap_layer_of sg cur ps acc = inr swap_layer →
  declares_its_registers swap_layer.
Proof.
  revert acc. induction ps as [|[a b] ps IH]; intros acc Hacc; cbn.
  { by intros [= <-]. }
  destruct (Layout.get_physical cur a) as [e|x]; pure_step; [done|].
  destruct (Layout.get_physical cur b) as [e|y]; pure_step; [done|].
  destruct sg as [[]|]; pure_step; [|done]. cbn [call].
  apply IH. destruct Hacc as [Hnd Hiff].
  set (acc1 := if decide (x.1 ∈ DAGCircuit.qregs acc) then acc
               else DAGCircuit.add_qreg acc x.1).
  assert (NoDup (DAGCircuit.qregs acc1) ∧
          DAGCircuit.nodes acc1 = DAGCircuit.nodes acc ∧
          ∀ r, r ∈ DAGCircuit.qregs acc1 ↔
               r ∈ DAGCircuit.qregs acc ∨ r = x.1) as (Hnd1 & Hn1 & Hiff1).
  { unfold acc1. case_decide as Hx; cbn.
    - split_and!; [done..|]. intros r. split; [by left|].
      by intros [?| ->].
    - split_and!; [|done|].
      + apply NoDup_app. split_and!; [done| |apply NoDup_singleton].
        by intros r ? ->%list_elem_of_singleton.
      + intros r. by rewrite elem_of_app, list_elem_of_singleton. }
  set (acc2 := if decide (y.1 ∈ DAGCircuit.qregs acc1) then acc1
               else DAGCircuit.add_qreg acc1 y.1).
  assert (NoDup (DAGCircuit.qregs acc2) ∧
          DAGCircuit.nodes acc2 = DAGCircuit.nodes acc ∧
          ∀ r, r ∈ DAGCircuit.qregs acc2 ↔
               r ∈ DAGCircuit.qregs acc ∨ r = x.1 ∨ r = y.1)
    as (Hnd2 & Hn2 & Hiff2).
  { unfold acc2. case_decide as Hy; cbn.
    - split_and!; [done..|]. intros r. rewrite Hiff1. split; [tauto|].
      intros [?|[?| ->]]; [tauto..|]. by apply Hiff1.
    - split_and!; [|done|].
      + apply NoDup_app. split_and!; [done| |apply NoDup_singleton].
        by intros r ? ->%list_elem_of_singleton.
      + intros r. rewrite elem_of_app, list_elem_of_singleton, Hiff1. tauto. }
  split; [done|]. intros r. cbn. rewrite Hiff2, Hn2, Hiff. split.
  - intros [(n & v & Hn & Hv & Hr)|[-> | ->]].
    + exists n, v. split_and!; [|done..]. apply elem_of_app. by left.
    + exists (swap_node x y), x. split_and!; [|by left|done].
      apply elem_of_app. right. by left.
    + exists (swap_node x y), y. split_and!; [|by right; left|done].
      apply elem_of_app. right. by left.
  - intros (n & v & [Hn| ->%list_elem_of_singleton]%elem_of_app & Hv & Hr).
    + left. by exists n, v.
    + cbn in Hv. apply elem_of_cons in Hv as [->|Hv]; [by right; left|].
      apply list_elem_of_singleton in Hv as ->. by right; right.
Qed.

(** X10 (the registers of a swap layer): the swap layer of a path
    declares each register at most once, and declares exactly the
    registers of the logical resources its swaps name: the two tests of
    lines 102 and 104 add a register only when the layer lacks it. *)
Theorem swap_layer_declares_its_registers l0 lc init cur s path swap_layer :
  related l0 lc init cur s →
  (build_swap_layer lc path s).1 = inr swap_layer →
  declares_its_registers swap_layer.
Proof.
  intros Hrel.
  rewrite (build_swap_layer_eq l0 lc init _ cur path s Hrel eq_refl).
  cbn [fst]. apply swap_layer_of_registers. split; [apply NoDup_nil_2|].
  intros r. split; [by intros ?%elem_of_nil|].
  by intros (n & v & ?%elem_of_nil & _).
Qed.

Lemma swap_layer_declares_its_registers_witness :
  declares_its_registers
    (DAGCircuit.mk [qr4] [swap_node (q 0) (q 1); swap_node (q 1) (q 2)]).
Proof.
  apply (swap_layer_declares_its_registers 0 1 (Pure.one_to_one [qr4])
           (Pure.one_to_one [qr4]) (equipped_routing_store linear4)
           [0; 1; 2; 3]).
  - repeat split. lia.
  - vm_compute. reflexivity.
Defined.

(** ** A path through a resource that holds nothing *)

Lemma swap_nodes_unoccupied sg cur ps a b :
  (a, b) ∈ ps →
  Layout.p2v cur !! a = None ∨ Layout.p2v cur !! b = None →
  ∃ e, Pure.swap_nodes sg cur ps = inl e.
Proof.
  intros Hin Hnone.
  destruct (Pure.swap_nodes _ cur ps) as [e|swaps] eqn:Hsw; [by eexists|].
  destruct (swap_nodes_inr_occupied _ _ _ _ Hsw a b Hin) as [[? ?] [? ?]].
  destruct Hnone; congruence.
Qed.

(** X11 (an unoccupied resource on the path): when the path between the
    two resources of a two-qubit operation passes, before its last
    resource, through a physical resource on which the current layout
    places no logical resource, the routing of the operation raises and
    appends nothing: the swap layer names every swap by the two logical
    resources it exchanges (lines 98 and 99). *)
Theorem route_cx_unoccupied_path l0 lc init cur s nd a_cx a b p q d path x y :
  related l0 lc init cur s →
  qargs a_cx = [a; b] →
  Layout.v2p cur !! a = Some p → Layout.v2p cur !! b = Some q →
  Coupling.distance (StochasticMapper.coupling_map (self s)) p q = inr d →
  d ≠ 1 →
  Coupling.shortest_undirected_path (StochasticMapper.coupling_map (self s))
    p q = inr path →
  (x, y) ∈ Pure.chain path →
  Layout.p2v cur !! x = None ∨ Layout.p2v cur !! y = None →
  ∃ e, (route_cx lc nd a_cx s).1 = inl e.
Proof.
  intros Hrel Hq Hp Hpq Hd Hd1 Hpath Hin Hnone.
  destruct (route_cx_refines l0 lc init _ _ cur nd a_cx s Hrel eq_refl
              eq_refl) as (c & _ & Hr).
  destruct (swap_nodes_unoccupied (StochasticMapper.swap_gate (self s)) cur
              _ x y Hin Hnone) as [e He].
  assert (Pure.route_cx (StochasticMapper.swap_gate (self s))
            (StochasticMapper.coupling_map (self s)) init
            (cur, DAGCircuit.nodes nd) a_cx = inl e) as Hpure.
  { unfold Pure.route_cx, Layout.get_virtual. cbn [fst snd].
    rewrite Hq. cbn [lookup list_lookup]. pure_step. rewrite Hp. pure_step.
    rewrite Hpq. pure_step. rewrite Hd. pure_step.
    rewrite decide_True by done. rewrite Hpath. pure_step.
    by rewrite He. }
  rewrite Hpure in Hr. by exists e.
Qed.

Lemma route_cx_unoccupied_path_witness :
  ∃ e, (route_cx 1 DAGCircuit.empty (cx (qr2 "q", 0) (qr2 "q", 1))
          ends_only_store).1 = inl e.
Proof.
  apply (route_cx_unoccupied_path 0 1 ends_only ends_only ends_only_store
           DAGCircuit.empty (cx (qr2 "q", 0) (qr2 "q", 1))
           (qr2 "q", 0) (qr2 "q", 1) 0 2 2 [0; 1; 2] 0 1).
  - repeat split. lia.
  - reflexivity.
  - reflexivity.
  - reflexivity.
  - vm_compute. reflexivity.
  - lia.
  - vm_compute. reflexivity.
  - cbn. left.
  - right. reflexivity.
Defined.

(** ** When the run returns *)

Lemma one_to_one_occupied regs p :
  NoDup regs →
  is_Some (Layout.p2v (Pure.one_to_one regs) !! p) ↔ p < offset regs.
Proof.
  intros Hnd. rewrite <- declared_length. split.
  - intros [v Hp]. apply one_to_one_consistent in Hp; [|done].
    apply one_to_one_lookup in Hp; [|done]. by eapply lookup_lt_Some.
  - intros [v Hp]%lookup_lt_is_Some. exists v.
    apply one_to_one_consistent; [done|]. by apply one_to_one_lookup.
Qed.

Lemma route_cx_total sg cm init cur out n :
  is_Some sg → inv init cur → connects_occupied cm init →
  length (qargs n) = 2 →
  (∀ a, a ∈ qargs n → is_Some (Layout.v2p init !! a)) →
  ∃ st', Pure.route_cx sg cm init (cur, out) n = inr st'.
Proof.
  intros Hsg Hinv Hconn Hlen Hplaced.
  destruct (qargs n) as [|a [|b [|? ?]]] eqn:Hq; try done.
  assert (is_Some (Layout.v2p cur !! a)) as [p Hp].
  { apply (inv_v _ _ Hinv), Hplaced. left. }
  assert (is_Some (Layout.v2p cur !! b)) as [q Hq'].
  { apply (inv_v _ _ Hinv), Hplaced. right. left. }
  assert (∀ v x, Layout.v2p cur !! v = Some x →
            is_Some (Layout.p2v init !! x)) as Hocc.
  { intros v x Hv. apply (inv_p _ _ Hinv). exists v.
    by apply (inv_cur _ _ Hinv). }
  destruct (Hconn p q) as (d & path & Hd & Hpath & Hon); [by eauto..|].
  unfold Pure.route_cx, Layout.get_virtual. cbn [fst snd].
  rewrite Hq. cbn [lookup list_lookup]. pure_step. rewrite Hp. pure_step.
  rewrite Hq'. pure_step. rewrite Hd. pure_step.
  case_decide; [|by eexists].
  rewrite Hpath. pure_step.
  assert (∀ x y, (x, y) ∈ Pure.chain path →
            is_Some (Layout.p2v cur !! x) ∧ is_Some (Layout.p2v cur !! y))
    as Hchain.
  { intros x y [Hx Hy]%chain_elem_of.
    split; apply (inv_p _ _ Hinv), Hon; done. }
  destruct (swap_nodes_total sg cur _ Hsg Hchain) as [swaps ->]. pure_step.
  destruct (combine_inr init cur Hinv) as (em & -> & _). pure_step.
  destruct (apply_chain_total cur _ Hchain) as [cur' ->]. pure_step.
  by eexists.
Qed.

Lemma route_layers_total sg cm init regs ns cur out :
  is_Some sg → inv init cur → connects_occupied cm init →
  (∀ n a, n ∈ ns → length (qargs n) = 2 → a ∈ qargs n →
     is_Some (Layout.v2p init !! a)) →
  ∃ st', Pure.route_layers sg cm init (cur, out)
           (DAGCircuit.serial_layers (DAGCircuit.mk regs ns)) = inr st'.
Proof.
  intros Hsg Hinv Hconn. revert cur out Hinv.
  induction ns as [|n ns IH]; intros cur out Hinv Hplaced; [by eexists|].
  rewrite route_layers_serial_cons.
  assert (∃ st1, Pure.route_layer sg cm init (cur, out) (DAGCircuit.mk regs [n])
                 = inr st1) as [[cur1 out1] Hl].
  { unfold Pure.route_layer, DAGCircuit.get_cnot_nodes.
    cbn [DAGCircuit.nodes]. rewrite filter_cons, filter_nil.
    case_decide as Hlen; cbn [Pure.route_cxs].
    - destruct (route_cx_total sg cm init cur out n Hsg Hinv Hconn Hlen)
        as [[c o] Hcx].
      { intros a. apply Hplaced; [left|done]. }
      rewrite Hcx. pure_step. cbn [fst snd].
      destruct (combine_inr init c) as (em & -> & _); [|by eexists].
      by eapply route_cx_inv.
    - pure_step. cbn [fst snd].
      destruct (combine_inr init cur Hinv) as (em & -> & _).
      by eexists. }
  rewrite Hl. pure_step.
  apply route_serial_layer_inr in Hl as (mid & _ & Hinv1 & _); [|done].
  apply IH; [done|]. intros n' a Hn'. apply Hplaced. by right.
Qed.

(** X12 (when the run returns): the run returns a graph whenever a
    caller has given the pass object its [swap_gate] attribute, the
    starting layout is a bijection that places every qubit of the
    two-qubit operations of the program, and the coupling graph gives,
    for any two resources the layout occupies, a distance and a path
    through occupied resources.  No other lookup of the loop (lines 83
    to 121) can fail: the swaps keep the layout over the same
    resources. *)
Theorem run_returns dag s init :
  is_Some (StochasticMapper.swap_gate (self s)) →
  layout_precondition dag s →
  starting_layout dag s = Some init →
  connects_occupied (StochasticMapper.coupling_map (self s)) init →
  (∀ n a, n ∈ DAGCircuit.nodes dag → length (qargs n) = 2 → a ∈ qargs n →
     is_Some (Layout.v2p init !! a)) →
  ∃ out, (run dag s).1 = inr out.
Proof.
  intros Hsg (init' & Hinit' & Hcons)%starting_layout_consistent Hinit Hconn
    Hplaced.
  assert (init' = init) as -> by congruence.
  pose proof (run_spec dag s) as Hspec. rewrite Hinit in Hspec.
  destruct Hspec as (cur'' & _ & Hr). destruct dag as [regs nodes].
  destruct (route_layers_total (StochasticMapper.swap_gate (self s))
              (StochasticMapper.coupling_map (self s))
              init regs nodes init [] Hsg (inv_refl init Hcons) Hconn
              Hplaced)
    as [[cur' ns] He].
  rewrite He in Hr. destruct Hr as [Hr _]. by eexists.
Qed.

Lemma run_returns_witness :
  ∃ out, (run back_and_forth (equipped linear4)).1 = inr out.
Proof.
  apply (run_returns back_and_forth (equipped linear4)
           (Pure.one_to_one [qr4])).
  - by eexists.
  - hnf. apply NoDup_singleton.
  - reflexivity.
  - intros p q' Hp%one_to_one_occupied Hq%one_to_one_occupied;
      try apply NoDup_singleton.
    assert (∀ path, Forall (λ x, x < 4) path →
              ∀ x, x ∈ path →
                is_Some (Layout.p2v (Pure.one_to_one [qr4]) !! x)) as Hon.
    { intros path Hall x Hx. apply one_to_one_occupied;
        [apply NoDup_singleton|].
      by apply (proj1 (Forall_forall _ _) Hall). }
    cbn in Hp, Hq.
    destruct p as [|[|[|[|?]]]]; try lia;
      destruct q' as [|[|[|[|?]]]]; try lia;
      eexists _, _; (split; [vm_compute; reflexivity|]);
      (split; [vm_compute; reflexivity|]); apply Hon;
      repeat constructor.
  - intros n a Hn _ Ha. cbn in Hn.
    repeat (apply elem_of_cons in Hn as [->|Hn];
            [cbn in Ha;
             repeat (apply elem_of_cons in Ha as [->|Ha];
                     [vm_compute; by eexists|]);
             by apply elem_of_nil in Ha|]).
    by apply elem_of_nil in Hn.
Defined.

(** ** The swap chain, once the pass object has its swap gate *)

(** X13 (the swap chain of a path): when a caller has given the pass
    object its [swap_gate] attribute, for a two-qubit operation whose
    two qubits sit on resources at distance greater than 1, and the path
    of [k] occupied resources the coupling graph returns between them,
    the swap layer holds exactly [k - 2] swaps, the [i]-th on the
    resources [path[i]] and [path[i+1]], which are directly connected,
    the final pair excluded; [route_cx] appends these [k - 2] operations
    and applies the chain to the layout, after which the first qubit of
    the operation is on the last but one resource of the path, next to
    the second qubit, which has not moved, and every logical resource in
    between has moved back by one resource of the path. *)
Theorem swap_chain_correct l0 lc init cur s nd a_cx a b p q d path :
  is_Some (StochasticMapper.swap_gate (self s)) →
  Coupling.contract (StochasticMapper.coupling_map (self s)) →
  related l0 lc init cur s → inv init cur →
  qargs a_cx = [a; b] → a ≠ b →
  Layout.v2p cur !! a = Some p → Layout.v2p cur !! b = Some q →
  Coupling.distance (StochasticMapper.coupling_map (self s)) p q = inr d →
  1 < d →
  Coupling.shortest_undirected_path (StochasticMapper.coupling_map (self s))
    p q = inr path →
  (∀ x, x ∈ path → is_Some (Layout.p2v cur !! x)) →
  ∃ swap_layer cur' nd',
    build_swap_layer lc path s = (inr swap_layer, s) ∧
    length (DAGCircuit.nodes swap_layer) = length path - 2 ∧
    2 ≤ length path ∧
    (∀ i x y, i < length path - 2 →
       path !! i = Some x → path !! S i = Some y →
       Coupling.distance (StochasticMapper.coupling_map (self s)) x y = inr 1 ∧
       ∃ vx vy, Layout.p2v cur !! x = Some vx ∧ Layout.p2v cur !! y = Some vy ∧
         DAGCircuit.nodes swap_layer !! i = Some (swap_node vx vy)) ∧
    update_current_layout lc path s = (inr (), with_current lc cur' s) ∧
    route_cx lc nd a_cx s = (inr nd', with_current lc cur' s) ∧
    length (DAGCircuit.nodes nd')
    = length (DAGCircuit.nodes nd) + (length path - 2) ∧
    (∃ z, path !! (length path - 2) = Some z ∧
       Layout.v2p cur' !! a = Some z ∧ Layout.v2p cur' !! b = Some q ∧
       Coupling.distance (StochasticMapper.coupling_map (self s)) z q
       = inr 1) ∧
    (∀ i x y v, i < length path - 2 →
       path !! i = Some x → path !! S i = Some y →
       Layout.p2v cur !! y = Some v → Layout.v2p cur' !! v = Some x).
Proof.
  intros Hsg Hcm Hrel Hinv Hq Hab Hp Hpq Hd Hd1 Hpath Hocc.
  pose proof (inv_cur _ _ Hinv) as Hcons.
  pose proof (Coupling.path_head _ Hcm _ _ _ Hpath) as Hhd.
  pose proof (Coupling.path_last _ Hcm _ _ _ Hpath) as Hlast.
  pose proof (Coupling.path_NoDup _ Hcm _ _ _ Hpath) as Hnd.
  assert (∀ x y, (x, y) ∈ Pure.chain path →
     is_Some (Layout.p2v cur !! x) ∧ is_Some (Layout.p2v cur !! y)) as Hocc2.
  { intros x y [? ?]%chain_elem_of. split; by apply Hocc. }
  destruct (swap_nodes_total _ cur _ Hsg Hocc2) as [swaps Hsw].
  destruct (apply_chain_total cur _ Hocc2) as [cur' Hch].
  assert (inv init cur') as Hinv' by (by eapply apply_chain_inv).
  pose proof (swap_layer_of_nodes (StochasticMapper.swap_gate (self s)) cur
                (Pure.chain path) DAGCircuit.empty) as Hnodes.
  rewrite Hsw in Hnodes.
  destruct (swap_layer_of _ cur (Pure.chain path) DAGCircuit.empty)
    as [e|swap_layer] eqn:Hsl; [done|].
  injection Hnodes as Hnodes. cbn in Hnodes.
  destruct (apply_chain_endpoints init cur cur' path a b p q)
    as (z & Hz & Hzq & Hza & Hzb); try done.
  assert (2 ≤ length path) as Hlen.
  { apply lookup_lt_Some in Hzq. lia. }
  destruct (apply_chain_p2v path cur cur' Hnd Hlen Hch) as (Hshift & _ & _).
  destruct (combine_inr init cur Hinv) as (em & Hem & _).
  assert (Pure.route_cx (StochasticMapper.swap_gate (self s))
            (StochasticMapper.coupling_map (self s)) init
            (cur, DAGCircuit.nodes nd) a_cx
          = inr (cur', DAGCircuit.nodes nd ++ (DAGCircuit.rename em <$> swaps)))
    as Hpure.
  { unfold Pure.route_cx, Layout.get_virtual. cbn [fst snd].
    rewrite Hq. cbn [lookup list_lookup]. pure_step. rewrite Hp. pure_step.
    rewrite Hpq. pure_step. rewrite Hd. pure_step.
    rewrite decide_True by lia. rewrite Hpath. pure_step.
    rewrite Hsw. pure_step. rewrite Hem. pure_step. by rewrite Hch. }
  destruct (route_cx_refines l0 lc init _ _ cur nd a_cx s Hrel eq_refl
              eq_refl) as (c1 & Hs1 & Hr1).
  rewrite Hpure in Hr1. cbn in Hr1. destruct Hr1 as [Hr1 ->].
  destruct (update_current_layout_refines l0 lc init cur path s Hrel)
    as (c2 & Hs2 & Hr2).
  rewrite Hch in Hr2. cbn in Hr2. destruct Hr2 as [Hr2 ->].
  exists swap_layer, cur',
    (DAGCircuit.mk (DAGCircuit.qregs nd)
       (DAGCircuit.nodes nd ++ (DAGCircuit.rename em <$> swaps))).
  split_and!.
  - by rewrite (build_swap_layer_eq l0 lc init _ cur _ _ Hrel eq_refl), Hsl.
  - by rewrite Hnodes, (swap_nodes_length _ _ _ _ Hsw), chain_length.
  - done.
  - intros i x y Hi Hx Hy. split; [by eapply Coupling.path_adjacent|].
    destruct (Hocc2 x y) as [[vx Hvx] [vy Hvy]].
    { apply list_elem_of_lookup. exists i. rewrite chain_lookup.
      rewrite decide_True by done. by rewrite Hx, Hy. }
    exists vx, vy. split_and!; [done..|]. rewrite Hnodes.
    apply (swap_nodes_lookup _ cur _ _ _ _ Hsw). exists x, y, vx, vy.
    split_and!; [|done..]. rewrite chain_lookup, decide_True by done.
    by rewrite Hx, Hy.
  - destruct (update_current_layout lc path s) as [r s']. cbn in *.
    by subst.
  - destruct (route_cx lc nd a_cx s) as [r s']. cbn in *. by subst.
  - cbn [DAGCircuit.nodes].
    rewrite length_app, length_fmap, (swap_nodes_length _ _ _ _ Hsw).
    by rewrite chain_length.
  - exists z. split_and!; [done..|].
    by eapply Coupling.path_adjacent.
  - intros i x y v Hi Hx Hy Hv'. apply (inv_cur _ _ Hinv').
    by rewrite (Hshift i x y).
Qed.

Lemma swap_chain_correct_witness :
  ∃ swap_layer cur' nd',
    build_swap_layer 1 [0; 1; 2; 3] (equipped_routing_store linear4)
    = (inr swap_layer, equipped_routing_store linear4) ∧
    length (DAGCircuit.nodes swap_layer) = length [0; 1; 2; 3] - 2 ∧
    2 ≤ length [0; 1; 2; 3] ∧
    (∀ i x y, i < length [0; 1; 2; 3] - 2 →
       [0; 1; 2; 3] !! i = Some x → [0; 1; 2; 3] !! S i = Some y →
       Coupling.distance linear4 x y = inr 1 ∧
       ∃ vx vy, Layout.p2v (Pure.one_to_one [qr4]) !! x = Some vx ∧
         Layout.p2v (Pure.one_to_one [qr4]) !! y = Some vy ∧
         DAGCircuit.nodes swap_layer !! i = Some (swap_node vx vy)) ∧
    update_current_layout 1 [0; 1; 2; 3] (equipped_routing_store linear4)
    = (inr (), with_current 1 cur' (equipped_routing_store linear4)) ∧
    route_cx 1 DAGCircuit.empty (cx (q 0) (q 3))
      (equipped_routing_store linear4)
    = (inr nd', with_current 1 cur' (equipped_routing_store linear4)) ∧
    length (DAGCircuit.nodes nd')
    = length (DAGCircuit.nodes DAGCircuit.empty)
      + (length [0; 1; 2; 3] - 2) ∧
    (∃ z, [0; 1; 2; 3] !! (length [0; 1; 2; 3] - 2) = Some z ∧
       Layout.v2p cur' !! q 0 = Some z ∧ Layout.v2p cur' !! q 3 = Some 3 ∧
       Coupling.distance linear4 z 3 = inr 1) ∧
    (∀ i x y v, i < length [0; 1; 2; 3] - 2 →
       [0; 1; 2; 3] !! i = Some x → [0; 1; 2; 3] !! S i = Some y →
       Layout.p2v (Pure.one_to_one [qr4]) !! y = Some v →
       Layout.v2p cur' !! v = Some x).
Proof.
  apply (swap_chain_correct 0 1 (Pure.one_to_one [qr4])
           (Pure.one_to_one [qr4]) (equipped_routing_store linear4)
           DAGCircuit.empty
           (cx (q 0) (q 3)) (q 0) (q 3) 0 3 3 [0; 1; 2; 3]).
  - by eexists.
  - apply GraphFacts.coupling_contract.
  - repeat split. lia.
  - apply inv_refl, one_to_one_consistent, NoDup_singleton.
  - reflexivity.
  - intros [=].
  - reflexivity.
  - reflexivity.
  - vm_compute. reflexivity.
  - lia.
  - vm_compute. reflexivity.
  - intros x Hx. repeat (apply elem_of_cons in Hx as [->|Hx]);
      [by vm_compute; eexists..|by apply elem_of_nil in Hx].
Defined.

(** ** The pass object as [__init__] builds it *)

Lemma route_cx_no_gate cm init cur out n st' :
  Pure.route_cx None cm init (cur, out) n = inr st' →
  st' = (cur, out) ∧ needs_no_swap cm cur n.
Proof.
  unfold Pure.route_cx, Layout.get_virtual. cbn [fst snd].
  destruct (qargs n !! 0) as [a|] eqn:Ha; [|done]. pure_step.
  destruct (Layout.v2p cur !! a) as [pa|] eqn:Hpa; [|done]. pure_step.
  destruct (qargs n !! 1) as [b|] eqn:Hb; [|done]. pure_step.
  destruct (Layout.v2p cur !! b) as [pb|] eqn:Hpb; [|done]. pure_step.
  destruct (Coupling.distance cm pa pb) as [e|d] eqn:Hd; [done|]. pure_step.
  case_decide as Hd1.
  2:{ intros [= <-]. split; [done|].
      intros a' b' Hq. rewrite Hq in Ha, Hb.
      injection Ha as ->. injection Hb as ->. exists pa, pb, d.
      split_and!; [done..|]. left.
      destruct (decide (d = 1)); [done|by destruct Hd1]. }
  destruct (Coupling.shortest_undirected_path cm pa pb) as [e|path] eqn:Hp;
    [done|].
  pure_step.
  assert (Pure.chain path = [] ∧ length path ≤ 2 ∨
          ∃ e, Pure.swap_nodes None cur (Pure.chain path) = inl e)
    as [[Hch Hlen]|[e He]].
  { destruct path as [|x [|y [|z rest]]]; [left; cbn; split; [done|lia]..|].
    right. cbn [Pure.chain Pure.swap_nodes].
    destruct (Layout.get_physical cur x); pure_step; [by eexists|].
    destruct (Layout.get_physical cur y); pure_step; by eexists. }
  2:{ by rewrite He. }
  rewrite Hch. cbn [Pure.swap_nodes Pure.apply_chain]. pure_step.
  destruct (Layout.combine_into_edge_map cur init) as [e|em]; [done|].
  pure_step. rewrite app_nil_r. intros [= <-]. split; [done|].
  intros a' b' Hq. rewrite Hq in Ha, Hb.
  injection Ha as ->. injection Hb as ->. exists pa, pb, d.
  split_and!; [done..|]. right. by exists path.
Qed.

Lemma route_layers_no_gate cm init regs ns out cur' out' :
  Layout.consistent init →
  Pure.route_layers None cm init (init, out)
    (DAGCircuit.serial_layers (DAGCircuit.mk regs ns)) = inr (cur', out') →
  cur' = init ∧ out' = out ++ ns ∧
  Forall (λ n, length (qargs n) = 2 → needs_no_swap cm init n) ns.
Proof.
  intros Hinit. revert out.
  induction ns as [|n ns IH]; intros out.
  { intros [= <- <-]. by rewrite app_nil_r. }
  rewrite route_layers_serial_cons.
  destruct (Pure.route_layer None cm init (init, out) (DAGCircuit.mk regs [n]))
    as [e|[cur1 out1]] eqn:Hl; [done|].
  pure_step. intros Hrest.
  apply route_serial_layer_inr in Hl as (mid & Hmid & _ & ->);
    [|by apply inv_refl].
  assert (cur1 = init ∧ mid = out ∧
          (length (qargs n) = 2 → needs_no_swap cm init n))
    as (-> & -> & Hn).
  { case_decide as Hlen; [|by destruct Hmid].
    apply route_cx_no_gate in Hmid as [[= -> ->] ?]. done. }
  rewrite (rename_id init n Hinit) in Hrest.
  apply IH in Hrest as (-> & -> & Hall).
  split_and!; [done|by rewrite <- app_assoc|by constructor].
Qed.

(** X14 (no swap without the swap gate): a pass object that has no
    [swap_gate] attribute, as [__init__] leaves it, never inserts a
    swap.  When its run returns a graph, the graph holds the operations
    of the program, unchanged and in order, the working copy of the
    layout ends as the starting layout, and every two-qubit operation of
    the program had its two qubits at distance 1, or a path of at most
    two resources between them: as soon as one operation needs a swap,
    the run raises. *)
Theorem run_without_swap_gate_inserts_no_swap dag s init out :
  StochasticMapper.swap_gate (self s) = None →
  layout_precondition dag s →
  starting_layout dag s = Some init →
  (run dag s).1 = inr out →
  DAGCircuit.nodes out = DAGCircuit.nodes dag ∧
  (run dag s).2 = final_state s init init ∧
  Forall (λ n, length (qargs n) = 2 →
            needs_no_swap (StochasticMapper.coupling_map (self s)) init n)
    (DAGCircuit.nodes dag).
Proof.
  intros Hsg (init' & Hinit' & Hcons)%starting_layout_consistent Hinit Hrun.
  assert (init' = init) as -> by congruence.
  destruct (run_inr dag s out init Hinit Hrun) as (cur' & ns & Hr & -> & Hs).
  destruct dag as [regs nodes]. rewrite Hsg in Hr.
  apply route_layers_no_gate in Hr as (-> & -> & Hall); [|done].
  by rewrite Hs.
Qed.

Lemma run_without_swap_gate_inserts_no_swap_witness :
  DAGCircuit.nodes (DAGCircuit.mk [] (DAGCircuit.nodes trivial_case))
  = DAGCircuit.nodes trivial_case ∧
  (run trivial_case (fresh star3)).2
  = final_state (fresh star3) (Pure.one_to_one [qr3])
      (Pure.one_to_one [qr3]) ∧
  Forall (λ n, length (qargs n) = 2 →
            needs_no_swap
              (StochasticMapper.coupling_map (self (fresh star3)))
              (Pure.one_to_one [qr3]) n)
    (DAGCircuit.nodes trivial_case).
Proof.
  apply (run_without_swap_gate_inserts_no_swap trivial_case (fresh star3)
           (Pure.one_to_one [qr3])
           (DAGCircuit.mk [] (DAGCircuit.nodes trivial_case))).
  - reflexivity.
  - hnf. apply NoDup_singleton.
  - reflexivity.
  - vm_compute. reflexivity.
Defined.
